(** * Satisfactory factory game: simulation core

    A shallow embedding of the simulation core of the game (spatial grid,
    power networks, production, command history, save rotation, milestone
    delivery, the space elevator, the fixed-step game loop and the
    placement of resource nodes) together with the properties its design
    document states and further properties read off the code.

    Conventions.
    - A JavaScript [number] that holds a grid coordinate, a slot index, an
      entity id or an item count is an integer: [Z] (or [nat] for ids and
      loop bounds).
    - A JavaScript [number] that holds a physical quantity (MW, MWh,
      seconds, recipe progress) is modelled as an exact rational [Q]: the
      rounding of IEEE doubles and of the [f32] component arrays is not
      modelled.  Equalities between such quantities are stated with [==].
    - A bitECS component array ([Producer.progress[eid]], ...) is a total
      function from entity ids; a query result is the list of entity ids in
      iteration order.
    - A [Map] is a [gmap] when only lookups matter and a list in insertion
      order when the code iterates over it. *)

From Stdlib Require Import ZArith QArith Qround Qminmax Qabs Lia Lra Lqa Ascii String.
From stdpp Require Import gmap strings list pretty sorting.

Local Open Scope Z_scope.

(* ================================================================== *)
(** * GridManager: the chunked occupancy grid *)
(* ================================================================== *)

Module Grid.

(** Chunk size in grid cells (constants.ts). *)
Definition CHUNK_SIZE : Z := 32.

Record GridPosition := mkPos { pos_x : Z; pos_y : Z; pos_z : Z }.

Record ChunkCoord := mkChunkCoord { cx : Z; cz : Z }.

(** [type Rotation = 0 | 1 | 2 | 3]. *)
Inductive Rotation := North | East | South | West.

Record GridCell := mkCell {
  entityId : nat;
  buildingType : string;
  rotation : Rotation
}.

(** [Math.floor(a / b)] on integer arguments: the quotient is taken in the
    rationals and then floored. *)
Definition floor_div (a b : Z) : Z := Qfloor (inject_Z a / inject_Z b).

(** [static positionToChunk(pos)]. *)
Definition positionToChunk (pos : GridPosition) : ChunkCoord :=
  {| cx := floor_div (pos_x pos) CHUNK_SIZE;
     cz := floor_div (pos_z pos) CHUNK_SIZE |}.

(** [static positionToLocal(pos)]: JavaScript's [%] truncates toward zero
    ([Z.rem]); a negative remainder is shifted up by one chunk. *)
Definition positionToLocal (pos : GridPosition) : Z * Z :=
  let localX := Z.rem (pos_x pos) CHUNK_SIZE in
  let localZ := Z.rem (pos_z pos) CHUNK_SIZE in
  let localX := if localX <? 0 then localX + CHUNK_SIZE else localX in
  let localZ := if localZ <? 0 then localZ + CHUNK_SIZE else localZ in
  (localX, localZ).

(** ** Chunks *)

(** A floor is a JavaScript array of [GridCell | null].  Writing inside
    the array replaces the element; writing past its end grows it, the
    skipped positions being holes (which read as [null] through [?? null]). *)
Definition array_set {A} (l : list (option A)) (i : nat) (v : option A)
  : list (option A) :=
  if decide (i < length l)%nat then <[i := v]> l
  else l ++ replicate (i - length l) None ++ [v].

(** [floor[i] ?? null]. *)
Definition array_get {A} (l : list (option A)) (i : nat) : option A :=
  default None (l !! i).

Record Chunk := mkChunk {
  chunk_cx : Z;
  chunk_cz : Z;
  cells : gmap Z (list (option GridCell))   (* y -> floor *)
}.

Definition newChunk (cx cz : Z) : Chunk := mkChunk cx cz ∅.

(** [new Array(CHUNK_SIZE * CHUNK_SIZE).fill(null)]. *)
Definition newFloor : list (option GridCell) :=
  replicate (Z.to_nat (CHUNK_SIZE * CHUNK_SIZE)) None.

(** [Chunk.getFloor]: the floor at level [y], created on first use. *)
Definition getFloor (c : Chunk) (y : Z) : list (option GridCell) :=
  match cells c !! y with
  | Some fl => fl
  | None => newFloor
  end.

Definition localIndex (localX localZ : Z) : nat :=
  Z.to_nat (localZ * CHUNK_SIZE + localX).

(** [Chunk.getCell]. *)
Definition getCell (c : Chunk) (localX localZ y : Z) : option GridCell :=
  match cells c !! y with
  | None => None
  | Some fl => array_get fl (localIndex localX localZ)
  end.

(** [Chunk.setCell]. *)
Definition setCell (c : Chunk) (localX localZ y : Z) (cell : option GridCell)
  : Chunk :=
  mkChunk (chunk_cx c) (chunk_cz c)
    (<[y := array_set (getFloor c y) (localIndex localX localZ) cell]> (cells c)).

(** ** The grid *)

(** [chunks: Map<string, Chunk>], keyed by the text [cx,cz]. *)
Record GridManager := mkGrid { chunks : gmap string Chunk }.

Definition emptyGrid : GridManager := mkGrid ∅.

(** [chunkKey]: the template string of the two numbers in decimal. *)
Definition chunkKey (cx cz : Z) : string := pretty cx +:+ "," +:+ pretty cz.

Definition keyOf (pos : GridPosition) : string :=
  let c := positionToChunk pos in chunkKey (cx c) (cz c).

(** [getChunk]: get or create. *)
Definition getChunk (g : GridManager) (cx cz : Z) : Chunk * GridManager :=
  match chunks g !! chunkKey cx cz with
  | Some c => (c, g)
  | None =>
      let c := newChunk cx cz in
      (c, mkGrid (<[chunkKey cx cz := c]> (chunks g)))
  end.

(** [isOccupied]. *)
Definition isOccupied (g : GridManager) (pos : GridPosition) : bool :=
  let c := positionToChunk pos in
  let '(localX, localZ) := positionToLocal pos in
  match chunks g !! chunkKey (cx c) (cz c) with
  | None => false
  | Some chunk =>
      match getCell chunk localX localZ (pos_y pos) with
      | Some _ => true
      | None => false
      end
  end.

(** The cell [dx] columns and [dz] rows away from the anchor, same floor. *)
Definition offset (pos : GridPosition) (dx dz : nat) : GridPosition :=
  mkPos (pos_x pos + Z.of_nat dx) (pos_y pos) (pos_z pos + Z.of_nat dz).

(** [canPlace]: the two nested loops return [false] at the first occupied
    cell. *)
Definition canPlace (g : GridManager) (pos : GridPosition) (sizeX sizeZ : nat)
  : bool :=
  forallb (fun dx =>
    forallb (fun dz => negb (isOccupied g (offset pos dx dz))) (seq 0 sizeZ))
    (seq 0 sizeX).

(** The body of the inner loop of [placeEntity] (and of [removeEntity] with
    [cell = None], except that the latter skips missing chunks): the chunk
    object is fetched (or created) and mutated in place. *)
Definition writeCell (cell : option GridCell) (g : GridManager)
  (cellPos : GridPosition) : GridManager :=
  let c := positionToChunk cellPos in
  let '(localX, localZ) := positionToLocal cellPos in
  let '(chunk, g1) := getChunk g (cx c) (cz c) in
  mkGrid (<[chunkKey (cx c) (cz c) :=
              setCell chunk localX localZ (pos_y cellPos) cell]> (chunks g1)).

(** The cells of a footprint in the order the loops visit them. *)
Definition footprint (pos : GridPosition) (sizeX sizeZ : nat)
  : list GridPosition :=
  dx ← seq 0 sizeX; (fun dz => offset pos dx dz) <$> seq 0 sizeZ.

(** [placeEntity]. *)
Definition placeEntity (g : GridManager) (pos : GridPosition)
  (sizeX sizeZ : nat) (eid : nat) (bt : string) (rot : Rotation)
  : bool * GridManager :=
  if negb (canPlace g pos sizeX sizeZ) then (false, g)
  else (true, foldl (writeCell (Some (mkCell eid bt rot))) g
                (footprint pos sizeX sizeZ)).

(** [removeEntity]. *)
Definition clearCell (g : GridManager) (cellPos : GridPosition) : GridManager :=
  let c := positionToChunk cellPos in
  let '(localX, localZ) := positionToLocal cellPos in
  match chunks g !! chunkKey (cx c) (cz c) with
  | Some chunk =>
      mkGrid (<[chunkKey (cx c) (cz c) :=
                  setCell chunk localX localZ (pos_y cellPos) None]> (chunks g))
  | None => g
  end.

Definition removeEntity (g : GridManager) (pos : GridPosition)
  (sizeX sizeZ : nat) : GridManager :=
  foldl clearCell g (footprint pos sizeX sizeZ).

(** [getCellAt]. *)
Definition getCellAt (g : GridManager) (pos : GridPosition) : option GridCell :=
  let c := positionToChunk pos in
  let '(localX, localZ) := positionToLocal pos in
  match chunks g !! chunkKey (cx c) (cz c) with
  | None => None
  | Some chunk => getCell chunk localX localZ (pos_y pos)
  end.

(** The storage location of a cell: chunk key, floor, index in the floor. *)
Definition slotOf (pos : GridPosition) : string * Z * nat :=
  (keyOf pos, pos_y pos,
   localIndex (fst (positionToLocal pos)) (snd (positionToLocal pos))).

(** ** The rest of the chunk and grid interface *)

(** [Chunk.isEmpty]: no floor holds a cell. *)
Definition isEmpty (c : Chunk) : bool :=
  forallb (fun fl => negb (existsb (fun cell => bool_decide (cell ≠ None)) fl))
          (map_to_list (cells c)).*2.

(** [Chunk.getActiveLevels]: the floor numbers in ascending order. *)
Definition getActiveLevels (c : Chunk) : list Z :=
  merge_sort Z.le (map_to_list (cells c)).*1.

(** The chunk coordinates [getChunksInRange] visits, in loop order. *)
Definition rangeCoords (centerCx centerCz range : Z) : list (Z * Z) :=
  dx ← seqZ (- range) (2 * range + 1);
  (fun dz => (centerCx + dx, centerCz + dz)) <$> seqZ (- range) (2 * range + 1).

(** [getChunksInRange]: every chunk of the square is fetched, and created
    when it does not exist yet. *)
Definition getChunksInRange (g : GridManager) (centerCx centerCz range : Z)
  : list Chunk * GridManager :=
  foldl (fun acc co =>
           let '(chunk, g') := getChunk acc.2 co.1 co.2 in (acc.1 ++ [chunk], g'))
        ([], g) (rangeCoords centerCx centerCz range).

(** A text without a comma. *)
Fixpoint commaFree (s : string) : Prop :=
  match s with
  | EmptyString => True
  | String c rest => c ≠ ","%char ∧ commaFree rest
  end.

(** A grid holding a 2 x 2 smelter at (-1, 0, 31), across four chunks. *)
Definition smelterGrid : GridManager :=
  snd (placeEntity emptyGrid (mkPos (-1) 0 31) 2 2 7 "smelter" East).

End Grid.

(* ================================================================== *)
(** * Rational helpers *)
(* ================================================================== *)

(** [a < b] on numbers, as a boolean. *)
Definition Qlt_bool (a b : Q) : bool := negb (Qle_bool b a).

(** A count used as a number. *)
Definition Qnat (n : nat) : Q := inject_Z (Z.of_nat n).

(** Pointwise update of a component array: [arr[eid] = v]. *)
Definition upd {A} (arr : nat -> A) (eid : nat) (v : A) : nat -> A :=
  fun e => if Nat.eqb e eid then v else arr e.

(* ================================================================== *)
(** * PowerGridSystem: power networks, storage and blackouts *)
(* ================================================================== *)

Module Power.

Local Open Scope Q_scope.

(** Alien Energy Extractor constants (constants.ts). *)
Definition ALIEN_ENERGY_BONUS : Q := 3 # 10.
Definition ALIEN_ENERGY_BASE_MW : Q := 500.

(** Runtime data for a power network. *)
Record PowerNetwork := mkNet {
  id : nat;
  totalProduction : Q;      (* MW *)
  totalConsumption : Q;     (* MW *)
  totalStorage : Q;         (* MWh, capacity *)
  storedEnergy : Q;         (* MWh, current *)
  alienExtractorCount : nat;
  effectiveProduction : Q;  (* after alien bonus *)
  isBlackedOut : bool;
  entities : gset nat
}.

(** The component stores and queries the power system reads and writes. *)
Record World := mkWorld {
  generatorQuery : list nat;
  alienQuery : list nat;
  consumerQuery : list nat;
  storageQuery : list nat;
  PowerGenerator_networkId : nat -> nat;
  PowerGenerator_currentPowerMW : nat -> Q;
  AlienExtractor_networkId : nat -> nat;
  PowerConsumer_networkId : nat -> nat;
  PowerConsumer_currentPowerMW : nat -> Q;
  PowerStorage_networkId : nat -> nat;
  PowerStorage_capacity : nat -> Q;
  PowerStorage_stored : nat -> Q
}.

(** [networks: Map<number, PowerNetwork>] in insertion order, and the next
    id to hand out. *)
Record PowerGridSystem := mkSys {
  networks : list PowerNetwork;
  nextNetworkId : nat
}.

Definition newSystem : PowerGridSystem := mkSys [] 1.

(** [createNetwork]. *)
Definition createNetwork (s : PowerGridSystem) : nat * PowerGridSystem :=
  let i := nextNetworkId s in
  (i, mkSys (networks s ++ [mkNet i 0 0 0 0 0 0 false ∅]) (S i)).

(** [networks.get(id)]. *)
Definition lookupNet (nets : list PowerNetwork) (k : nat) : option PowerNetwork :=
  find (fun n => Nat.eqb (id n) k) nets.

Definition getNetwork (s : PowerGridSystem) (k : nat) : option PowerNetwork :=
  lookupNet (networks s) k.

(** [const net = networks.get(k); if (!net) continue; <mutate net>]: the
    record stored under [k] is changed in place, an unknown id is skipped. *)
Fixpoint withNet (k : nat) (f : PowerNetwork -> PowerNetwork)
  (nets : list PowerNetwork) : list PowerNetwork :=
  match nets with
  | [] => []
  | n :: rest => if Nat.eqb (id n) k then f n :: rest else n :: withNet k f rest
  end.

(** Field assignments. *)
Definition resetStats (n : PowerNetwork) : PowerNetwork :=
  mkNet (id n) 0 0 0 (storedEnergy n) 0 (effectiveProduction n)
        (isBlackedOut n) (entities n).

Definition addProduction (v : Q) (n : PowerNetwork) : PowerNetwork :=
  mkNet (id n) (totalProduction n + v) (totalConsumption n) (totalStorage n)
        (storedEnergy n) (alienExtractorCount n) (effectiveProduction n)
        (isBlackedOut n) (entities n).

Definition addExtractor (n : PowerNetwork) : PowerNetwork :=
  mkNet (id n) (totalProduction n + ALIEN_ENERGY_BASE_MW) (totalConsumption n)
        (totalStorage n) (storedEnergy n) (S (alienExtractorCount n))
        (effectiveProduction n) (isBlackedOut n) (entities n).

Definition addConsumption (v : Q) (n : PowerNetwork) : PowerNetwork :=
  mkNet (id n) (totalProduction n) (totalConsumption n + v) (totalStorage n)
        (storedEnergy n) (alienExtractorCount n) (effectiveProduction n)
        (isBlackedOut n) (entities n).

Definition addStorage (cap sto : Q) (n : PowerNetwork) : PowerNetwork :=
  mkNet (id n) (totalProduction n) (totalConsumption n) (totalStorage n + cap)
        (storedEnergy n + sto) (alienExtractorCount n) (effectiveProduction n)
        (isBlackedOut n) (entities n).

(** The four tally loops of [update]. *)
Definition tallyGenerators (w : World) (nets : list PowerNetwork) :=
  foldl (fun nets eid =>
           withNet (PowerGenerator_networkId w eid)
                   (addProduction (PowerGenerator_currentPowerMW w eid)) nets)
        nets (generatorQuery w).

Definition tallyAliens (w : World) (nets : list PowerNetwork) :=
  foldl (fun nets eid => withNet (AlienExtractor_networkId w eid) addExtractor nets)
        nets (alienQuery w).

Definition tallyConsumers (w : World) (nets : list PowerNetwork) :=
  foldl (fun nets eid =>
           withNet (PowerConsumer_networkId w eid)
                   (addConsumption (PowerConsumer_currentPowerMW w eid)) nets)
        nets (consumerQuery w).

Definition tallyStorage (w : World) (nets : list PowerNetwork) :=
  foldl (fun nets eid =>
           withNet (PowerStorage_networkId w eid)
                   (addStorage (PowerStorage_capacity w eid)
                               (PowerStorage_stored w eid)) nets)
        nets (storageQuery w).

(** The networks as they stand when the last loop of [update] starts:
    statistics reset (the stored energy is not), then the four tallies. *)
Definition tally (w : World) (nets : list PowerNetwork) : list PowerNetwork :=
  tallyStorage w (tallyConsumers w (tallyAliens w (tallyGenerators w
    (map resetStats nets)))).

(** The body of the last loop of [update] for one network, up to the call
    of [updateStorageEntities]: effective production, then blackout check
    and storage charge or discharge over [dt] seconds. *)
Definition settle (dt : Q) (net : PowerNetwork) : PowerNetwork :=
  let baseProduction :=
    totalProduction net - (Qnat (alienExtractorCount net) * ALIEN_ENERGY_BASE_MW) in
  let alienBonus :=
    baseProduction * ALIEN_ENERGY_BONUS * Qnat (alienExtractorCount net) in
  let effective := totalProduction net + alienBonus in
  let surplus := effective - totalConsumption net in
  let '(stored, blackout) :=
    if Qlt_bool surplus 0 then
      let deficitMWh := Qabs surplus * (dt / 3600) in
      if Qle_bool deficitMWh (storedEnergy net)
      then (storedEnergy net - deficitMWh, false)
      else (0, true)
    else
      let surplusMWh := surplus * (dt / 3600) in
      (Qmin (storedEnergy net + surplusMWh) (totalStorage net), false) in
  mkNet (id net) (totalProduction net) (totalConsumption net) (totalStorage net)
        stored (alienExtractorCount net) effective blackout (entities net).

Definition setStored (w : World) (eid : nat) (v : Q) : World :=
  mkWorld (generatorQuery w) (alienQuery w) (consumerQuery w) (storageQuery w)
          (PowerGenerator_networkId w) (PowerGenerator_currentPowerMW w)
          (AlienExtractor_networkId w)
          (PowerConsumer_networkId w) (PowerConsumer_currentPowerMW w)
          (PowerStorage_networkId w) (PowerStorage_capacity w)
          (upd (PowerStorage_stored w) eid v).

(** [updateStorageEntities]: spread the network's charge over its storage
    entities in proportion to their capacity. *)
Definition updateStorageEntities (w : World) (net : PowerNetwork) : World :=
  if Qeq_bool (totalStorage net) 0 then w
  else
    foldl (fun w eid =>
             if Nat.eqb (PowerStorage_networkId w eid) (id net) then
               let ratio := PowerStorage_capacity w eid / totalStorage net in
               setStored w eid (storedEnergy net * ratio)
             else w)
          w (storageQuery w).

(** The last loop of [update]. *)
Fixpoint settleAll (dt : Q) (w : World) (nets : list PowerNetwork)
  : list PowerNetwork * World :=
  match nets with
  | [] => ([], w)
  | net :: rest =>
      let net' := settle dt net in
      let w' := updateStorageEntities w net' in
      let '(rest', w'') := settleAll dt w' rest in
      (net' :: rest', w'')
  end.

(** [update(world, dt)]. *)
Definition update (w : World) (dt : Q) (s : PowerGridSystem)
  : PowerGridSystem * World :=
  let '(nets, w') := settleAll dt w (tally w (networks s)) in
  (mkSys nets (nextNetworkId s), w').

(** [isEntityBlackedOut]: [net?.isBlackedOut ?? false]. *)
Definition isEntityBlackedOut (s : PowerGridSystem) (networkId : nat) : bool :=
  match getNetwork s networkId with
  | Some net => isBlackedOut net
  | None => false
  end.

(** [n] consecutive ticks of [dt] seconds. *)
Fixpoint ticks (n : nat) (dt : Q) (s : PowerGridSystem) (w : World)
  : PowerGridSystem * World :=
  match n with
  | O => (s, w)
  | S n' => let '(s', w') := update w dt s in ticks n' dt s' w'
  end.

(** The network invariant of the design document. *)
Definition wellFormed (net : PowerNetwork) : Prop :=
  0 <= totalProduction net /\ 0 <= totalConsumption net /\
  0 <= storedEnergy net /\ storedEnergy net <= totalStorage net.

(** A world with one 100 MWh accumulator holding 60 MWh and one 36 MW
    consumer, all on network 1, and no generator. *)
Definition drainWorld : World :=
  mkWorld [] [] [7%nat] [8%nat]
          (fun _ => 0%nat) (fun _ => 0)
          (fun _ => 0%nat)
          (fun _ => 1%nat) (fun _ => 36)
          (fun _ => 1%nat) (fun _ => 100) (fun _ => 60).

(** Two 500 MW-class generators (600 and 400 MW) and two alien extractors
    on network 1. *)
Definition bonusWorld : World :=
  mkWorld [1%nat; 2%nat] [3%nat; 4%nat] [] []
          (fun _ => 1%nat) (fun e => if Nat.eqb e 1 then 600 else 400)
          (fun _ => 1%nat)
          (fun _ => 1%nat) (fun _ => 0)
          (fun _ => 1%nat) (fun _ => 0) (fun _ => 0).

(** One 100 MW generator and one 150 MW consumer on network 1, no
    storage. *)
Definition blackoutWorld : World :=
  mkWorld [1%nat] [] [2%nat] []
          (fun _ => 1%nat) (fun _ => 100)
          (fun _ => 1%nat)
          (fun _ => 1%nat) (fun _ => 150)
          (fun _ => 1%nat) (fun _ => 0) (fun _ => 0).

(** A system with the single network 1. *)
Definition oneNetwork : PowerGridSystem := snd (createNetwork newSystem).

(** ** The rest of the power interface *)

(** The sum of the values [val] takes on the entities of [l]. *)
Definition sumOf (val : nat -> Q) (l : list nat) : Q :=
  foldr Qplus 0 (map val l).

(** The entities of a query that carry network id [k]. *)
Definition members (netOf : nat -> nat) (k : nat) (l : list nat) : list nat :=
  filter (fun e => netOf e = k) l.

(** The ids in the map are distinct and were all handed out by
    [createNetwork]. *)
Definition freshIds (s : PowerGridSystem) : Prop :=
  NoDup (map id (networks s)) /\
  Forall (fun n => (id n < nextNetworkId s)%nat) (networks s).

(** The object [getNetworkStats] returns. *)
Record NetworkStats := mkStats {
  stats_production : Q;
  stats_consumption : Q;
  stats_surplus : Q;
  stats_storagePercent : Q;
  stats_isBlackedOut : bool;
  stats_alienBonus : Q
}.

(** [getNetworkStats]: [null] for an unknown id. *)
Definition getNetworkStats (s : PowerGridSystem) (networkId : nat)
  : option NetworkStats :=
  match getNetwork s networkId with
  | None => None
  | Some net =>
      Some (mkStats
              (effectiveProduction net)
              (totalConsumption net)
              (effectiveProduction net - totalConsumption net)
              (if Qlt_bool 0 (totalStorage net)
               then (storedEnergy net / totalStorage net) * 100 else 0)
              (isBlackedOut net)
              (Qnat (alienExtractorCount net) * ALIEN_ENERGY_BONUS * 100))
  end.

(** Two accumulators of 100 and 300 MWh holding 10 and 50 MWh, and a
    200 MW generator, all on network 1; a third accumulator on the unknown
    network 9. *)
Definition chargeWorld : World :=
  mkWorld [1%nat] [] [] [2%nat; 3%nat; 4%nat]
          (fun _ => 1%nat) (fun _ => 200)
          (fun _ => 1%nat)
          (fun _ => 1%nat) (fun _ => 0)
          (fun e => if Nat.eqb e 4 then 9%nat else 1%nat)
          (fun e => if Nat.eqb e 2 then 100 else 300)
          (fun e => if Nat.eqb e 2 then 10 else 50).

End Power.

(* ================================================================== *)
(** * ProductionSystem: recipe-driven machine cycles *)
(* ================================================================== *)

Module Production.

Local Open Scope Q_scope.

(** Power shard constants (types.ts, [POWER_SHARD]). *)
Definition POWER_SHARD_bonusPerSlot : Q := 1 # 2.
Definition POWER_SHARD_maxMultiplier : Q := 5 # 2.

(** [MAX_OUTPUT_BUFFER] of [canOutput]. *)
Definition MAX_OUTPUT_BUFFER : Z := 100.

Record Ingredient := mkIng { itemId : string; amount : Z }.

(** Recipe runtime data. *)
Record RuntimeRecipe := mkRecipe {
  recipe_id : string;
  duration : Q;                    (* seconds *)
  ingredients : list Ingredient;
  products : list Ingredient
}.

(** Simple item buffer per entity: itemId -> count. *)
Record MachineBuffer := mkBuffer {
  inputSlots : gmap string Z;
  outputSlots : gmap string Z
}.

Definition emptyBuffer : MachineBuffer := mkBuffer ∅ ∅.

(** [slots.get(itemId) || 0]. *)
Definition slotCount (slots : gmap string Z) (item : string) : Z :=
  default 0%Z (slots !! item).

(** The component arrays, the buffers and the recipe registry the
    production system works on. *)
Record State := mkState {
  activeProducerQuery : list nat;
  Producer_recipeId : nat -> nat;
  Producer_progress : nat -> Q;
  Producer_speedMultiplier : nat -> Q;
  Producer_powerShards : nat -> nat;
  Producer_isActive : nat -> nat;
  PowerConsumer_basePowerMW : nat -> Q;
  PowerConsumer_currentPowerMW : nat -> Q;
  PowerConsumer_networkId : nat -> nat;
  buffers : gmap nat MachineBuffer;
  recipes : gmap nat RuntimeRecipe
}.

(** Field assignments. *)
Definition setActive (st : State) (eid : nat) (v : nat) : State :=
  mkState (activeProducerQuery st) (Producer_recipeId st) (Producer_progress st)
    (Producer_speedMultiplier st) (Producer_powerShards st)
    (upd (Producer_isActive st) eid v)
    (PowerConsumer_basePowerMW st) (PowerConsumer_currentPowerMW st)
    (PowerConsumer_networkId st) (buffers st) (recipes st).

Definition setProgress (st : State) (eid : nat) (v : Q) : State :=
  mkState (activeProducerQuery st) (Producer_recipeId st)
    (upd (Producer_progress st) eid v)
    (Producer_speedMultiplier st) (Producer_powerShards st) (Producer_isActive st)
    (PowerConsumer_basePowerMW st) (PowerConsumer_currentPowerMW st)
    (PowerConsumer_networkId st) (buffers st) (recipes st).

Definition setSpeed (st : State) (eid : nat) (v : Q) : State :=
  mkState (activeProducerQuery st) (Producer_recipeId st) (Producer_progress st)
    (upd (Producer_speedMultiplier st) eid v)
    (Producer_powerShards st) (Producer_isActive st)
    (PowerConsumer_basePowerMW st) (PowerConsumer_currentPowerMW st)
    (PowerConsumer_networkId st) (buffers st) (recipes st).

Definition setCurrentPower (st : State) (eid : nat) (v : Q) : State :=
  mkState (activeProducerQuery st) (Producer_recipeId st) (Producer_progress st)
    (Producer_speedMultiplier st) (Producer_powerShards st) (Producer_isActive st)
    (PowerConsumer_basePowerMW st)
    (upd (PowerConsumer_currentPowerMW st) eid v)
    (PowerConsumer_networkId st) (buffers st) (recipes st).

Definition setBuffer (st : State) (eid : nat) (b : MachineBuffer) : State :=
  mkState (activeProducerQuery st) (Producer_recipeId st) (Producer_progress st)
    (Producer_speedMultiplier st) (Producer_powerShards st) (Producer_isActive st)
    (PowerConsumer_basePowerMW st) (PowerConsumer_currentPowerMW st)
    (PowerConsumer_networkId st) (<[eid := b]> (buffers st)) (recipes st).

(** [registerRecipe]. *)
Definition registerRecipe (st : State) (index : nat) (r : RuntimeRecipe) : State :=
  mkState (activeProducerQuery st) (Producer_recipeId st) (Producer_progress st)
    (Producer_speedMultiplier st) (Producer_powerShards st) (Producer_isActive st)
    (PowerConsumer_basePowerMW st) (PowerConsumer_currentPowerMW st)
    (PowerConsumer_networkId st) (buffers st) (<[index := r]> (recipes st)).

(** [getBuffer].  The class declares a method of this name twice: first a
    private one that stores a new buffer for an entity without one, and
    further down a public one (for UI display) that does not.  An object
    has one method per name, the one declared last, so every
    [this.getBuffer(eid)] of the class, those of [processProducer],
    [addToInput] and [takeFromOutput] included, returns the stored buffer
    when the entity has one and otherwise a new empty buffer that is not
    stored. *)
Definition getBuffer (st : State) (eid : nat) : MachineBuffer :=
  default emptyBuffer (buffers st !! eid).

(** Writing into the object [getBuffer] returned: a stored buffer is
    changed in place, the buffer made up for an entity without one is lost
    when the call returns. *)
Definition putBuffer (st : State) (eid : nat) (b : MachineBuffer) : State :=
  match buffers st !! eid with
  | Some _ => setBuffer st eid b
  | None => st
  end.

(** What entity [eid] holds of [item] on its input side. *)
Definition inputCount (st : State) (eid : nat) (item : string) : Z :=
  slotCount (inputSlots (getBuffer st eid)) item.

(** [hasIngredients]. *)
Definition hasIngredients (b : MachineBuffer) (r : RuntimeRecipe) : bool :=
  forallb (fun ing => negb (slotCount (inputSlots b) (itemId ing) <? amount ing)%Z)
          (ingredients r).

(** [consumeIngredients]. *)
Definition consumeIngredients (b : MachineBuffer) (r : RuntimeRecipe)
  : MachineBuffer :=
  foldl (fun b ing =>
           mkBuffer (<[itemId ing :=
                        (slotCount (inputSlots b) (itemId ing) - amount ing)%Z]>
                     (inputSlots b))
                    (outputSlots b))
        b (ingredients r).

(** [canOutput]. *)
Definition canOutput (b : MachineBuffer) (r : RuntimeRecipe) : bool :=
  forallb (fun prod =>
             negb (MAX_OUTPUT_BUFFER <?
                   slotCount (outputSlots b) (itemId prod) + amount prod)%Z)
          (products r).

(** [produceOutputs]. *)
Definition produceOutputs (b : MachineBuffer) (r : RuntimeRecipe)
  : MachineBuffer :=
  foldl (fun b prod =>
           mkBuffer (inputSlots b)
                    (<[itemId prod :=
                        (slotCount (outputSlots b) (itemId prod) + amount prod)%Z]>
                     (outputSlots b)))
        b (products r).

(** How much of [item] one cycle of the recipe takes in total. *)
Definition required (r : RuntimeRecipe) (item : string) : Z :=
  foldr (fun ing acc => if String.eqb (itemId ing) item
                        then (amount ing + acc)%Z else acc)
        0%Z (ingredients r).

(** [addToInput] (from a conveyor). *)
Definition addToInput (st : State) (eid : nat) (item : string) (n : Z)
  : Z * State :=
  let b := getBuffer st eid in
  let current := slotCount (inputSlots b) item in
  let canAccept := Z.min n (100 - current) in
  if (0 <? canAccept)%Z
  then (canAccept,
        putBuffer st eid
          (mkBuffer (<[item := (current + canAccept)%Z]> (inputSlots b))
                    (outputSlots b)))
  else (canAccept, st).

Section WithPow.

(** [Math.pow]; only its value at exponent 1.6 is used. *)
Variable pow : Q -> Q -> Q.

(** [processProducer].  Recipes have a positive duration; for a duration
    of 0 the quotient [dt / duration] is infinite in JavaScript and 0
    here, and nothing below relies on it. *)
Definition processProducer (dt : Q) (st : State) (eid : nat) : State :=
  match recipes st !! Producer_recipeId st eid with
  | None => setActive st eid 0
  | Some recipe =>
      let buffer := getBuffer st eid in
      (* speed multiplier from power shards *)
      let shardCount := Producer_powerShards st eid in
      let shardBonus := Qnat shardCount * POWER_SHARD_bonusPerSlot in
      let speedMultiplier := Qmin (1 + shardBonus) POWER_SHARD_maxMultiplier in
      let st := setSpeed st eid speedMultiplier in
      (* power consumption scales with speed^1.6 *)
      let st :=
        if Qlt_bool 0 (PowerConsumer_basePowerMW st eid)
        then setCurrentPower st eid
               (PowerConsumer_basePowerMW st eid * pow speedMultiplier (16 # 10))
        else st in
      if negb (canOutput buffer recipe) then setActive st eid 0
      else
        (* ingredients are checked only when a new cycle starts *)
        let start :=
          if Qeq_bool (Producer_progress st eid) 0 then
            if negb (hasIngredients buffer recipe) then None
            else let b := consumeIngredients buffer recipe in
                 Some (b, putBuffer st eid b)
          else Some (buffer, st) in
        match start with
        | None => setActive st eid 0
        | Some (buffer, st) =>
            let st := setActive st eid 1 in
            let progressDelta := (dt / duration recipe) * speedMultiplier in
            let st := setProgress st eid (Producer_progress st eid + progressDelta) in
            if Qle_bool 1 (Producer_progress st eid)
            then putBuffer (setProgress st eid 0) eid (produceOutputs buffer recipe)
            else st
        end
  end.

(** The body of the loop of [update] for one producer. *)
Definition updateProducer (powerGrid : Power.PowerGridSystem) (dt : Q)
  (st : State) (eid : nat) : State :=
  let needsPower := Qlt_bool 0 (PowerConsumer_basePowerMW st eid) in
  if needsPower && Power.isEntityBlackedOut powerGrid (PowerConsumer_networkId st eid)
  then setCurrentPower (setActive st eid 0) eid 0
  else processProducer dt st eid.

(** [update(world, dt, powerGrid)]. *)
Definition update (dt : Q) (powerGrid : Power.PowerGridSystem) (st : State)
  : State :=
  foldl (updateProducer powerGrid dt) st (activeProducerQuery st).

(** A run of ticks, each with its own time step and power grid state. *)
Definition run (ts : list (Q * Power.PowerGridSystem)) (st : State) : State :=
  foldl (fun st t => update (fst t) (snd t) st) st ts.

End WithPow.

(** A stand-in for [Math.pow] for computing examples. *)
Definition linearPow (x _ : Q) : Q := x.

(** One constructor holding 7 iron ore where the recipe takes 5. *)
Definition fed : State :=
  mkState [4%nat]
    (fun _ => 0%nat) (fun _ => 0) (fun _ => 1) (fun _ => 0%nat) (fun _ => 0%nat)
    (fun _ => 4) (fun _ => 0) (fun _ => 9%nat)
    {[ 4%nat := mkBuffer {[ "iron_ore" := 7%Z ]} ∅ ]}
    {[ 0%nat := mkRecipe "ingot" 2 [mkIng "iron_ore" 5] [mkIng "iron_ingot" 1] ]}.

(** ** The conveyor side of the buffers *)

(** How much of [item] one cycle of the recipe yields in total. *)
Definition provided (r : RuntimeRecipe) (item : string) : Z :=
  foldr (fun prod acc => if String.eqb (itemId prod) item
                         then (amount prod + acc)%Z else acc)
        0%Z (products r).

(** What entity [eid] holds of [item] on its output side. *)
Definition outputCount (st : State) (eid : nat) (item : string) : Z :=
  slotCount (outputSlots (getBuffer st eid)) item.

(** [takeFromOutput] (to a conveyor). *)
Definition takeFromOutput (st : State) (eid : nat) (item : string) (n : Z)
  : Z * State :=
  let b := getBuffer st eid in
  let current := slotCount (outputSlots b) item in
  let canTake := Z.min n current in
  if (0 <? canTake)%Z
  then (canTake,
        putBuffer st eid
          (mkBuffer (inputSlots b)
                    (<[item := (current - canTake)%Z]> (outputSlots b))))
  else (canTake, st).

(** [removeEntity]. *)
Definition removeEntity (st : State) (eid : nat) : State :=
  mkState (activeProducerQuery st) (Producer_recipeId st) (Producer_progress st)
    (Producer_speedMultiplier st) (Producer_powerShards st) (Producer_isActive st)
    (PowerConsumer_basePowerMW st) (PowerConsumer_currentPowerMW st)
    (PowerConsumer_networkId st) (delete eid (buffers st)) (recipes st).

(** Two constructors on network 1: entity 4 with three power shards and
    entity 5 without, both a quarter into a cycle. *)
Definition pair : State :=
  mkState [4%nat; 5%nat]
    (fun _ => 0%nat) (fun _ => 1 # 4) (fun _ => 1)
    (fun e => if Nat.eqb e 4 then 3%nat else 0%nat) (fun _ => 1%nat)
    (fun _ => 4) (fun _ => 4) (fun _ => 1%nat)
    {[ 4%nat := mkBuffer {[ "iron_ore" := 7%Z ]} {[ "iron_ingot" := 98%Z ]};
       5%nat := mkBuffer ∅ {[ "iron_ingot" := 99%Z ]} ]}
    {[ 0%nat := mkRecipe "ingot" 2 [mkIng "iron_ore" 5] [mkIng "iron_ingot" 1] ]}.

(** A grid whose network 1 is blacked out. *)
Definition darkGrid : Power.PowerGridSystem :=
  Power.mkSys [Power.mkNet 1 100 150 0 0 0 100 true ∅] 2.

(** ** The production system in use *)

(** A call of a public method of [ProductionSystem], and a sequence of
    such calls. *)
Inductive Call :=
| CallRegisterRecipe (index : nat) (recipe : RuntimeRecipe)
| CallAddToInput (eid : nat) (item : string) (n : Z)
| CallTakeFromOutput (eid : nat) (item : string) (n : Z)
| CallRemoveEntity (eid : nat)
| CallUpdate (dt : Q) (powerGrid : Power.PowerGridSystem).

Definition call (pow : Q -> Q -> Q) (k : Call) (st : State) : State :=
  match k with
  | CallRegisterRecipe index recipe => registerRecipe st index recipe
  | CallAddToInput eid item n => (addToInput st eid item n).2
  | CallTakeFromOutput eid item n => (takeFromOutput st eid item n).2
  | CallRemoveEntity eid => removeEntity st eid
  | CallUpdate dt powerGrid => update pow dt powerGrid st
  end.


(** A new [ProductionSystem] (no buffer, no recipe) in a world with one
    constructor, entity 4, at progress 0. *)
Definition idle : State :=
  mkState [4%nat]
    (fun _ => 0%nat) (fun _ => 0) (fun _ => 1) (fun _ => 0%nat) (fun _ => 0%nat)
    (fun _ => 4) (fun _ => 0) (fun _ => 9%nat)
    ∅ ∅.


(** A recipe without ingredients: two units of water every second. *)
Definition pump : RuntimeRecipe := mkRecipe "water" 1 [] [mkIng "water" 2].

End Production.

(* ================================================================== *)
(** * Commands and CommandHistory: undo and redo *)
(* ================================================================== *)

Module History.

Section Commands.

(** The host's game state, which the callbacks of a command read and
    change. *)
Context {Host : Type}.

(** Everything a command can touch: the host state and the private
    [resultEntityId] field of each [PlaceBuildingCommand] object (by object
    identity; absent means [null]). *)
Record Env := mkEnv {
  host : Host;
  resultEntityId : gmap nat nat
}.

(** The [Command] interface: [execute] reports success, [undo] does not
    fail.  ([serialize] only describes the command and is left out.) *)
Record Command := mkCommand {
  cmd_type : string;
  cmd_timestamp : Z;
  cmd_execute : Env -> bool * Env;
  cmd_undo : Env -> Env
}.

(** [class PlaceBuildingCommand], object [self]. *)
Definition PlaceBuildingCommand (self : nat) (timestamp : Z)
  (onExecute : Host -> option nat * Host) (onUndo : nat -> Host -> Host)
  : Command :=
  mkCommand "place_building" timestamp
    (fun env =>
       let '(r, h) := onExecute (host env) in
       match r with
       | Some e => (true, mkEnv h (<[self := e]> (resultEntityId env)))
       | None => (false, mkEnv h (delete self (resultEntityId env)))
       end)
    (fun env =>
       match resultEntityId env !! self with
       | Some e => mkEnv (onUndo e (host env)) (delete self (resultEntityId env))
       | None => env
       end).

(** [class RemoveBuildingCommand]. *)
Definition RemoveBuildingCommand (timestamp : Z)
  (onExecute : Host -> bool * Host) (onUndo : Host -> Host) : Command :=
  mkCommand "remove_building" timestamp
    (fun env =>
       let '(ok, h) := onExecute (host env) in (ok, mkEnv h (resultEntityId env)))
    (fun env => mkEnv (onUndo (host env)) (resultEntityId env)).

(** Command history: both stacks are arrays, the top is the last element. *)
Record CommandHistory := mkHistory {
  undoStack : list Command;
  redoStack : list Command
}.

Definition maxHistory : nat := 100.

Definition emptyHistory : CommandHistory := mkHistory [] [].

(** [Array.prototype.pop]. *)
Definition pop {A} (l : list A) : option (A * list A) :=
  match last l with
  | Some x => Some (x, removelast l)
  | None => None
  end.

(** [Array.prototype.shift], the removed element dropped. *)
Definition shift {A} (l : list A) : list A := tail l.

(** [CommandHistory.execute]. *)
Definition execute (h : CommandHistory) (command : Command) (env : Env)
  : bool * CommandHistory * Env :=
  let '(success, env') := cmd_execute command env in
  if success then
    let u := undoStack h ++ [command] in
    let u := if (maxHistory <? length u)%nat then shift u else u in
    (true, mkHistory u [], env')
  else (false, h, env').

(** [CommandHistory.undo]. *)
Definition undo (h : CommandHistory) (env : Env) : bool * CommandHistory * Env :=
  match pop (undoStack h) with
  | None => (false, h, env)
  | Some (command, u) =>
      (true, mkHistory u (redoStack h ++ [command]), cmd_undo command env)
  end.

(** [CommandHistory.redo]. *)
Definition redo (h : CommandHistory) (env : Env) : bool * CommandHistory * Env :=
  match pop (redoStack h) with
  | None => (false, h, env)
  | Some (command, r) =>
      let '(success, env') := cmd_execute command env in
      if success
      then (true, mkHistory (undoStack h ++ [command]) r, env')
      else (false, mkHistory (undoStack h) r, env')
  end.

(** The undo stack after a successful [execute]: the command on top, the
    oldest entry dropped when the bound is passed. *)
Definition pushed (u : list Command) (c : Command) : list Command :=
  if (maxHistory <? length (u ++ [c]))%nat then shift (u ++ [c]) else u ++ [c].

(** [getRecentCommands]. *)
Definition getRecentCommands (h : CommandHistory) (since : Z) : list Command :=
  filter (fun c => since <= cmd_timestamp c) (undoStack h).

(** [clear]. *)
Definition clear (h : CommandHistory) : CommandHistory := emptyHistory.

(** Executing a list of commands one after the other. *)
Definition executeAll (cs : list Command) (h : CommandHistory) (env : Env)
  : CommandHistory * Env :=
  foldl (fun st c => let '(_, h', env') := execute (fst st) c (snd st) in (h', env'))
        (h, env) cs.

(** Calling [undo] [n] times. *)
Fixpoint undoTimes (n : nat) (h : CommandHistory) (env : Env)
  : CommandHistory * Env :=
  match n with
  | O => (h, env)
  | S n' => let '(_, h', env') := undo h env in undoTimes n' h' env'
  end.

(** A call on a history, and a script of such calls. *)
Inductive Call :=
| CallExecute (c : Command)
| CallUndo
| CallRedo
| CallClear.

Definition call (k : Call) (h : CommandHistory) (env : Env)
  : CommandHistory * Env :=
  match k with
  | CallExecute c => let '(_, h', env') := execute h c env in (h', env')
  | CallUndo => let '(_, h', env') := undo h env in (h', env')
  | CallRedo => let '(_, h', env') := redo h env in (h', env')
  | CallClear => (clear h, env)
  end.

Definition script (ks : list Call) (h : CommandHistory) (env : Env)
  : CommandHistory * Env :=
  foldl (fun st k => call k (fst st) (snd st)) (h, env) ks.

End Commands.

Arguments Env : clear implicits.
Arguments Command : clear implicits.
Arguments CommandHistory : clear implicits.
Arguments Call : clear implicits.

(** A host that can afford one building only: the number of paid-for
    buildings left, and the next entity id. *)
Record Budget := mkBudget { credits : nat; nextEntity : nat }.

(** A placement callback that spends one credit (and fails without one);
    its undo callback removes the entity but refunds nothing. *)
Definition payAndPlace (b : Budget) : option nat * Budget :=
  match credits b with
  | O => (None, b)
  | S c => (Some (nextEntity b), mkBudget c (S (nextEntity b)))
  end.

Definition removeOnly (_ : nat) (b : Budget) : Budget := b.

(** A placement callback that always succeeds and hands out fresh ids. *)
Definition freePlace (b : Budget) : option nat * Budget :=
  (Some (nextEntity b), mkBudget (credits b) (S (nextEntity b))).

Definition cmdA : Command Budget := PlaceBuildingCommand 1 1000 freePlace removeOnly.
Definition cmdB : Command Budget := PlaceBuildingCommand 2 2000 payAndPlace removeOnly.

Definition env0 : Env Budget := mkEnv (mkBudget 1 0) ∅.

(** The history and the world after executing A and then B with a budget
    of one credit. *)
Definition poorB : bool * CommandHistory Budget * Env Budget :=
  execute (execute emptyHistory cmdA env0).1.2 cmdB
          (execute emptyHistory cmdA env0).2.

(** The same with a budget of two credits. *)
Definition envRich : Env Budget := mkEnv (mkBudget 2 0) ∅.

Definition afterA : bool * CommandHistory Budget * Env Budget :=
  execute emptyHistory cmdA envRich.

Definition afterB : bool * CommandHistory Budget * Env Budget :=
  execute afterA.1.2 cmdB afterA.2.

(** An undo callback that reverts the placement: the credit is refunded
    and the entity id is free again. *)
Definition refund (e : nat) (b : Budget) : Budget := mkBudget (S (credits b)) e.

Definition cmdC : Command Budget := PlaceBuildingCommand 3 3000 payAndPlace refund.

Definition afterC : bool * CommandHistory Budget * Env Budget :=
  execute afterA.1.2 cmdC afterA.2.

End History.

(* ================================================================== *)
(** * SaveManager: checksummed saves in rotating slots *)
(* ================================================================== *)

Module Save.

(** Maximum save slots for rotation, and the save data version
    (constants.ts). *)
Definition MAX_SAVE_SLOTS : Z := 5.
Definition SAVE_VERSION : Z := 1.

Record Vec3 := mkVec3 { vx : Q; vy : Q; vz : Q }.

Record SavedEntity := mkSavedEntity {
  se_id : nat;
  se_type : string;
  se_position : Grid.GridPosition;
  se_rotation : Grid.Rotation;
  se_state : option (list (string * string))
}.

Record SaveData := mkSaveData {
  version : Z;
  timestamp : Z;
  checksum : string;
  gameTime : Q;
  entities : list SavedEntity;
  inventory : list (string * Z);
  unlockedMilestones : list string;
  unlockedRecipes : list string;
  milestoneProgress : list (string * Z);
  cameraPosition : Vec3;
  cameraTarget : Vec3
}.

Definition stamp (v t : Z) (d : SaveData) : SaveData :=
  mkSaveData v t (checksum d) (gameTime d) (entities d) (inventory d)
    (unlockedMilestones d) (unlockedRecipes d) (milestoneProgress d)
    (cameraPosition d) (cameraTarget d).

Definition setChecksum (c : string) (d : SaveData) : SaveData :=
  mkSaveData (version d) (timestamp d) c (gameTime d) (entities d) (inventory d)
    (unlockedMilestones d) (unlockedRecipes d) (milestoneProgress d)
    (cameraPosition d) (cameraTarget d).

(** ** The checksum *)

(** [x | 0]: wrap to a signed 32-bit integer. *)
Definition toInt32 (x : Z) : Z := (x + 2 ^ 31) mod 2 ^ 32 - 2 ^ 31.

(** One round of the loop of [computeChecksum]:
    [hash = ((hash << 5) - hash) + char; hash |= 0]. *)
Definition hashStep (hash : Z) (c : ascii) : Z :=
  toInt32 (toInt32 (Z.shiftl hash 5) - hash + Z.of_nat (nat_of_ascii c)).

Definition hexDigit (d : Z) : ascii :=
  if d <? 10 then ascii_of_nat (Z.to_nat (48 + d))
  else ascii_of_nat (Z.to_nat (87 + d)).

(** The digits of a non-negative number in base 16, most significant first;
    eight rounds are enough below [2 ^ 32]. *)
Fixpoint hexDigits (fuel : nat) (n : Z) (acc : string) : string :=
  match fuel with
  | O => acc
  | S fuel' =>
      let acc' := String (hexDigit (n mod 16)) acc in
      if n / 16 =? 0 then acc' else hexDigits fuel' (n / 16) acc'
  end.

(** [hash.toString(16)]. *)
Definition toString16 (n : Z) : string :=
  if n <? 0 then String "-" (hexDigits 8 (- n) EmptyString)
  else hexDigits 8 n EmptyString.

(** [computeChecksum]. *)
Definition computeChecksum (data : string) : string :=
  toString16 (fold_left hashStep (list_ascii_of_string data) 0).

(** The polynomial string hash with multiplier 31 over the integers, which
    the checksum loop computes in 32-bit arithmetic. *)
Definition polynomialHash (data : string) : Z :=
  fold_left (fun h c => 31 * h + Z.of_nat (nat_of_ascii c))
            (list_ascii_of_string data) 0.

(** ** Storage *)

(** The storage adapter's content: the records under the keys
    [save_slot_<n>] and the record under [save_meta]. *)
Record Storage := mkStorage {
  slotStore : gmap Z string;
  metaStore : option string
}.

Definition emptyStorage : Storage := mkStorage ∅ None.

Record SaveManager := mkManager { currentSlot : Z }.

Section WithJSON.

(** [JSON.stringify] and [JSON.parse] on save records.  [parse] is [None]
    when the text does not yield a save record (the parser, or the use of
    its result, raises inside the [try] block). *)
Variable stringify : SaveData -> string.
Variable parse : string -> option SaveData.

(** [JSON.stringify(lastSlot, lastTimestamp, slots)] for the metadata
    record, and [JSON.parse(metaJson).lastSlot ?? 0], which is [None] when
    it raises. *)
Variable stringifyMeta : Z -> Z -> Z -> string.
Variable parseMetaLastSlot : string -> option Z.

(** [save(data)] at time [now]: the stamped record, the manager and the
    storage afterwards. *)
Definition save (now : Z) (data : SaveData) (m : SaveManager) (st : Storage)
  : SaveData * SaveManager * Storage :=
  let data := stamp SAVE_VERSION now data in
  let data := setChecksum "" data in
  let jsonWithoutChecksum := stringify data in
  let data := setChecksum (computeChecksum jsonWithoutChecksum) data in
  let json := stringify data in
  let st := mkStorage (<[currentSlot m := json]> (slotStore st)) (metaStore st) in
  let st := mkStorage (slotStore st)
              (Some (stringifyMeta (currentSlot m) (timestamp data) MAX_SAVE_SLOTS)) in
  (data, mkManager (Z.rem (currentSlot m + 1) MAX_SAVE_SLOTS), st).

(** A text is falsy when it is empty. *)
Definition truthy (s : string) : bool := negb (String.eqb s "").

(** The slot [load] starts from. *)
Definition startSlot (st : Storage) : Z :=
  match metaStore st with
  | Some metaJson =>
      if truthy metaJson then
        match parseMetaLastSlot metaJson with
        | Some lastSlot => lastSlot
        | None => 0              (* corrupted meta, start from 0 *)
        end
      else 0
  | None => 0
  end.

(** The body of the [try] block of [load] for one slot: the record when the
    slot holds one whose checksum verifies. *)
Definition validate (st : Storage) (slot : Z) : option SaveData :=
  match slotStore st !! slot with
  | None => None
  | Some json =>
      if truthy json then
        match parse json with
        | None => None
        | Some data =>
            let savedChecksum := checksum data in
            let computedChecksum :=
              computeChecksum (stringify (setChecksum "" data)) in
            if String.eqb savedChecksum computedChecksum
            then Some (setChecksum savedChecksum (setChecksum "" data))
            else None
        end
      else None
  end.

(** The slot visited at round [i] of the loop. *)
Definition slotAt (start i : Z) : Z :=
  Z.rem (start - i + MAX_SAVE_SLOTS) MAX_SAVE_SLOTS.

(** The loop of [load] over the given rounds. *)
Fixpoint loadLoop (st : Storage) (start : Z) (rounds : list Z) (m : SaveManager)
  : option SaveData * SaveManager :=
  match rounds with
  | [] => (None, m)
  | i :: rest =>
      let slot := slotAt start i in
      match validate st slot with
      | Some data => (Some data, mkManager (Z.rem (slot + 1) MAX_SAVE_SLOTS))
      | None => loadLoop st start rest m
      end
  end.

(** [load()]. *)
Definition load (m : SaveManager) (st : Storage) : option SaveData * SaveManager :=
  loadLoop st (startSlot st) (seqZ 0 MAX_SAVE_SLOTS) m.

(** [deleteAll()]. *)
Definition deleteAll (m : SaveManager) (st : Storage) : SaveManager * Storage :=
  (mkManager 0,
   mkStorage (foldl (fun s i => delete i s) (slotStore st) (seqZ 0 MAX_SAVE_SLOTS))
             None).

(** A run of saves, each with its clock reading and record. *)
Fixpoint saveMany (ds : list (Z * SaveData)) (m : SaveManager) (st : Storage)
  : SaveManager * Storage :=
  match ds with
  | [] => (m, st)
  | (now, d) :: rest =>
      let '(_, m', st') := save now d m st in saveMany rest m' st'
  end.

End WithJSON.

(** A toy serialisation for computing examples: a record is printed as its
    checksum followed by its timestamp in unary; only the two records
    below are recognised when reading back. *)
Definition blank : SaveData :=
  mkSaveData 0 0 "" 0 [] [] [] [] [] (mkVec3 0 0 0) (mkVec3 0 0 0).

Definition toyStringify (d : SaveData) : string :=
  checksum d +:+ "|" +:+
  string_of_list_ascii (replicate (Z.to_nat (timestamp d)) "t"%char).

Definition toyRecord (t : Z) : SaveData :=
  setChecksum (computeChecksum (toyStringify (stamp SAVE_VERSION t blank)))
              (stamp SAVE_VERSION t blank).

Definition toyParse (s : string) : option SaveData :=
  if String.eqb s (toyStringify (toyRecord 1)) then Some (toyRecord 1)
  else if String.eqb s (toyStringify (toyRecord 2)) then Some (toyRecord 2)
  else if String.eqb s ("bad|tt") then Some (setChecksum "bad" (toyRecord 2))
  else None.

Definition toyStringifyMeta (lastSlot _ _ : Z) : string :=
  string_of_list_ascii (replicate (Z.to_nat (lastSlot + 1)) "s"%char).

Definition toyParseMeta (s : string) : option Z :=
  if truthy s then Some (Z.of_nat (String.length s) - 1) else None.

(** Two saves (slots 0 and 1), then the checksum text of the newer record
    damaged in storage. *)
Definition twoSaves : SaveManager * Storage :=
  let '(_, m1, st1) :=
    save toyStringify toyStringifyMeta 1 blank (mkManager 0) emptyStorage in
  let '(_, m2, st2) := save toyStringify toyStringifyMeta 2 blank m1 st1 in
  (m2, st2).

Definition damaged : Storage :=
  mkStorage (<[1 := "bad|tt"]> (slotStore (snd twoSaves))) (metaStore (snd twoSaves)).

End Save.

(* ================================================================== *)
(** * InventorySystem and ProgressionSystem: milestone delivery *)
(* ================================================================== *)

Module Progression.

Record RecipeIngredient := mkIngredient { itemId : string; amount : Z }.

Record MilestoneDefinition := mkMilestone {
  id : string;
  name : string;
  tier : Z;
  cost : list RecipeIngredient;
  unlockedRecipes : list string;
  unlockedBuildings : list string
}.

Record MilestoneProgress := mkProgress {
  milestoneId : string;
  delivered : gmap string Z;    (* itemId -> delivered count *)
  isComplete : bool
}.

(** The milestone side of [ProgressionSystem] (the space elevator phases
    and the sink points are separate fields that milestone delivery does
    not touch). *)
Record ProgressionSystem := mkSystem {
  milestones : list MilestoneDefinition;
  unlockedMilestones : gset string;
  milestoneProgress : gmap string MilestoneProgress;
  unlockedRecipeSet : gset string;
  unlockedBuildingSet : gset string
}.

(** The player's inventory of [InventorySystem]: itemId -> amount. *)
Record InventorySystem := mkInventory { playerInventory : gmap string Z }.

(** [getPlayerCount]: [playerInventory.get(itemId) || 0]. *)
Definition getPlayerCount (inv : InventorySystem) (item : string) : Z :=
  default 0 (playerInventory inv !! item).

(** [addToPlayer]. *)
Definition addToPlayer (inv : InventorySystem) (item : string) (n : Z)
  : InventorySystem :=
  mkInventory (<[item := getPlayerCount inv item + n]> (playerInventory inv)).

(** [removeFromPlayer]. *)
Definition removeFromPlayer (inv : InventorySystem) (item : string) (n : Z)
  : Z * InventorySystem :=
  let current := getPlayerCount inv item in
  let removed := Z.min current n in
  if 0 <? removed then
    let m := <[item := current - removed]> (playerInventory inv) in
    (removed, mkInventory (if current - removed <=? 0 then delete item m else m))
  else (removed, inv).

(** [milestones.find(m => m.id === milestoneId)]. *)
Definition findMilestone (s : ProgressionSystem) (mid : string)
  : option MilestoneDefinition :=
  find (fun m => String.eqb (id m) mid) (milestones s).

(** [cost.find(c => c.itemId === itemId)]. *)
Definition findRequirement (m : MilestoneDefinition) (item : string)
  : option RecipeIngredient :=
  find (fun c => String.eqb (itemId c) item) (cost m).

(** [progress.delivered.get(itemId) || 0]. *)
Definition deliveredCount (p : MilestoneProgress) (item : string) : Z :=
  default 0 (delivered p !! item).

(** [unlockMilestone]. *)
Definition unlockMilestone (s : ProgressionSystem) (mid : string)
  : bool * ProgressionSystem :=
  if decide (mid ∈ unlockedMilestones s) then (false, s)
  else
    match findMilestone s mid with
    | None => (false, s)
    | Some milestone =>
        (true,
         mkSystem (milestones s)
           ({[mid]} ∪ unlockedMilestones s)
           (milestoneProgress s)
           (list_to_set (unlockedRecipes milestone) ∪ unlockedRecipeSet s)
           (list_to_set (unlockedBuildings milestone) ∪ unlockedBuildingSet s))
    end.

Definition setProgress (s : ProgressionSystem) (mid : string)
  (p : MilestoneProgress) : ProgressionSystem :=
  mkSystem (milestones s) (unlockedMilestones s)
    (<[mid := p]> (milestoneProgress s))
    (unlockedRecipeSet s) (unlockedBuildingSet s).

(** [cost.every(c => (delivered.get(c.itemId) || 0) >= c.amount)]. *)
Definition allDelivered (m : MilestoneDefinition) (p : MilestoneProgress) : bool :=
  forallb (fun c => amount c <=? deliveredCount p (itemId c)) (cost m).

(** The first step of [deliverToMilestone]: the progress record of the
    milestone, created and registered when there is none yet. *)
Definition ensureProgress (s : ProgressionSystem) (mid : string)
  : MilestoneProgress * ProgressionSystem :=
  match milestoneProgress s !! mid with
  | Some p => (p, s)
  | None => let p := mkProgress mid ∅ false in (p, setProgress s mid p)
  end.

(** [deliverToMilestone]: what was removed from the inventory, and the two
    systems afterwards. *)
Definition deliverToMilestone (s : ProgressionSystem) (mid item : string)
  (n : Z) (inv : InventorySystem) : Z * ProgressionSystem * InventorySystem :=
  match findMilestone s mid with
  | None => (0, s, inv)
  | Some milestone =>
      let progress := (ensureProgress s mid).1 in
      let s := (ensureProgress s mid).2 in
      if isComplete progress then (0, s, inv)
      else
        match findRequirement milestone item with
        | None => (0, s, inv)
        | Some requirement =>
            let alreadyDelivered := deliveredCount progress item in
            let stillNeeded := amount requirement - alreadyDelivered in
            let toDeliver := Z.min n stillNeeded in
            if toDeliver <=? 0 then (0, s, inv)
            else
              (* remove from inventory *)
              let removed := (removeFromPlayer inv item toDeliver).1 in
              let inv := (removeFromPlayer inv item toDeliver).2 in
              let progress :=
                if 0 <? removed
                then mkProgress (milestoneId progress)
                       (<[item := alreadyDelivered + removed]> (delivered progress))
                       (isComplete progress)
                else progress in
              let s := setProgress s mid progress in
              (* check if the milestone is complete *)
              if allDelivered milestone progress then
                let progress :=
                  mkProgress (milestoneId progress) (delivered progress) true in
                let s := setProgress s mid progress in
                (removed, (unlockMilestone s mid).2, inv)
              else (removed, s, inv)
        end
  end.

(** The tally after a delivery that passes the guards. *)
Definition credited (p : MilestoneProgress) (item : string) (removed : Z)
  : MilestoneProgress :=
  if 0 <? removed
  then mkProgress (milestoneId p) (<[item := deliveredCount p item + removed]> (delivered p))
                  (isComplete p)
  else p.

(** The progress record of a milestone, as [deliverToMilestone] would see
    it (a fresh one when none is stored yet). *)
Definition progressOf (s : ProgressionSystem) (mid : string) : MilestoneProgress :=
  default (mkProgress mid ∅ false) (milestoneProgress s !! mid).

(** A milestone that costs nothing, and one that costs 5 iron plates. *)
Definition freeMilestone : MilestoneDefinition :=
  mkMilestone "hub_0" "HUB Upgrade 0" 0 [] ["recipe_plate"] ["smelter"].

Definition plateMilestone : MilestoneDefinition :=
  mkMilestone "hub_1" "HUB Upgrade 1" 1 [mkIngredient "iron_plate" 5]
              ["recipe_rod"] ["constructor"].

Definition startSystem : ProgressionSystem :=
  mkSystem [freeMilestone; plateMilestone] ∅ ∅ ∅ ∅.

Definition pocket : InventorySystem := mkInventory {[ "iron_plate" := 3 ]}.

Definition fullPocket : InventorySystem := mkInventory {[ "iron_plate" := 8 ]}.

(** ** The rest of the inventory and progression interface *)

(** [playerHas]. *)
Definition playerHas (inv : InventorySystem) (item : string) (n : Z) : bool :=
  n <=? getPlayerCount inv item.

(** [isRecipeUnlocked], [isBuildingUnlocked], [isMilestoneUnlocked]. *)
Definition isRecipeUnlocked (s : ProgressionSystem) (recipeId : string) : bool :=
  bool_decide (recipeId ∈ unlockedRecipeSet s).

Definition isBuildingUnlocked (s : ProgressionSystem) (buildingId : string) : bool :=
  bool_decide (buildingId ∈ unlockedBuildingSet s).

Definition isMilestoneUnlocked (s : ProgressionSystem) (mid : string) : bool :=
  bool_decide (mid ∈ unlockedMilestones s).

(** [getAvailableMilestones]: the milestones of a tier not yet unlocked. *)
Definition getAvailableMilestones (s : ProgressionSystem) (t : Z)
  : list MilestoneDefinition :=
  filter (fun m => tier m = t ∧ id m ∉ unlockedMilestones s) (milestones s).

(** ** The space elevator *)

Record SpaceElevatorPhase := mkPhase {
  phase : Z;
  requirements : list RecipeIngredient;
  phase_delivered : gmap string Z;
  phase_isComplete : bool
}.

(** The space elevator side of [ProgressionSystem]: the phases and the
    index of the current one. *)
Record SpaceElevator := mkElevator {
  spaceElevatorPhases : list SpaceElevatorPhase;
  currentPhase : nat
}.

(** The phases [initSpaceElevator] installs. *)
Definition initSpaceElevator : list SpaceElevatorPhase :=
  [ mkPhase 1 [ mkIngredient "Desc_SpaceElevatorPart_1_C" 50 ] ∅ false;
    mkPhase 2 [ mkIngredient "Desc_SpaceElevatorPart_1_C" 1000;
                mkIngredient "Desc_SpaceElevatorPart_2_C" 100;
                mkIngredient "Desc_SpaceElevatorPart_3_C" 1000 ] ∅ false;
    mkPhase 3 [ mkIngredient "Desc_SpaceElevatorPart_1_C" 1000;
                mkIngredient "Desc_SpaceElevatorPart_2_C" 750;
                mkIngredient "Desc_SpaceElevatorPart_3_C" 2500;
                mkIngredient "Desc_SpaceElevatorPart_4_C" 100;
                mkIngredient "Desc_SpaceElevatorPart_5_C" 500 ] ∅ false;
    mkPhase 4 [ mkIngredient "Desc_SpaceElevatorPart_1_C" 2500;
                mkIngredient "Desc_SpaceElevatorPart_2_C" 5000;
                mkIngredient "Desc_SpaceElevatorPart_3_C" 2500;
                mkIngredient "Desc_SpaceElevatorPart_4_C" 1000;
                mkIngredient "Desc_SpaceElevatorPart_5_C" 1250;
                mkIngredient "Desc_SpaceElevatorPart_6_C" 500;
                mkIngredient "Desc_SpaceElevatorPart_7_C" 500;
                mkIngredient "Desc_SpaceElevatorPart_8_C" 100;
                mkIngredient "Desc_SpaceElevatorPart_9_C" 250 ] ∅ false;
    mkPhase 5 [ mkIngredient "Desc_SpaceElevatorPart_1_C" 1000;
                mkIngredient "Desc_SpaceElevatorPart_2_C" 640;
                mkIngredient "Desc_SpaceElevatorPart_3_C" 2500;
                mkIngredient "Desc_SpaceElevatorPart_4_C" 500;
                mkIngredient "Desc_SpaceElevatorPart_5_C" 500;
                mkIngredient "Desc_SpaceElevatorPart_6_C" 250;
                mkIngredient "Desc_SpaceElevatorPart_7_C" 256;
                mkIngredient "Desc_SpaceElevatorPart_8_C" 1100;
                mkIngredient "Desc_SpaceElevatorPart_9_C" 200;
                mkIngredient "Desc_SpaceElevatorPart_10_C" 1000;
                mkIngredient "Desc_SpaceElevatorPart_11_C" 256;
                mkIngredient "Desc_SpaceElevatorPart_12_C" 200 ] ∅ false ].

Definition newElevator : SpaceElevator := mkElevator initSpaceElevator 0.

(** [phase.delivered.get(itemId) || 0]. *)
Definition phaseCount (ph : SpaceElevatorPhase) (item : string) : Z :=
  default 0 (phase_delivered ph !! item).

(** [requirements.every(r => (delivered.get(r.itemId) || 0) >= r.amount)]. *)
Definition phaseDelivered (ph : SpaceElevatorPhase) : bool :=
  forallb (fun r => amount r <=? phaseCount ph (itemId r)) (requirements ph).

(** [deliverToSpaceElevator]: what was removed from the inventory, and the
    elevator and the inventory afterwards. *)
Definition deliverToSpaceElevator (e : SpaceElevator) (item : string) (n : Z)
  (inv : InventorySystem) : Z * SpaceElevator * InventorySystem :=
  match spaceElevatorPhases e !! currentPhase e with
  | None => (0, e, inv)
  | Some ph =>
      if phase_isComplete ph then (0, e, inv)
      else
        match find (fun r => String.eqb (itemId r) item) (requirements ph) with
        | None => (0, e, inv)
        | Some requirement =>
            let alreadyDelivered := phaseCount ph item in
            let stillNeeded := amount requirement - alreadyDelivered in
            let toDeliver := Z.min n stillNeeded in
            if toDeliver <=? 0 then (0, e, inv)
            else
              let removed := (removeFromPlayer inv item toDeliver).1 in
              let inv := (removeFromPlayer inv item toDeliver).2 in
              let ph :=
                if 0 <? removed
                then mkPhase (phase ph) (requirements ph)
                       (<[item := alreadyDelivered + removed]> (phase_delivered ph))
                       (phase_isComplete ph)
                else ph in
              if phaseDelivered ph then
                (removed,
                 mkElevator
                   (<[currentPhase e :=
                        mkPhase (phase ph) (requirements ph) (phase_delivered ph) true]>
                      (spaceElevatorPhases e))
                   (S (currentPhase e)),
                 inv)
              else
                (removed,
                 mkElevator (<[currentPhase e := ph]> (spaceElevatorPhases e))
                            (currentPhase e),
                 inv)
        end
  end.

(** An inventory holding 60 Smart Plating. *)
Definition platingPocket : InventorySystem :=
  mkInventory {[ "Desc_SpaceElevatorPart_1_C" := 60 ]}.

End Progression.

(* ================================================================== *)
(** * Engine: the fixed-step game loop *)
(* ================================================================== *)

Module Engine.

Local Open Scope Q_scope.

(** Simulation tick rate (ticks per second) and tick interval in
    milliseconds (constants.ts). *)
Definition TICK_RATE : Q := 30.
Definition TICK_INTERVAL : Q := 1000 / TICK_RATE.

(** The fields of [Engine] the loop reads and writes; times are in
    milliseconds, the game time in seconds. *)
Record Engine := mkEngine {
  isRunning : bool;
  isPaused : bool;
  gameTime : Q;
  lastTickTime : Q;
  tickAccumulator : Q
}.

(** [start()] at clock reading [now]. *)
Definition start (now : Q) (e : Engine) : Engine :=
  if isRunning e then e
  else mkEngine true (isPaused e) (gameTime e) now (tickAccumulator e).

(** [stop()]. *)
Definition stop (e : Engine) : Engine :=
  mkEngine false (isPaused e) (gameTime e) (lastTickTime e) (tickAccumulator e).

(** [togglePause()]. *)
Definition togglePause (e : Engine) : Engine :=
  mkEngine (isRunning e) (negb (isPaused e)) (gameTime e) (lastTickTime e)
           (tickAccumulator e).

(** [tick(dt)]: the game clock advances (no system is run from here yet). *)
Definition tick (dt : Q) (e : Engine) : Engine :=
  mkEngine (isRunning e) (isPaused e) (gameTime e + dt) (lastTickTime e)
           (tickAccumulator e).

(** The [while] loop of [loop], cut off after [fuel] rounds. *)
Fixpoint drain (fuel : nat) (e : Engine) : Engine :=
  match fuel with
  | O => e
  | S fuel' =>
      if Qle_bool TICK_INTERVAL (tickAccumulator e) then
        let e := tick (TICK_INTERVAL / 1000) e in
        drain fuel'
          (mkEngine (isRunning e) (isPaused e) (gameTime e) (lastTickTime e)
                    (tickAccumulator e - TICK_INTERVAL))
      else e
  end.

(** A number of rounds after which the [while] loop has come to its end. *)
Definition rounds (acc : Q) : nat := Z.to_nat (Qfloor (acc / TICK_INTERVAL)).

(** [loop(currentTime)], up to input handling, rendering and the request
    for the next frame. *)
Definition loop (currentTime : Q) (e : Engine) : Engine :=
  if negb (isRunning e) then e
  else
    let deltaTime := currentTime - lastTickTime e in
    let e := mkEngine (isRunning e) (isPaused e) (gameTime e) currentTime
                      (tickAccumulator e) in
    if negb (isPaused e) then
      let e := mkEngine (isRunning e) (isPaused e) (gameTime e) (lastTickTime e)
                        (tickAccumulator e + deltaTime) in
      drain (rounds (tickAccumulator e)) e
    else e.

(** A running engine with 10 ms left over from the last frame. *)
Definition midFrame : Engine := mkEngine true false 2 1000 10.

End Engine.

(* ================================================================== *)
(** * ChunkGenerator: procedural resource node placement *)
(* ================================================================== *)

Module ChunkGen.

Inductive ResourceType :=
| IronOre | CopperOre | Limestone | Sulfur | Coal | CateriumOre | RawQuartz
| Bauxite | Uranium | SAM | Water | CrudeOil | NitrogenGas.

Inductive NodePurity := Impure | Normal | Pure.

(** Generated resource node. *)
Record GeneratedNode := mkNode {
  position : Grid.GridPosition;
  resourceType : ResourceType;
  purity : NodePurity
}.

(** ** 32-bit operators *)

(** [ToUint32], and the operators [^], [|], [&], [>>>] and [Math.imul],
    which convert their operands to 32-bit integers first. *)
Definition toUint32 (x : Z) : Z := x mod 2 ^ 32.

Definition xor32 (a b : Z) : Z := Z.lxor (Save.toInt32 a) (Save.toInt32 b).
Definition or32 (a b : Z) : Z := Z.lor (Save.toInt32 a) (Save.toInt32 b).
Definition and32 (a b : Z) : Z := Z.land (Save.toInt32 a) (Save.toInt32 b).
Definition ushr (a n : Z) : Z := Z.shiftr (toUint32 a) n.
Definition imul (a b : Z) : Z := Save.toInt32 (Save.toInt32 a * Save.toInt32 b).

(** ** The generator of pseudo-random numbers *)

(** One call of the closure [mulberry32(seed)] returns: the number drawn
    and the seed the closure keeps ([0x6d2b79f5] is 1831565813). *)
Definition mulberry32 (seed : Z) : Q * Z :=
  let seed := seed + 1831565813 in
  let t := seed in
  let t := imul (xor32 t (ushr t 15)) (or32 t 1) in
  let t := xor32 t (t + imul (xor32 t (ushr t 7)) (or32 t 61)) in
  ((inject_Z (ushr (xor32 t (ushr t 14)) 0) / 4294967296)%Q, seed).

(** [chunkSeed]: hash chunk coordinates to a seed ([0xFFFFFFFF] is
    4294967295). *)
Definition chunkSeed (cx cz worldSeed : Z) : Z :=
  let h := worldSeed in
  let h := and32 (xor32 h (cx * 374761393)) 4294967295 in
  let h := and32 (xor32 h (cz * 668265263)) 4294967295 in
  let h := imul h 2654435769 in
  let h := and32 (xor32 h (ushr h 16)) 4294967295 in
  h.

(** ** Weighted choice *)

(** Resource generation weights and purity distribution. *)
Definition RESOURCE_WEIGHTS : list (ResourceType * Q) :=
  [ (IronOre, 30); (CopperOre, 20); (Limestone, 20); (Coal, 15); (Sulfur, 8);
    (CateriumOre, 6); (RawQuartz, 5); (SAM, 5); (Bauxite, 4); (Uranium, 2);
    (CrudeOil, 6); (Water, 10); (NitrogenGas, 3) ]%Q.

Definition PURITY_WEIGHTS : list (NodePurity * Q) :=
  [ (Impure, 30); (Normal, 50); (Pure, 20) ]%Q.

(** [entries.reduce((sum, e) => sum + e.weight, 0)]. *)
Definition totalWeight {A} (entries : list (A * Q)) : Q :=
  foldl (fun sum e => (sum + e.2)%Q) 0%Q entries.

(** The loop of the two weighted picks: the first entry at which the roll,
    lowered by the weights so far, is used up. *)
Fixpoint pickFrom {A} (roll : Q) (entries : list (A * Q)) (fallback : A) : A :=
  match entries with
  | [] => fallback
  | (x, w) :: rest =>
      let roll := (roll - w)%Q in
      if Qle_bool roll 0 then x else pickFrom roll rest fallback
  end.

(** [pickWeightedResource] and [pickWeightedPurity]. *)
Definition pickWeightedResource (seed : Z) : ResourceType * Z :=
  let '(r, seed) := mulberry32 seed in
  (pickFrom (r * totalWeight RESOURCE_WEIGHTS)%Q RESOURCE_WEIGHTS IronOre, seed).

Definition pickWeightedPurity (seed : Z) : NodePurity * Z :=
  let '(r, seed) := mulberry32 seed in
  (pickFrom (r * totalWeight PURITY_WEIGHTS)%Q PURITY_WEIGHTS Normal, seed).

(** ** Chunks *)

Record ChunkGenerator := mkGen {
  worldSeed : Z;
  generatedChunks : gset string
}.

(** The basic resources of the start area. *)
Definition basics : list ResourceType := [IronOre; CopperOre; Limestone].

(** The [for] loop of [generateChunk]: [n] nodes drawn one after the
    other. *)
Fixpoint generateNodes (n : nat) (cx cz : Z) (isStartArea : bool) (seed : Z)
  : list GeneratedNode :=
  match n with
  | O => []
  | S n' =>
      (* random position within the chunk *)
      let '(r, seed) := mulberry32 seed in
      let localX := Qfloor (r * inject_Z (Grid.CHUNK_SIZE - 4))%Q + 2 in
      let '(r, seed) := mulberry32 seed in
      let localZ := Qfloor (r * inject_Z (Grid.CHUNK_SIZE - 4))%Q + 2 in
      let worldX := cx * Grid.CHUNK_SIZE + localX in
      let worldZ := cz * Grid.CHUNK_SIZE + localZ in
      (* resource type: the start area is biased toward basic resources *)
      let '(resourceType, seed) :=
        if isStartArea then
          let '(r, seed) := mulberry32 seed in
          if Qlt_bool r (6 # 10)%Q then
            let '(r, seed) := mulberry32 seed in
            (nth (Z.to_nat (Qfloor (r * inject_Z (Z.of_nat (length basics)))%Q))
                 basics IronOre, seed)
          else pickWeightedResource seed
        else pickWeightedResource seed in
      let '(purity, seed) := pickWeightedPurity seed in
      mkNode (Grid.mkPos worldX 0 worldZ) resourceType purity
        :: generateNodes n' cx cz isStartArea seed
  end.

(** [generateChunk]: the resource nodes of a chunk, generated once.
    ([Math.sqrt(cx * cx + cz * cz) < 3] is [cx * cx + cz * cz < 9] on
    integers.) *)
Definition generateChunk (g : ChunkGenerator) (cx cz : Z)
  : list GeneratedNode * ChunkGenerator :=
  let key := Grid.chunkKey cx cz in
  if decide (key ∈ generatedChunks g) then ([], g)
  else
    let g := mkGen (worldSeed g) ({[key]} ∪ generatedChunks g) in
    let seed := chunkSeed cx cz (worldSeed g) in
    let '(r, seed) := mulberry32 seed in
    let nodeCount := Qfloor (r * 3)%Q in
    let isStartArea := cx * cx + cz * cz <? 9 in
    if (cx =? 0) && (cz =? 0) then
      ([ mkNode (Grid.mkPos 5 0 5) IronOre Normal;
         mkNode (Grid.mkPos 20 0 10) CopperOre Normal;
         mkNode (Grid.mkPos 15 0 22) Limestone Normal ], g)
    else (generateNodes (Z.to_nat nodeCount) cx cz isStartArea seed, g).

(** [isGenerated]. *)
Definition isGenerated (g : ChunkGenerator) (cx cz : Z) : bool :=
  bool_decide (Grid.chunkKey cx cz ∈ generatedChunks g).

(** A generator with world seed 12345 that has generated nothing yet. *)
Definition freshGenerator : ChunkGenerator := mkGen 12345 ∅.

End ChunkGen.

(* ================================================================== *)
(** * Properties of the grid *)
(* ================================================================== *)

Module GridProofs.

Import Grid.

Example chunkKey_text : chunkKey (-1) 12 = "-1,12".
Proof. by vm_compute. Qed.

Lemma floor_div_spec (a : Z) : floor_div a CHUNK_SIZE = a / CHUNK_SIZE.
Proof.
  unfold floor_div, CHUNK_SIZE, Qfloor, Qdiv, Qmult, Qinv, inject_Z; simpl.
  now rewrite Z.mul_1_r.
Qed.

(** The adjusted remainder of [positionToLocal] is the mathematical
    modulus. *)
Lemma local_axis_spec (a : Z) :
  (if Z.rem a CHUNK_SIZE <? 0 then Z.rem a CHUNK_SIZE + CHUNK_SIZE
   else Z.rem a CHUNK_SIZE) = a mod CHUNK_SIZE.
Proof.
  unfold CHUNK_SIZE.
  pose proof (Z.quot_rem' a 32) as Hqr.
  pose proof (Z.div_mod a 32 ltac:(lia)) as Hdm.
  pose proof (Z.mod_pos_bound a 32 ltac:(lia)) as Hb.
  destruct (Z.ltb_spec (Z.rem a 32) 0) as [Hneg | Hpos].
  - assert (a <= 0) as Ha.
    { destruct (Z.le_gt_cases a 0) as [|Hgt]; [assumption|].
      pose proof (Z.rem_bound_pos_pos a 32 ltac:(lia) ltac:(lia)); lia. }
    pose proof (Z.rem_bound_pos_neg a 32 ltac:(lia) Ha) as Hr.
    apply (Z.mod_unique_pos a 32 (a ÷ 32 - 1)); lia.
  - assert (0 <= Z.rem a 32 < 32) as Hr.
    { destruct (Z.le_gt_cases a 0) as [Ha|Hgt].
      - pose proof (Z.rem_bound_pos_neg a 32 ltac:(lia) Ha); lia.
      - pose proof (Z.rem_bound_pos_pos a 32 ltac:(lia) ltac:(lia)); lia. }
    apply (Z.mod_unique_pos a 32 (a ÷ 32)); lia.
Qed.

Lemma positionToLocal_spec (pos : GridPosition) :
  positionToLocal pos = (pos_x pos mod CHUNK_SIZE, pos_z pos mod CHUNK_SIZE).
Proof.
  unfold positionToLocal; cbv zeta.
  now rewrite !local_axis_spec.
Qed.

(** ** Arrays *)

Lemma array_get_set_eq {A} (l : list (option A)) i v :
  array_get (array_set l i v) i = v.
Proof.
  unfold array_get, array_set. case_decide as Hlt.
  - by rewrite list_lookup_insert_eq.
  - rewrite lookup_app_r by lia.
    rewrite lookup_app_r by (rewrite length_replicate; lia).
    rewrite length_replicate.
    replace (i - length l - (i - length l))%nat with 0%nat by lia.
    reflexivity.
Qed.

Lemma array_get_set_ne {A} (l : list (option A)) i j v :
  i ≠ j → array_get (array_set l i v) j = array_get l j.
Proof.
  intros Hne. unfold array_get, array_set. case_decide as Hlt.
  - by rewrite list_lookup_insert_ne.
  - destruct (decide (j < length l)%nat) as [Hj | Hj].
    + by rewrite lookup_app_l.
    + rewrite (lookup_ge_None_2 l j) by lia. simpl.
      rewrite lookup_app_r by lia.
      destruct (decide (j - length l < i - length l)%nat) as [Hin | Hout].
      * rewrite lookup_app_l by (rewrite length_replicate; lia).
        by rewrite lookup_replicate_2.
      * rewrite lookup_app_r by (rewrite length_replicate; lia).
        rewrite length_replicate.
        rewrite lookup_ge_None_2; [done | simpl; lia].
Qed.

(** ** Reading after writing *)

Lemma getCellAt_alt g pos :
  getCellAt g pos =
  match chunks g !! keyOf pos with
  | None => None
  | Some chunk =>
      getCell chunk (fst (positionToLocal pos)) (snd (positionToLocal pos))
              (pos_y pos)
  end.
Proof.
  unfold getCellAt, keyOf. by destruct (positionToLocal pos).
Qed.

Lemma writeCell_alt cell g pos :
  chunks (writeCell cell g pos) =
  <[keyOf pos :=
      setCell (default (newChunk (cx (positionToChunk pos)) (cz (positionToChunk pos)))
                       (chunks g !! keyOf pos))
              (fst (positionToLocal pos)) (snd (positionToLocal pos))
              (pos_y pos) cell]> (chunks g).
Proof.
  unfold writeCell, keyOf, getChunk. destruct (positionToLocal pos) as [lx lz].
  simpl. destruct (chunks g !! chunkKey _ _) eqn:E; simpl.
  - reflexivity.
  - by rewrite insert_insert_eq.
Qed.

Lemma getCell_setCell c lx lz y cell lx' lz' y' :
  getCell (setCell c lx lz y cell) lx' lz' y' =
  if decide (y = y') then
    if decide (localIndex lx lz = localIndex lx' lz') then cell
    else array_get (getFloor c y) (localIndex lx' lz')
  else getCell c lx' lz' y'.
Proof.
  unfold getCell, setCell; simpl.
  destruct (decide (y = y')) as [-> | Hy].
  - rewrite lookup_insert_eq.
    destruct (decide (localIndex lx lz = localIndex lx' lz')) as [-> | Hi].
    + apply array_get_set_eq.
    + by apply array_get_set_ne.
  - by rewrite lookup_insert_ne.
Qed.

Lemma array_get_newFloor i : array_get newFloor i = None.
Proof.
  unfold array_get, newFloor.
  destruct (replicate _ _ !! i) as [o|] eqn:E; [| done].
  by apply lookup_replicate in E as [-> _].
Qed.

(** Writing a cell changes what is read at its own location and nothing
    else. *)
Lemma getCellAt_writeCell cell g p q :
  getCellAt (writeCell cell g p) q =
  if decide (slotOf p = slotOf q) then cell else getCellAt g q.
Proof.
  rewrite !getCellAt_alt, writeCell_alt. unfold slotOf.
  destruct (decide (keyOf p = keyOf q)) as [Hk | Hk].
  - rewrite <- Hk, lookup_insert_eq, getCell_setCell.
    destruct (decide (pos_y p = pos_y q)) as [Hy | Hy].
    + destruct (decide (localIndex _ _ = localIndex _ _)) as [Hi | Hi].
      * rewrite decide_True; [done | by rewrite Hy, Hi].
      * rewrite decide_False by congruence.
        unfold getFloor, getCell. rewrite Hy.
        destruct (chunks g !! keyOf p) as [c|]; simpl.
        -- destruct (cells c !! pos_y q); [done | apply array_get_newFloor].
        -- rewrite lookup_empty. apply array_get_newFloor.
    + rewrite decide_False by congruence.
      destruct (chunks g !! keyOf p) as [c|]; simpl; [done|].
      unfold getCell; simpl. by rewrite lookup_empty.
  - rewrite lookup_insert_ne by done.
    rewrite decide_False by congruence. done.
Qed.

Lemma foldl_writeCell_keeps c g l q :
  getCellAt g q = Some c →
  getCellAt (foldl (writeCell (Some c)) g l) q = Some c.
Proof.
  revert g. induction l as [| p l IH]; intros g Hq; simpl; [done|].
  apply IH. rewrite getCellAt_writeCell. by case_decide.
Qed.

Lemma foldl_writeCell_covers c g l q :
  q ∈ l → getCellAt (foldl (writeCell (Some c)) g l) q = Some c.
Proof.
  revert g. induction l as [| p l IH]; intros g Hin.
  - by apply elem_of_nil in Hin.
  - apply elem_of_cons in Hin as [-> | Hin]; simpl.
    + apply foldl_writeCell_keeps. rewrite getCellAt_writeCell.
      by rewrite decide_True.
    + by apply IH.
Qed.

Lemma offset_in_footprint pos sizeX sizeZ dx dz :
  (dx < sizeX)%nat → (dz < sizeZ)%nat →
  offset pos dx dz ∈ footprint pos sizeX sizeZ.
Proof.
  intros Hx Hz. unfold footprint.
  apply list_elem_of_bind. exists dx. split.
  - apply list_elem_of_fmap. exists dz. split; [done|].
    apply elem_of_seq. lia.
  - apply elem_of_seq. lia.
Qed.

Lemma isOccupied_getCellAt g pos :
  isOccupied g pos = match getCellAt g pos with Some _ => true | None => false end.
Proof.
  unfold isOccupied, getCellAt. destruct (positionToLocal pos).
  by destruct (chunks g !! _).
Qed.

Lemma canPlace_false g pos sizeX sizeZ dx dz :
  (dx < sizeX)%nat → (dz < sizeZ)%nat →
  isOccupied g (offset pos dx dz) = true →
  canPlace g pos sizeX sizeZ = false.
Proof.
  intros Hx Hz Hocc. unfold canPlace.
  apply not_true_is_false. intros Hall.
  rewrite forallb_forall in Hall.
  specialize (Hall dx). rewrite in_seq in Hall.
  specialize (Hall ltac:(lia)).
  rewrite forallb_forall in Hall.
  specialize (Hall dz). rewrite in_seq in Hall.
  specialize (Hall ltac:(lia)).
  by rewrite Hocc in Hall.
Qed.

(** C8: for every grid position with integer coordinates, negative ones
    included, the chunk coordinate of [positionToChunk] is the floor of
    [axis / CHUNK_SIZE] (rounded toward minus infinity, so that the cell
    at -1 lies in chunk -1, not 0), the local coordinate of
    [positionToLocal] is [axis mod CHUNK_SIZE] and lies in
    [0, CHUNK_SIZE), and chunk * CHUNK_SIZE + local gives the coordinate
    back, on both axes. *)
Theorem positionToChunk_positionToLocal_spec (pos : GridPosition) :
  let c := positionToChunk pos in
  let l := positionToLocal pos in
  (* x axis *)
  (cx c = pos_x pos / CHUNK_SIZE ∧
   CHUNK_SIZE * cx c <= pos_x pos < CHUNK_SIZE * cx c + CHUNK_SIZE ∧
   fst l = pos_x pos mod CHUNK_SIZE ∧
   0 <= fst l < CHUNK_SIZE ∧
   cx c * CHUNK_SIZE + fst l = pos_x pos) ∧
  (* z axis *)
  (cz c = pos_z pos / CHUNK_SIZE ∧
   CHUNK_SIZE * cz c <= pos_z pos < CHUNK_SIZE * cz c + CHUNK_SIZE ∧
   snd l = pos_z pos mod CHUNK_SIZE ∧
   0 <= snd l < CHUNK_SIZE ∧
   cz c * CHUNK_SIZE + snd l = pos_z pos) ∧
  (* flooring, not truncation *)
  positionToChunk (mkPos (-1) 0 (-33)) = mkChunkCoord (-1) (-2) ∧
  positionToLocal (mkPos (-1) 0 (-33)) = (31, 31).
Proof.
  cbv zeta. rewrite positionToLocal_spec. unfold positionToChunk; simpl.
  rewrite !floor_div_spec. unfold CHUNK_SIZE.
  pose proof (Z.div_mod (pos_x pos) 32 ltac:(lia)).
  pose proof (Z.mod_pos_bound (pos_x pos) 32 ltac:(lia)).
  pose proof (Z.div_mod (pos_z pos) 32 ltac:(lia)).
  pose proof (Z.mod_pos_bound (pos_z pos) 32 ltac:(lia)).
  repeat split; try lia.
Qed.

(** C2 (as the code has it): if any covered cell on the floor is occupied,
    [placeEntity] returns false and leaves the grid as it was; if it
    succeeds, every cell of the footprint afterwards reports the placed
    entity through [getCellAt], and, when the footprint is not empty
    (sizeX >= 1 and sizeZ >= 1), [canPlace] on the same footprint returns
    false. *)
Theorem placeEntity_spec (g : GridManager) (pos : GridPosition)
  (sizeX sizeZ : nat) (eid : nat) (bt : string) (rot : Rotation) :
  ((∃ dx dz, (dx < sizeX)%nat ∧ (dz < sizeZ)%nat ∧
             isOccupied g (offset pos dx dz) = true) →
   placeEntity g pos sizeX sizeZ eid bt rot = (false, g)) ∧
  (∀ g', placeEntity g pos sizeX sizeZ eid bt rot = (true, g') →
     (∀ dx dz, (dx < sizeX)%nat → (dz < sizeZ)%nat →
        getCellAt g' (offset pos dx dz) = Some (mkCell eid bt rot) ∧
        entityId <$> getCellAt g' (offset pos dx dz) = Some eid) ∧
     ((0 < sizeX)%nat → (0 < sizeZ)%nat → canPlace g' pos sizeX sizeZ = false)).
Proof.
  split.
  - intros (dx & dz & Hx & Hz & Hocc). unfold placeEntity.
    by rewrite (canPlace_false g pos sizeX sizeZ dx dz).
  - intros g' Hplace. unfold placeEntity in Hplace.
    destruct (canPlace g pos sizeX sizeZ); simpl in Hplace; [| done].
    injection Hplace as <-.
    assert (∀ dx dz, (dx < sizeX)%nat → (dz < sizeZ)%nat →
              getCellAt (foldl (writeCell (Some (mkCell eid bt rot))) g
                           (footprint pos sizeX sizeZ)) (offset pos dx dz)
              = Some (mkCell eid bt rot)) as Hcells.
    { intros dx dz Hx Hz. apply foldl_writeCell_covers.
      by apply offset_in_footprint. }
    split.
    + intros dx dz Hx Hz. rewrite (Hcells dx dz Hx Hz). done.
    + intros Hx Hz. apply (canPlace_false _ pos sizeX sizeZ 0 0 Hx Hz).
      rewrite isOccupied_getCellAt. by rewrite (Hcells 0%nat 0%nat Hx Hz).
Qed.

Lemma placeEntity_spec_witness :
  placeEntity emptyGrid (mkPos (-1) 0 31) 2 2 7 "smelter" East
    = (true, snd (placeEntity emptyGrid (mkPos (-1) 0 31) 2 2 7 "smelter" East)) ∧
  entityId <$> getCellAt (snd (placeEntity emptyGrid (mkPos (-1) 0 31) 2 2 7 "smelter" East))
                 (offset (mkPos (-1) 0 31) 1 1) = Some 7%nat ∧
  canPlace (snd (placeEntity emptyGrid (mkPos (-1) 0 31) 2 2 7 "smelter" East))
           (mkPos (-1) 0 31) 2 2 = false.
Proof.
  assert (placeEntity emptyGrid (mkPos (-1) 0 31) 2 2 7 "smelter" East
          = (true, snd (placeEntity emptyGrid (mkPos (-1) 0 31) 2 2 7 "smelter" East)))
    as Hok by (vm_compute; reflexivity).
  destruct (placeEntity_spec emptyGrid (mkPos (-1) 0 31) 2 2 7 "smelter" East)
    as [_ Hsucc].
  destruct (Hsucc _ Hok) as [Hcells Hcan].
  split; [exact Hok|]. split.
  - exact (proj2 (Hcells 1%nat 1%nat ltac:(lia) ltac:(lia))).
  - apply Hcan; lia.
Defined.

(** C2 as stated fails on an empty footprint: placing a building of size
    0 x 1 succeeds, and [canPlace] on the same footprint still returns
    true. *)
Lemma placeEntity_empty_footprint_counterexample :
  ¬ (∀ (g : GridManager) (pos : GridPosition) (sizeX sizeZ : nat)
       (eid : nat) (bt : string) (rot : Rotation) (g' : GridManager),
       placeEntity g pos sizeX sizeZ eid bt rot = (true, g') →
       canPlace g' pos sizeX sizeZ = false).
Proof.
  intros H.
  specialize (H emptyGrid (mkPos 0 0 0) 0%nat 1%nat 7%nat "smelter" North emptyGrid
                eq_refl).
  discriminate H.
Qed.

End GridProofs.

(* ================================================================== *)
(** * Properties of the power grid *)
(* ================================================================== *)

Module PowerProofs.

Import Power.
Local Open Scope Q_scope.

Lemma Qlt_bool_iff (a b : Q) : Qlt_bool a b = true ↔ a < b.
Proof.
  unfold Qlt_bool. rewrite negb_true_iff.
  split.
  - intros H. apply Qnot_le_lt. intros Hle.
    apply Qle_bool_iff in Hle. congruence.
  - intros H. apply not_true_is_false. intros Hle.
    apply Qle_bool_iff in Hle. apply (Qlt_not_le _ _ H Hle).
Qed.

Lemma Qlt_bool_false (a b : Q) : Qlt_bool a b = false ↔ b <= a.
Proof.
  unfold Qlt_bool. rewrite negb_false_iff. apply Qle_bool_iff.
Qed.

Lemma Qle_bool_false (a b : Q) : Qle_bool a b = false ↔ b < a.
Proof.
  split.
  - intros H. apply Qnot_le_lt. intros Hle.
    apply Qle_bool_iff in Hle. congruence.
  - intros H. apply not_true_is_false. intros Hle.
    apply Qle_bool_iff in Hle. apply (Qlt_not_le _ _ H Hle).
Qed.

(** The last loop of [update] settles every network by itself. *)
Lemma settleAll_networks dt w nets :
  fst (settleAll dt w nets) = map (settle dt) nets.
Proof.
  revert w. induction nets as [| net rest IH]; intros w; simpl; [done|].
  specialize (IH (updateStorageEntities w (settle dt net))).
  destruct (settleAll dt _ rest) as [rest' w'']. simpl in *. by rewrite IH.
Qed.

Lemma update_networks w dt s :
  networks (fst (update w dt s)) = map (settle dt) (tally w (networks s)).
Proof.
  unfold update. rewrite <- (settleAll_networks dt w).
  by destruct (settleAll dt w _).
Qed.

Lemma update_lookup w dt s i net :
  tally w (networks s) !! i = Some net →
  networks (fst (update w dt s)) !! i = Some (settle dt net).
Proof.
  intros H. rewrite update_networks.
  change (map (settle dt)) with (fmap (M:=list) (settle dt)).
  by rewrite list_lookup_fmap, H.
Qed.

(** [settle] leaves the identity and the tallied statistics alone. *)
Lemma settle_fields dt net :
  id (settle dt net) = id net ∧
  totalProduction (settle dt net) = totalProduction net ∧
  totalConsumption (settle dt net) = totalConsumption net ∧
  totalStorage (settle dt net) = totalStorage net ∧
  alienExtractorCount (settle dt net) = alienExtractorCount net.
Proof.
  unfold settle; cbv zeta.
  destruct (Qlt_bool _ 0); [destruct (Qle_bool _ _)|]; done.
Qed.

(** What [settle] does to the charge and the blackout flag, by cases on
    the surplus. *)
Lemma settle_cases dt net :
  let net' := settle dt net in
  let surplus := effectiveProduction net' - totalConsumption net' in
  (0 <= surplus →
     isBlackedOut net' = false ∧
     storedEnergy net' ==
       Qmin (storedEnergy net + surplus * (dt / 3600)) (totalStorage net')) ∧
  (surplus < 0 →
     let deficit := Qabs surplus * (dt / 3600) in
     (deficit <= storedEnergy net →
        isBlackedOut net' = false ∧
        storedEnergy net' == storedEnergy net - deficit) ∧
     (storedEnergy net < deficit →
        isBlackedOut net' = true ∧ storedEnergy net' == 0)).
Proof.
  unfold settle. cbv zeta.
  set (eff := totalProduction net + _).
  destruct (Qlt_bool (eff - totalConsumption net) 0) eqn:Hs.
  - apply Qlt_bool_iff in Hs.
    destruct (Qle_bool _ (storedEnergy net)) eqn:Hd.
    + apply Qle_bool_iff in Hd. simpl. split.
      * intros Hge. exfalso. apply (Qlt_not_le _ _ Hs Hge).
      * intros _. split; [done|].
        intros Hlt. exfalso. apply (Qlt_not_le _ _ Hlt Hd).
    + apply Qle_bool_false in Hd. simpl. split.
      * intros Hge. exfalso. apply (Qlt_not_le _ _ Hs Hge).
      * intros _. split; [| done].
        intros Hle. exfalso. apply (Qlt_not_le _ _ Hd Hle).
  - apply Qlt_bool_false in Hs. simpl. split.
    + done.
    + intros Hlt. exfalso. apply (Qlt_not_le _ _ Hlt Hs).
Qed.

(** Within one tick the charge stays in range when it enters the blackout
    check in range and time does not run backwards. *)
Lemma settle_keeps_charge_in_range dt net :
  0 <= dt → 0 <= storedEnergy net <= totalStorage net →
  0 <= storedEnergy (settle dt net) <= totalStorage (settle dt net).
Proof.
  intros Hdt [Hlo Hhi].
  assert (0 <= dt / 3600) as Hstep.
  { unfold Qdiv. apply Qmult_le_0_compat; [done | by vm_compute]. }
  unfold settle. cbv zeta.
  set (eff := totalProduction net + _).
  pose proof (Qabs_nonneg (eff - totalConsumption net)) as Habs.
  pose proof (Qmult_le_0_compat _ _ Habs Hstep) as Hdef.
  set (deficit := Qabs (eff - totalConsumption net) * (dt / 3600)) in *.
  destruct (Qlt_bool (eff - totalConsumption net) 0) eqn:Hs.
  - destruct (Qle_bool deficit (storedEnergy net)) eqn:Hd;
      cbn [storedEnergy totalStorage].
    + apply Qle_bool_iff in Hd. split; lra.
    + split; lra.
  - apply Qlt_bool_false in Hs. cbn [storedEnergy totalStorage].
    pose proof (Qmult_le_0_compat _ _ Hs Hstep) as Hsur.
    set (surplusMWh := (eff - totalConsumption net) * (dt / 3600)) in *.
    split.
    + apply Q.min_glb; lra.
    + apply Q.le_min_r.
Qed.

(** C1: on every tick of [update] with time step [dt], every network that
    enters the blackout check as [net] leaves the tick as [net'] with:
    surplus >= 0 gives no blackout and the charge raised by
    surplus * (dt / 3600), clamped to the capacity; surplus < 0 with
    deficit = |surplus| * (dt / 3600) gives, when the charge covers the
    deficit, no blackout and the charge lowered by exactly the deficit,
    and otherwise a blackout with the charge at 0.  In particular
    100 MW against 150 MW with no charge over 60 s ends blacked out with
    the charge still 0. *)
Theorem update_blackout_and_storage (w : World) (dt : Q) (s : PowerGridSystem)
  (i : nat) (net : PowerNetwork) :
  tally w (networks s) !! i = Some net →
  ∃ net', networks (fst (update w dt s)) !! i = Some net' ∧
    id net' = id net ∧
    let surplus := effectiveProduction net' - totalConsumption net' in
    (0 <= surplus →
       isBlackedOut net' = false ∧
       storedEnergy net' ==
         Qmin (storedEnergy net + surplus * (dt / 3600)) (totalStorage net')) ∧
    (surplus < 0 →
       let deficit := Qabs surplus * (dt / 3600) in
       (deficit <= storedEnergy net →
          isBlackedOut net' = false ∧
          storedEnergy net' == storedEnergy net - deficit) ∧
       (storedEnergy net < deficit →
          isBlackedOut net' = true ∧ storedEnergy net' == 0)) ∧
    (effectiveProduction net' == 100 → totalConsumption net' == 150 →
     storedEnergy net == 0 → dt == 60 →
       isBlackedOut net' = true ∧ storedEnergy net' == 0).
Proof.
  intros Hnet. exists (settle dt net).
  split; [by apply update_lookup|].
  split; [apply settle_fields|].
  pose proof (settle_cases dt net) as [Hpos Hneg]. cbv zeta in *.
  split; [exact Hpos|]. split; [exact Hneg|].
  intros Heff Hcons Hsto Hdt.
  assert (effectiveProduction (settle dt net) - totalConsumption (settle dt net)
          == -50) as Hsur by (rewrite Heff, Hcons; reflexivity).
  destruct Hneg as [_ Hout]; [rewrite Hsur; by vm_compute|].
  apply Hout. rewrite Hsto, Hsur, Hdt. by vm_compute.
Qed.

Lemma update_blackout_and_storage_witness :
  ∃ net', networks (fst (update blackoutWorld 60 oneNetwork)) !! 0%nat = Some net' ∧
          isBlackedOut net' = true ∧ storedEnergy net' == 0.
Proof.
  destruct (update_blackout_and_storage blackoutWorld 60 oneNetwork 0
              (mkNet 1 (0 + 100) (0 + 150) 0 0 0 0 false ∅) eq_refl)
    as (net' & Hlook & _ & _ & Hneg & _).
  exists net'. split; [exact Hlook|].
  rewrite update_lookup with (net := mkNet 1 (0 + 100) (0 + 150) 0 0 0 0 false ∅)
    in Hlook by reflexivity.
  injection Hlook as <-.
  destruct Hneg as [_ Hout]; [by vm_compute|].
  apply Hout. by vm_compute.
Defined.

(** C7: for every network, [update] computes
    effectiveProduction = totalProduction + bonusFraction * baseProduction * n
    where n is the number of alien extractors, baseProduction is
    totalProduction less their flat output of n * 500 MW, and
    bonusFraction is 0.3: the n contributions add up, they do not
    compound.  In particular two generators totalling 1000 MW and two
    extractors give totalProduction 2000 MW and
    effectiveProduction 2000 + 0.30 * 1000 * 2 = 2600 MW. *)
Theorem update_effective_production :
  (∀ (w : World) (dt : Q) (s : PowerGridSystem) (i : nat) (net : PowerNetwork),
     tally w (networks s) !! i = Some net →
     ∃ net', networks (fst (update w dt s)) !! i = Some net' ∧
       totalProduction net' = totalProduction net ∧
       alienExtractorCount net' = alienExtractorCount net ∧
       let n := Qnat (alienExtractorCount net') in
       let baseProduction := totalProduction net' - n * ALIEN_ENERGY_BASE_MW in
       effectiveProduction net' ==
         totalProduction net' + ALIEN_ENERGY_BONUS * baseProduction * n) ∧
  ALIEN_ENERGY_BONUS == 3 / 10 ∧ ALIEN_ENERGY_BASE_MW == 500 ∧
  (∃ net', networks (fst (update bonusWorld 1 oneNetwork)) = [net'] ∧
     alienExtractorCount net' = 2%nat ∧
     totalProduction net' == 2000 ∧
     effectiveProduction net' == 2600).
Proof.
  split; [| split; [| split]].
  - intros w dt s i net Hnet. exists (settle dt net).
    split; [by apply update_lookup|].
    split; [apply settle_fields|]. split; [apply settle_fields|].
    unfold settle; cbv zeta.
    destruct (Qlt_bool _ 0); [destruct (Qle_bool _ _)|];
      cbn [effectiveProduction totalProduction alienExtractorCount]; ring.
  - reflexivity.
  - reflexivity.
  - rewrite update_networks. eexists. split; [reflexivity|].
    split; [reflexivity|]. split; by vm_compute.
Qed.

Lemma update_effective_production_witness :
  ∃ net', networks (fst (update bonusWorld 1 oneNetwork)) !! 0%nat = Some net' ∧
          effectiveProduction net' == 2600.
Proof.
  destruct update_effective_production as (Hall & _).
  destruct (Hall bonusWorld 1 oneNetwork 0%nat
              (mkNet 1 (0 + 600 + 400 + 500 + 500) 0 0 0 2 0 false ∅) eq_refl)
    as (net' & Hlook & Htotal & Hcount & Heff).
  exists net'. split; [exact Hlook|].
  cbv zeta in Heff. rewrite Heff, Htotal, Hcount. by vm_compute.
Defined.

(** C3 fails on the code.  [update] resets the other statistics of a
    network but not its stored energy, and then adds the charge of every
    storage entity to it: from the second tick on, the charge that
    [updateStorageEntities] wrote back is counted twice.  With one 100 MWh
    accumulator holding 60 MWh and a 36 MW load, two ticks of one second
    leave the network with 119.97 MWh stored against a capacity of
    100 MWh. *)
Theorem stored_energy_exceeds_capacity :
  ∃ net, networks (fst (ticks 2 1 oneNetwork drainWorld)) = [net] ∧
    totalStorage net == 100 ∧
    storedEnergy net == 11997 # 100 ∧
    isBlackedOut net = false ∧
    ¬ wellFormed net.
Proof.
  eexists. split; [by vm_compute|].
  split; [by vm_compute|]. split; [by vm_compute|]. split; [by vm_compute|].
  intros (_ & _ & _ & Hhi). revert Hhi. by vm_compute.
Qed.

(** The first tick alone keeps the charge in range on the same input. *)
Lemma stored_energy_first_tick :
  ∃ net, networks (fst (ticks 1 1 oneNetwork drainWorld)) = [net] ∧
    totalStorage net == 100 ∧ storedEnergy net == 5999 # 100.
Proof.
  eexists. split; [by vm_compute|]. split; by vm_compute.
Qed.

End PowerProofs.

(* ================================================================== *)
(** * Properties of production *)
(* ================================================================== *)

Module ProductionProofs.

Import Production.
Local Open Scope Q_scope.

Lemma upd_same {A} (arr : nat → A) e v : upd arr e v e = v.
Proof. unfold upd. by rewrite Nat.eqb_refl. Qed.

Lemma upd_other {A} (arr : nat → A) e e' v : e ≠ e' → upd arr e' v e = arr e.
Proof.
  intros Hne. unfold upd. destruct (Nat.eqb_spec e e'); [done | reflexivity].
Qed.

(** ** Buffers *)

Lemma consumeIngredients_outputs b r :
  outputSlots (consumeIngredients b r) = outputSlots b.
Proof.
  unfold consumeIngredients. generalize (ingredients r) as l.
  intros l. revert b. induction l as [| ing l IH]; intros b; simpl; [done|].
  by rewrite IH.
Qed.

Lemma produceOutputs_inputs b r :
  inputSlots (produceOutputs b r) = inputSlots b.
Proof.
  unfold produceOutputs. generalize (products r) as l.
  intros l. revert b. induction l as [| prod l IH]; intros b; simpl; [done|].
  by rewrite IH.
Qed.

(** Consuming takes the whole required quantity of every item. *)
Lemma consumeIngredients_count b r item :
  slotCount (inputSlots (consumeIngredients b r)) item =
  (slotCount (inputSlots b) item - required r item)%Z.
Proof.
  unfold consumeIngredients, required. generalize (ingredients r) as l.
  intros l. revert b. induction l as [| ing l IH]; intros b; simpl; [lia|].
  rewrite IH; simpl. unfold slotCount at 1.
  destruct (String.eqb_spec (itemId ing) item) as [-> | Hne].
  - rewrite lookup_insert_eq; simpl. lia.
  - rewrite lookup_insert_ne by done. fold (slotCount (inputSlots b) item). lia.
Qed.



(** An entity without a stored buffer: reads see an empty buffer, writes
    are lost. *)
Lemma getBuffer_None st eid :
  buffers st !! eid = None → getBuffer st eid = emptyBuffer.
Proof. intros H. unfold getBuffer. by rewrite H. Qed.

Lemma putBuffer_None st eid b :
  buffers st !! eid = None → putBuffer st eid b = st.
Proof. intros H. unfold putBuffer. by rewrite H. Qed.


(** [addToInput] on a machine without a stored buffer: the amount is
    measured against an empty buffer and nothing is kept. *)
Lemma addToInput_None st eid item n :
  buffers st !! eid = None →
  addToInput st eid item n = (Z.min n 100, st).
Proof.
  intros Hb. unfold addToInput. rewrite getBuffer_None by done.
  rewrite !putBuffer_None by done. simpl. unfold slotCount.
  rewrite lookup_empty. simpl. rewrite Z.sub_0_r.
  by destruct (_ <? _)%Z.
Qed.

Lemma Qeq_bool_false_iff (a b : Q) : Qeq_bool a b = false ↔ ¬ a == b.
Proof.
  split; [apply Qeq_bool_neq|].
  intros H. apply not_true_is_false. intros Heq. by apply Qeq_bool_iff in Heq.
Qed.

(** Case analysis along the branches of [processProducer]. *)
Ltac crunch :=
  unfold inputCount, outputCount in *;
  unfold processProducer, putBuffer in *; unfold getBuffer in *;
  repeat case_match; simplify_eq/=;
  rewrite ?upd_same, ?upd_other by done;
  rewrite ?lookup_insert_eq; rewrite ?lookup_insert_ne by done; simpl;
  rewrite ?produceOutputs_inputs;
  repeat match goal with
         | H : buffers _ !! _ = _ |- _ => rewrite H in *
         | H : negb _ = true |- _ => apply negb_true_iff in H
         | H : negb _ = false |- _ => apply negb_false_iff in H
         end;
  simpl in *; try done; try congruence.

Section WithPow.

Variable pow : Q → Q → Q.

(** ** One step of one producer *)

(** Mid-cycle, nothing is taken from the input side. *)
Lemma processProducer_mid_cycle dt st eid item :
  ¬ Producer_progress st eid == 0 →
  inputCount (processProducer pow dt st eid) eid item = inputCount st eid item.
Proof.
  intros Hp. apply Qeq_bool_false_iff in Hp. crunch.
Qed.


(** Processing one producer leaves the others alone. *)
Lemma processProducer_frame dt st e' e :
  e ≠ e' →
  recipes (processProducer pow dt st e') = recipes st ∧
  Producer_recipeId (processProducer pow dt st e') = Producer_recipeId st ∧
  Producer_progress (processProducer pow dt st e') e = Producer_progress st e ∧
  buffers (processProducer pow dt st e') !! e = buffers st !! e.
Proof.
  intros Hne. crunch.
Qed.

(** In any step the input side is either untouched or debited with the
    whole recipe, the latter only at the start of a cycle of a machine
    that has a stored buffer. *)
Lemma processProducer_all_or_nothing dt st eid :
  (∀ item, inputCount (processProducer pow dt st eid) eid item =
           inputCount st eid item) ∨
  (Producer_progress st eid == 0 ∧ is_Some (buffers st !! eid) ∧
   ∃ r, recipes st !! Producer_recipeId st eid = Some r ∧
        ∀ item, inputCount (processProducer pow dt st eid) eid item =
                (inputCount st eid item - required r item)%Z).
Proof.
  destruct (Qeq_dec (Producer_progress st eid) 0) as [Hp | Hp];
    [| left; intros item; by apply processProducer_mid_cycle].
  destruct (buffers st !! eid) as [b|] eqn:Hb.
  2:{ left. intros item. crunch. }
  destruct (recipes st !! Producer_recipeId st eid) as [r|] eqn:Hr.
  2:{ left. intros item. crunch. }
  destruct (canOutput b r) eqn:Hout.
  2:{ left. intros item. crunch. }
  destruct (hasIngredients b r) eqn:Hhas.
  2:{ left. intros item. apply Qeq_bool_iff in Hp. crunch. }
  right. split; [done|]. split; [by eexists|]. exists r. split; [done|].
  intros item. apply Qeq_bool_iff in Hp. crunch.
  all: apply consumeIngredients_count.
Qed.

(** ** No buffer is ever stored *)





End WithPow.



(** C10: a network id that is not in the networks map is never reported
    as blacked out, so [update] of the production system hands a
    producer whose consumer component names such a network to
    [processProducer], whether it needs power or not. *)
Theorem unknown_network_is_not_blacked_out
  (powerGrid : Power.PowerGridSystem) (networkId : nat) :
  Power.getNetwork powerGrid networkId = None →
  Power.isEntityBlackedOut powerGrid networkId = false ∧
  ∀ (pow : Q → Q → Q) (dt : Q) (st : State) (eid : nat),
    PowerConsumer_networkId st eid = networkId →
    updateProducer pow powerGrid dt st eid = processProducer pow dt st eid.
Proof.
  intros Hnone.
  assert (Power.isEntityBlackedOut powerGrid networkId = false) as Hgate.
  { unfold Power.isEntityBlackedOut. by rewrite Hnone. }
  split; [exact Hgate|].
  intros pow dt st eid Hid. unfold updateProducer.
  by rewrite Hid, Hgate, andb_false_r.
Qed.

Lemma unknown_network_is_not_blacked_out_witness :
  Power.isEntityBlackedOut Power.oneNetwork 9 = false ∧
  update linearPow 1 Power.oneNetwork fed = processProducer linearPow 1 fed 4 ∧
  Producer_isActive (update linearPow 1 Power.oneNetwork fed) 4 = 1%nat.
Proof.
  destruct (unknown_network_is_not_blacked_out Power.oneNetwork 9 eq_refl)
    as [Hgate Hrun].
  split; [exact Hgate|].
  unfold update; simpl.
  rewrite (Hrun linearPow 1 fed 4%nat eq_refl).
  split; reflexivity.
Defined.

End ProductionProofs.

(* ================================================================== *)
(** * Properties of the command history *)
(* ================================================================== *)

Module HistoryProofs.

Import History.

Section WithHost.

Context {Host : Type}.

Implicit Types (h : CommandHistory Host) (c : Command Host) (env : Env Host).

Lemma pop_nil {A} : pop (@nil A) = None.
Proof. reflexivity. Qed.

Lemma pop_snoc {A} (l : list A) (x : A) : pop (l ++ [x]) = Some (x, l).
Proof.
  unfold pop. by rewrite last_snoc, removelast_last.
Qed.

Lemma pop_None {A} (l : list A) : pop l = None → l = [].
Proof.
  destruct l as [| x l] using rev_ind; [done|].
  by rewrite pop_snoc.
Qed.

Lemma execute_success h c env env' :
  cmd_execute c env = (true, env') →
  execute h c env = (true, mkHistory (pushed (undoStack h) c) [], env').
Proof. intros H. unfold execute. by rewrite H. Qed.

Lemma execute_failure h c env env' :
  cmd_execute c env = (false, env') → execute h c env = (false, h, env').
Proof. intros H. unfold execute. by rewrite H. Qed.

Lemma pushed_top u c : ∃ u', pushed u c = u' ++ [c].
Proof.
  unfold pushed, shift. destruct (_ <? _)%nat eqn:Hlen.
  - destruct u as [| x u]; simpl.
    + apply Nat.ltb_lt in Hlen. unfold maxHistory in Hlen. simpl in Hlen. lia.
    + by exists u.
  - by exists u.
Qed.

Lemma pushed_length u c : (length (pushed u c) ≤ S (length u))%nat.
Proof.
  unfold pushed, shift. destruct (_ <? _)%nat.
  - destruct u; simpl; rewrite ?length_app; simpl; lia.
  - rewrite length_app; simpl; lia.
Qed.

Lemma undo_empty h env : undoStack h = [] → undo h env = (false, h, env).
Proof. intros H. unfold undo. by rewrite H. Qed.

Lemma undo_top u r c env :
  undo (mkHistory (u ++ [c]) r) env
  = (true, mkHistory u (r ++ [c]), cmd_undo c env).
Proof. unfold undo; simpl. by rewrite pop_snoc. Qed.

Lemma redo_empty h env : redoStack h = [] → redo h env = (false, h, env).
Proof. intros H. unfold redo. by rewrite H. Qed.

Lemma redo_top u r c env ok env' :
  cmd_execute c env = (ok, env') →
  redo (mkHistory u (r ++ [c])) env
  = (ok, mkHistory (if ok then u ++ [c] else u) r, env').
Proof.
  intros H. unfold redo; simpl. rewrite pop_snoc, H. by destruct ok.
Qed.

(** ** Undoing more often than commands were executed *)

Lemma execute_length h c env :
  (length (undoStack (execute h c env).1.2) ≤ S (length (undoStack h)))%nat.
Proof.
  unfold execute. destruct (cmd_execute c env) as [[] env']; simpl.
  - apply pushed_length.
  - lia.
Qed.

Lemma executeAll_length cs h env :
  (length (undoStack (executeAll cs h env).1) ≤ length (undoStack h) + length cs)%nat.
Proof.
  unfold executeAll. revert h env.
  induction cs as [| c cs IH]; intros h env; simpl; [lia|].
  pose proof (execute_length h c env) as Hlen.
  destruct (execute h c env) as [[ok h'] env']; simpl in *.
  specialize (IH h' env'). lia.
Qed.

Lemma undoTimes_exhausts n h env :
  (length (undoStack h) ≤ n)%nat → undoStack (undoTimes n h env).1 = [].
Proof.
  revert h env. induction n as [| n IH]; intros h env Hlen; simpl.
  - destruct (undoStack h); [done | simpl in Hlen; lia].
  - destruct h as [u r]. destruct u as [| c u] using rev_ind.
    + rewrite undo_empty by done. by apply IH; simpl; lia.
    + rewrite undo_top. apply IH; simpl in *.
      rewrite length_app in Hlen; simpl in Hlen. lia.
Qed.

(** C5: [execute] pushes the command on the undo
    stack and clears the redo stack when, and only when, the command's
    apply succeeds, and a failed command leaves both stacks as they
    were; [undo] on an empty undo stack is a no-op that returns false;
    [redo] pops the most recently undone command and re-applies it, and
    when that fails the command lands on neither stack.  Executing A,
    then B, then [undo] and [redo] brings back the history and the world
    exactly as they were after B, for a command B whose undo reverts its
    application (a reversible action).  From a fresh history,
    once [undo] has been called as often as commands were executed,
    every further call is a no-op that returns false. *)
Theorem history_spec :
  (∀ h c env env',
     cmd_execute c env = (true, env') →
     execute h c env = (true, mkHistory (pushed (undoStack h) c) [], env') ∧
     ∃ u', pushed (undoStack h) c = u' ++ [c]) ∧
  (∀ h c env env',
     cmd_execute c env = (false, env') → execute h c env = (false, h, env')) ∧
  (∀ h env, undoStack h = [] → undo h env = (false, h, env)) ∧
  (∀ u r c env,
     undo (mkHistory (u ++ [c]) r) env
     = (true, mkHistory u (r ++ [c]), cmd_undo c env)) ∧
  (∀ u r c env ok env',
     cmd_execute c env = (ok, env') →
     redo (mkHistory u (r ++ [c])) env
     = (ok, mkHistory (if ok then u ++ [c] else u) r, env')) ∧
  (∀ h A B env okA h1 env1 h2 env2,
     execute h A env = (okA, h1, env1) →
     execute h1 B env1 = (true, h2, env2) →
     cmd_undo B env2 = env1 →
     ∃ h3 env3, undo h2 env2 = (true, h3, env3) ∧
                redo h3 env3 = (true, h2, env2)) ∧
  (∀ cs env n,
     (length cs ≤ n)%nat →
     let after := executeAll cs emptyHistory env in
     let drained := undoTimes n after.1 after.2 in
     undo drained.1 drained.2 = (false, drained.1, drained.2)).
Proof.
  split; [| split; [| split; [| split; [| split; [| split]]]]].
  - intros h c env env' H. split; [by apply execute_success | apply pushed_top].
  - apply execute_failure.
  - apply undo_empty.
  - apply undo_top.
  - apply redo_top.
  - intros h A B env okA h1 env1 h2 env2 _ HB Hback.
    unfold execute in HB.
    destruct (cmd_execute B env1) as [[] env2'] eqn:Hfirst; [| done].
    injection HB as <- <-.
    destruct (pushed_top (undoStack h1) B) as [u' Hu]. fold (pushed (undoStack h1) B).
    rewrite Hu.
    exists (mkHistory u' [B]), (cmd_undo B env2').
    split; [apply (undo_top u' [] B env2')|].
    rewrite Hback.
    apply (redo_top u' [] B env1 true env2' Hfirst).
  - intros cs env n Hn; cbv zeta.
    apply undo_empty, undoTimes_exhausts.
    pose proof (executeAll_length cs emptyHistory env) as Hlen.
    simpl in Hlen. lia.
Qed.

End WithHost.

Lemma history_spec_witness :
  (∃ h3 env3,
     undo afterC.1.2 afterC.2 = (true, h3, env3) ∧
     redo h3 env3 = (true, afterC.1.2, afterC.2)) ∧
  undo (undoTimes 3 afterC.1.2 afterC.2).1 (undoTimes 3 afterC.1.2 afterC.2).2
  = (false, (undoTimes 3 afterC.1.2 afterC.2).1, (undoTimes 3 afterC.1.2 afterC.2).2).
Proof.
  destruct (@history_spec Budget) as (_ & _ & _ & _ & _ & Hredo & Hextra).
  split.
  - exact (Hredo emptyHistory cmdA cmdC envRich
             afterA.1.1 afterA.1.2 afterA.2 afterC.1.2 afterC.2
             ltac:(vm_compute; reflexivity)
             ltac:(vm_compute; reflexivity)
             ltac:(vm_compute; reflexivity)).
  - exact (Hextra [cmdA; cmdC] envRich 3%nat ltac:(simpl; lia)).
Defined.

End HistoryProofs.

(* ================================================================== *)
(** * Properties of loading a save *)
(* ================================================================== *)

Module SaveProofs.

Import Save.

Section WithJSON.

Variable stringify : SaveData → string.
Variable parse : string → option SaveData.
Variable stringifyMeta : Z → Z → Z → string.
Variable parseMetaLastSlot : string → option Z.

Local Abbreviation validate := (validate stringify parse).
Local Abbreviation loadLoop := (loadLoop stringify parse).
Local Abbreviation load := (load stringify parse parseMetaLastSlot).
Local Abbreviation startSlot := (startSlot parseMetaLastSlot).

(** The hash is the 32-bit string hash in base 16 (96354 for "abc"), and
    a negative hash keeps its sign. *)
Example computeChecksum_abc : computeChecksum "abc" = "17862".
Proof. by vm_compute. Qed.

Example computeChecksum_negative :
  computeChecksum "satisfactory" = "-361fd886" ∧
  computeChecksum "polygenelubricants" = "-80000000".
Proof. split; by vm_compute. Qed.

Lemma setChecksum_restore (d : SaveData) :
  setChecksum (checksum d) (setChecksum "" d) = d.
Proof. by destruct d. Qed.

(** A slot validates exactly when it holds a non-empty text that parses
    to a record whose stored checksum is the checksum of its serialised
    form with the checksum field cleared. *)
Lemma validate_Some st slot d :
  validate st slot = Some d ↔
  ∃ json, slotStore st !! slot = Some json ∧ json ≠ "" ∧ parse json = Some d ∧
          checksum d = computeChecksum (stringify (setChecksum "" d)).
Proof.
  unfold Save.validate, truthy. split.
  - destruct (slotStore st !! slot) as [json|] eqn:Hjson; [| done].
    destruct (String.eqb_spec json "") as [-> | Hne]; simpl; [done|].
    destruct (parse json) as [data|] eqn:Hparse; [| done].
    destruct (String.eqb_spec (checksum data)
                (computeChecksum (stringify (setChecksum "" data)))) as [Heq | Hneq];
      [| done].
    rewrite setChecksum_restore. intros [= <-]. by exists json.
  - intros (json & -> & Hne & -> & Hsum).
    destruct (String.eqb_spec json "") as [-> | _]; [done|]. simpl.
    rewrite <- Hsum, String.eqb_refl. by rewrite setChecksum_restore.
Qed.

(** A record whose stored checksum differs from the recomputed one does
    not validate. *)
Lemma validate_mismatch st slot json d :
  slotStore st !! slot = Some json → parse json = Some d →
  checksum d ≠ computeChecksum (stringify (setChecksum "" d)) →
  validate st slot = None.
Proof.
  intros Hjson Hparse Hneq.
  destruct (validate st slot) as [d'|] eqn:Hv; [| done].
  apply validate_Some in Hv as (json' & Hjson' & _ & Hparse' & Hsum).
  congruence.
Qed.

Lemma slotAt_mod start i :
  0 <= start < MAX_SAVE_SLOTS → 0 <= i < MAX_SAVE_SLOTS →
  slotAt start i = (start - i) mod MAX_SAVE_SLOTS.
Proof.
  unfold slotAt, MAX_SAVE_SLOTS. intros Hs Hi.
  rewrite Z.rem_mod_nonneg by lia.
  replace (start - i + 5) with (start - i + 1 * 5) by lia.
  apply Z_mod_plus_full.
Qed.

Lemma next_slot_mod slot :
  0 <= slot → Z.rem (slot + 1) MAX_SAVE_SLOTS = (slot + 1) mod MAX_SAVE_SLOTS.
Proof. intros H. unfold MAX_SAVE_SLOTS. apply Z.rem_mod_nonneg; lia. Qed.

(** The rounds of the loop visit every slot once, newest first. *)
Lemma rounds_cover start slot :
  0 <= start < MAX_SAVE_SLOTS → 0 <= slot < MAX_SAVE_SLOTS →
  ∃ i, 0 <= i < MAX_SAVE_SLOTS ∧ slotAt start i = slot.
Proof.
  intros Hs Hslot. exists ((start - slot) mod MAX_SAVE_SLOTS).
  pose proof (Z.mod_pos_bound (start - slot) MAX_SAVE_SLOTS ltac:(done)) as Hb.
  split; [exact Hb|].
  rewrite slotAt_mod by done. unfold MAX_SAVE_SLOTS in *.
  rewrite Zminus_mod_idemp_r.
  replace (start - (start - slot)) with slot by lia.
  apply Z.mod_small. lia.
Qed.

Lemma loadLoop_none st start rounds m :
  (∀ i, i ∈ rounds → validate st (slotAt start i) = None) →
  loadLoop st start rounds m = (None, m).
Proof.
  induction rounds as [| i rounds IH]; intros Hnone; simpl; [done|].
  rewrite (Hnone i) by apply list_elem_of_here.
  apply IH. intros j Hj. apply Hnone. by apply list_elem_of_further.
Qed.

Lemma loadLoop_first st start skipped i rest m d :
  (∀ j, j ∈ skipped → validate st (slotAt start j) = None) →
  validate st (slotAt start i) = Some d →
  loadLoop st start (skipped ++ i :: rest) m
  = (Some d, mkManager (Z.rem (slotAt start i + 1) MAX_SAVE_SLOTS)).
Proof.
  induction skipped as [| j skipped IH]; intros Hnone Hd; simpl.
  - by rewrite Hd.
  - rewrite (Hnone j) by apply list_elem_of_here.
    apply IH; [| done]. intros j' Hj'. apply Hnone. by apply list_elem_of_further.
Qed.

Lemma rounds_split k :
  0 <= k < MAX_SAVE_SLOTS →
  seqZ 0 MAX_SAVE_SLOTS = seqZ 0 k ++ k :: seqZ (k + 1) (MAX_SAVE_SLOTS - k - 1).
Proof.
  intros Hk.
  unfold MAX_SAVE_SLOTS in *.
  replace 5 with (k + (5 - k)) at 1 by lia.
  rewrite seqZ_app by lia. f_equal.
  rewrite seqZ_cons by lia. simpl. f_equal; lia.
Qed.

(** ** Saving, then loading *)

Lemma save_slot_in_range now d m st :
  0 <= currentSlot m < MAX_SAVE_SLOTS →
  0 <= currentSlot (save stringify stringifyMeta now d m st).1.2 < MAX_SAVE_SLOTS.
Proof.
  intros Hm. unfold save, MAX_SAVE_SLOTS in *; simpl.
  rewrite Z.rem_mod_nonneg by lia. apply Z.mod_pos_bound. lia.
Qed.

(** When the serialisation reads back what it wrote, a save is what the
    next [load] returns, and the metadata it recorded names a real slot. *)
Lemma save_then_load now d m st :
  (∀ x, parse (stringify x) = Some x) → (∀ x, stringify x ≠ "") →
  (∀ a b c, parseMetaLastSlot (stringifyMeta a b c) = Some a) →
  (∀ a b c, stringifyMeta a b c ≠ "") →
  0 <= currentSlot m < MAX_SAVE_SLOTS →
  startSlot (save stringify stringifyMeta now d m st).2 = currentSlot m ∧
  load (save stringify stringifyMeta now d m st).1.2
       (save stringify stringifyMeta now d m st).2
  = (Some (save stringify stringifyMeta now d m st).1.1,
     (save stringify stringifyMeta now d m st).1.2).
Proof.
  intros Hrt Hne Hmrt Hmne Hm.
  assert (startSlot (save stringify stringifyMeta now d m st).2 = currentSlot m)
    as Hstart.
  { unfold Save.startSlot, save, truthy; simpl. rewrite Hmrt.
    by destruct (String.eqb_spec (stringifyMeta (currentSlot m) now MAX_SAVE_SLOTS) "");
      [destruct (Hmne _ _ _ ltac:(eassumption)) |]. }
  split; [exact Hstart|].
  assert (slotAt (currentSlot m) 0 = currentSlot m) as Hslot.
  { rewrite slotAt_mod by (unfold MAX_SAVE_SLOTS in *; lia).
    rewrite Z.sub_0_r. apply Z.mod_small. lia. }
  assert (validate (save stringify stringifyMeta now d m st).2
                   (slotAt (currentSlot m) 0)
          = Some (save stringify stringifyMeta now d m st).1.1) as Hvalid.
  { apply validate_Some.
    exists (stringify (save stringify stringifyMeta now d m st).1.1).
    rewrite Hslot.
    split; [| split; [apply Hne | split; [apply Hrt | reflexivity]]].
    unfold save; simpl. by rewrite lookup_insert_eq. }
  unfold Save.load. rewrite Hstart.
  change (seqZ 0 MAX_SAVE_SLOTS) with (0 :: seqZ 1 4).
  cbn [Save.loadLoop]. rewrite Hvalid, Hslot. reflexivity.
Qed.

(** C6: [load] starts from the slot recorded in the metadata (slot 0 when
    the metadata is missing or does not parse) and walks backward through
    all MAX_SAVE_SLOTS slots; a slot is accepted exactly when it holds a
    record whose stored checksum equals the checksum recomputed over its
    serialised form with the checksum field cleared; the first accepted
    record is returned and the slot pointer moves just past its slot; a
    slot with a mismatching checksum is skipped for the next older one;
    and when no slot is accepted the result is null (nothing raised) and
    the slot pointer stays. *)
Theorem load_spec (m : SaveManager) (st : Storage) :
  (* where the walk starts *)
  (metaStore st = None → startSlot st = 0) ∧
  (∀ metaJson, metaStore st = Some metaJson →
     parseMetaLastSlot metaJson = None → startSlot st = 0) ∧
  (∀ metaJson lastSlot, metaStore st = Some metaJson → metaJson ≠ "" →
     parseMetaLastSlot metaJson = Some lastSlot → startSlot st = lastSlot) ∧
  (* which slots are accepted *)
  (∀ slot d, validate st slot = Some d ↔
     ∃ json, slotStore st !! slot = Some json ∧ json ≠ "" ∧ parse json = Some d ∧
             checksum d = computeChecksum (stringify (setChecksum "" d))) ∧
  (∀ slot json d, slotStore st !! slot = Some json → parse json = Some d →
     checksum d ≠ computeChecksum (stringify (setChecksum "" d)) →
     validate st slot = None) ∧
  (* the walk: the first accepted slot wins, the pointer moves past it *)
  (∀ k d, 0 <= k < MAX_SAVE_SLOTS →
     (∀ j, 0 <= j < k → validate st (slotAt (startSlot st) j) = None) →
     validate st (slotAt (startSlot st) k) = Some d →
     load m st =
       (Some d, mkManager (Z.rem (slotAt (startSlot st) k + 1) MAX_SAVE_SLOTS))) ∧
  ((∀ i, 0 <= i < MAX_SAVE_SLOTS → validate st (slotAt (startSlot st) i) = None) →
     load m st = (None, m)) ∧
  (* the slots visited, newest first, when the metadata names a slot *)
  (0 <= startSlot st < MAX_SAVE_SLOTS →
   (∀ i, 0 <= i < MAX_SAVE_SLOTS →
      slotAt (startSlot st) i = (startSlot st - i) mod MAX_SAVE_SLOTS ∧
      Z.rem (slotAt (startSlot st) i + 1) MAX_SAVE_SLOTS
        = (slotAt (startSlot st) i + 1) mod MAX_SAVE_SLOTS) ∧
   (∀ slot, 0 <= slot < MAX_SAVE_SLOTS →
      ∃ i, 0 <= i < MAX_SAVE_SLOTS ∧ slotAt (startSlot st) i = slot) ∧
   ((∀ slot, 0 <= slot < MAX_SAVE_SLOTS → validate st slot = None) →
      load m st = (None, m))).
Proof.
  split; [| split; [| split; [| split; [| split; [| split; [| split]]]]]].
  - intros H. unfold Save.startSlot. by rewrite H.
  - intros metaJson H Hparse. unfold Save.startSlot. rewrite H, Hparse.
    by destruct (truthy metaJson).
  - intros metaJson lastSlot H Hne Hparse. unfold Save.startSlot, truthy.
    rewrite H, Hparse. by destruct (String.eqb_spec metaJson "").
  - intros slot d. apply validate_Some.
  - intros slot json d. apply validate_mismatch.
  - intros k d Hk Hskipped Hd. unfold Save.load.
    rewrite (rounds_split k Hk).
    apply loadLoop_first; [| done].
    intros j Hj. apply elem_of_seqZ in Hj. apply Hskipped. lia.
  - intros Hnone. unfold Save.load. apply loadLoop_none.
    intros i Hi. apply elem_of_seqZ in Hi. apply Hnone. lia.
  - intros Hstart. split; [| split].
    + intros i Hi. split; [by apply slotAt_mod|].
      apply next_slot_mod. rewrite slotAt_mod by done.
      apply Z.mod_pos_bound. done.
    + intros slot Hslot. by apply rounds_cover.
    + intros Hnone. unfold Save.load. apply loadLoop_none.
      intros i Hi. apply elem_of_seqZ in Hi.
      rewrite slotAt_mod by lia. apply Hnone.
      apply Z.mod_pos_bound. done.
Qed.

End WithJSON.

Lemma load_spec_witness :
  load toyStringify toyParse toyParseMeta (fst twoSaves) damaged
  = (Some (toyRecord 1), mkManager 1).
Proof.
  destruct (load_spec toyStringify toyParse toyParseMeta (fst twoSaves) damaged)
    as (_ & _ & _ & _ & _ & Hfirst & _).
  apply (Hfirst 1 (toyRecord 1) ltac:(done)).
  - intros j Hj. assert (j = 0) as -> by lia. by vm_compute.
  - by vm_compute.
Defined.

End SaveProofs.

(* ================================================================== *)
(** * Properties of milestone delivery *)
(* ================================================================== *)

Module ProgressionProofs.

Import Progression.

Lemma removeFromPlayer_spec inv item n :
  0 < n → 0 <= getPlayerCount inv item →
  (removeFromPlayer inv item n).1 = Z.min (getPlayerCount inv item) n ∧
  getPlayerCount (removeFromPlayer inv item n).2 item
    = getPlayerCount inv item - (removeFromPlayer inv item n).1.
Proof.
  intros Hn Hc. unfold removeFromPlayer.
  destruct (Z.ltb_spec 0 (Z.min (getPlayerCount inv item) n)) as [Hpos | Hzero];
    simpl; (split; [done|]).
  - destruct (Z.leb_spec (getPlayerCount inv item - Z.min (getPlayerCount inv item) n) 0)
      as [Hle | Hgt]; unfold getPlayerCount in *; simpl.
    + rewrite lookup_delete_eq; simpl. lia.
    + rewrite lookup_insert_eq; simpl. lia.
  - lia.
Qed.

Lemma removeFromPlayer_other inv item n other :
  other ≠ item →
  getPlayerCount (removeFromPlayer inv item n).2 other = getPlayerCount inv other.
Proof.
  intros Hne. unfold removeFromPlayer.
  destruct (0 <? _); [| done].
  destruct (_ <=? 0); unfold getPlayerCount; simpl.
  - by rewrite lookup_delete_ne, lookup_insert_ne.
  - by rewrite lookup_insert_ne.
Qed.

Lemma removeFromPlayer_le inv item n :
  (removeFromPlayer inv item n).1 <= n.
Proof. unfold removeFromPlayer. destruct (0 <? _); simpl; lia. Qed.

Lemma progressOf_setProgress s mid p : progressOf (setProgress s mid p) mid = p.
Proof. unfold progressOf; simpl. by rewrite lookup_insert_eq. Qed.

Lemma progressOf_unlock s mid mid' :
  progressOf (unlockMilestone s mid').2 mid = progressOf s mid.
Proof.
  unfold unlockMilestone, progressOf.
  destruct (decide _); [done|]. by destruct (findMilestone s mid').
Qed.

Lemma ensureProgress_fst s mid : (ensureProgress s mid).1 = progressOf s mid.
Proof.
  unfold ensureProgress, progressOf. by destruct (milestoneProgress s !! mid).
Qed.

Lemma ensureProgress_snd s mid :
  progressOf (ensureProgress s mid).2 mid = progressOf s mid ∧
  unlockedMilestones (ensureProgress s mid).2 = unlockedMilestones s ∧
  milestones (ensureProgress s mid).2 = milestones s.
Proof.
  unfold ensureProgress, progressOf.
  destruct (milestoneProgress s !! mid) eqn:E; simpl.
  - by rewrite E.
  - by rewrite lookup_insert_eq.
Qed.

Lemma unlock_member s mid m :
  findMilestone s mid = Some m → mid ∈ unlockedMilestones (unlockMilestone s mid).2.
Proof.
  intros Hm. unfold unlockMilestone. destruct (decide _) as [Hin | Hout]; [done|].
  rewrite Hm; simpl. set_solver.
Qed.

Lemma allDelivered_Forall m p :
  allDelivered m p = true ↔
  Forall (fun c => amount c <= deliveredCount p (itemId c)) (cost m).
Proof.
  unfold allDelivered. rewrite forallb_forall, Forall_forall.
  split; intros H c Hc.
  - apply list_elem_of_In in Hc. apply Z.leb_le. by apply H.
  - apply Z.leb_le. apply H. by apply list_elem_of_In.
Qed.

Lemma early s mid item a inv :
  (findMilestone s mid = None ∨ isComplete (progressOf s mid) = true ∨
   (∃ m, findMilestone s mid = Some m ∧ findRequirement m item = None)) →
  (deliverToMilestone s mid item a inv).1.1 = 0 ∧
  (deliverToMilestone s mid item a inv).2 = inv ∧
  progressOf (deliverToMilestone s mid item a inv).1.2 mid = progressOf s mid ∧
  unlockedMilestones (deliverToMilestone s mid item a inv).1.2 = unlockedMilestones s.
Proof.
  intros H. unfold deliverToMilestone.
  destruct (findMilestone s mid) as [m|] eqn:Hm; [| done].
  cbv zeta. rewrite ensureProgress_fst.
  destruct (ensureProgress_snd s mid) as (Hp & Hu & _).
  destruct (isComplete (progressOf s mid)) eqn:Hc; [done|].
  destruct H as [H | [H | (m' & Hm' & Hreq)]]; [done | done |].
  injection Hm' as <-. by rewrite Hreq.
Qed.

Lemma late s mid item a inv m req :
  findMilestone s mid = Some m →
  isComplete (progressOf s mid) = false →
  findRequirement m item = Some req →
  let p := progressOf s mid in
  let toDeliver := Z.min a (amount req - deliveredCount p item) in
  let removed := (removeFromPlayer inv item toDeliver).1 in
  let p1 := credited p item removed in
  deliverToMilestone s mid item a inv =
  if toDeliver <=? 0 then (0, (ensureProgress s mid).2, inv)
  else if allDelivered m p1
       then (removed,
             (unlockMilestone
                (setProgress (setProgress (ensureProgress s mid).2 mid p1) mid
                   (mkProgress (milestoneId p1) (delivered p1) true)) mid).2,
             (removeFromPlayer inv item toDeliver).2)
       else (removed, setProgress (ensureProgress s mid).2 mid p1,
             (removeFromPlayer inv item toDeliver).2).
Proof.
  intros Hm Hc Hreq. cbv zeta. unfold deliverToMilestone, credited.
  rewrite Hm. cbv zeta. rewrite ensureProgress_fst, Hc, Hreq. reflexivity.
Qed.

Lemma credited_count p item removed other :
  deliveredCount (credited p item removed) other =
  if decide (other = item) then
    (if 0 <? removed then deliveredCount p item + removed else deliveredCount p item)
  else deliveredCount p other.
Proof.
  unfold credited. destruct (0 <? removed); case_decide; subst; try done.
  - unfold deliveredCount at 1; simpl. by rewrite lookup_insert_eq.
  - unfold deliveredCount at 1; simpl. by rewrite lookup_insert_ne.
Qed.

Lemma credited_isComplete p item removed :
  isComplete (credited p item removed) = isComplete p.
Proof. unfold credited. by destruct (0 <? removed). Qed.

Lemma late_pos s mid item a inv m req :
  findMilestone s mid = Some m →
  isComplete (progressOf s mid) = false →
  findRequirement m item = Some req →
  let p := progressOf s mid in
  let toDeliver := Z.min a (amount req - deliveredCount p item) in
  let removed := (removeFromPlayer inv item toDeliver).1 in
  let p1 := credited p item removed in
  0 < toDeliver →
  deliverToMilestone s mid item a inv =
  (removed,
   (if allDelivered m p1
    then (unlockMilestone
            (setProgress (setProgress (ensureProgress s mid).2 mid p1) mid
               (mkProgress (milestoneId p1) (delivered p1) true)) mid).2
    else setProgress (ensureProgress s mid).2 mid p1),
   (removeFromPlayer inv item toDeliver).2).
Proof.
  intros Hm Hc Hreq. cbv zeta. intros Hpos.
  rewrite (late s mid item a inv m req Hm Hc Hreq). cbv zeta.
  destruct (Z.leb_spec (Z.min a (amount req - deliveredCount (progressOf s mid) item)) 0);
    [lia|].
  by destruct (allDelivered m _).
Qed.

Lemma late_nonpos s mid item a inv m req :
  findMilestone s mid = Some m →
  isComplete (progressOf s mid) = false →
  findRequirement m item = Some req →
  Z.min a (amount req - deliveredCount (progressOf s mid) item) <= 0 →
  deliverToMilestone s mid item a inv = (0, (ensureProgress s mid).2, inv).
Proof.
  intros Hm Hc Hreq Hno.
  rewrite (late s mid item a inv m req Hm Hc Hreq). cbv zeta.
  by destruct (Z.leb_spec (Z.min a (amount req - deliveredCount (progressOf s mid) item)) 0);
    [| lia].
Qed.

(** C9 (as the code has it): [deliverToMilestone] is a total function (no
    call raises).  It returns 0 and changes neither the inventory nor the
    tally when the milestone is unknown, already complete, or the item is
    not part of its cost.  Otherwise, for a requested amount a >= 0, a
    non-negative inventory count and a tally within the requirement, it
    removes from the player inventory exactly
    min(a, amount still needed, amount present) and returns that number;
    the tally of the item grows by what was removed and stays within the
    required amount, and the other tallies do not move.  In a call that
    has something to deliver (min(a, amount still needed) > 0) the
    milestone ends marked complete and unlocked exactly when every cost
    item's tally has reached its required amount; in a call that has
    nothing to deliver nothing changes. *)
Theorem deliverToMilestone_spec s mid item a inv :
  let removed := (deliverToMilestone s mid item a inv).1.1 in
  let s' := (deliverToMilestone s mid item a inv).1.2 in
  let inv' := (deliverToMilestone s mid item a inv).2 in
  let p := progressOf s mid in
  let p' := progressOf s' mid in
  ((findMilestone s mid = None ∨ isComplete p = true ∨
    (∃ m, findMilestone s mid = Some m ∧ findRequirement m item = None)) →
   removed = 0 ∧ inv' = inv ∧ p' = p ∧
   unlockedMilestones s' = unlockedMilestones s) ∧
  (∀ m req,
     findMilestone s mid = Some m → isComplete p = false →
     findRequirement m item = Some req →
     (0 <= a → 0 <= getPlayerCount inv item → deliveredCount p item <= amount req →
        removed = Z.min a (Z.min (amount req - deliveredCount p item)
                                 (getPlayerCount inv item)) ∧
        getPlayerCount inv' item = getPlayerCount inv item - removed ∧
        deliveredCount p' item = deliveredCount p item + removed) ∧
     (∀ other, other ≠ item →
        getPlayerCount inv' other = getPlayerCount inv other ∧
        deliveredCount p' other = deliveredCount p other) ∧
     (deliveredCount p item <= amount req → deliveredCount p' item <= amount req) ∧
     (0 < Z.min a (amount req - deliveredCount p item) →
        (isComplete p' = true ∧ mid ∈ unlockedMilestones s') ↔
        Forall (fun c => amount c <= deliveredCount p' (itemId c)) (cost m)) ∧
     (Z.min a (amount req - deliveredCount p item) <= 0 →
        removed = 0 ∧ inv' = inv ∧ p' = p ∧
        unlockedMilestones s' = unlockedMilestones s)).
Proof.
  cbv zeta. split; [apply early|].
  intros m req Hm Hc Hreq.
  destruct (ensureProgress_snd s mid) as (Hp1 & Hu1 & Hms1).
  destruct (Z.le_gt_cases
              (Z.min a (amount req - deliveredCount (progressOf s mid) item)) 0)
    as [Hno | Hyes].
  - rewrite (late_nonpos s mid item a inv m req Hm Hc Hreq Hno); simpl.
    rewrite Hp1. repeat split; try done; try lia.
  - rewrite (late_pos s mid item a inv m req Hm Hc Hreq Hyes); simpl.
    set (p := progressOf s mid) in *.
    set (toDeliver := Z.min a (amount req - deliveredCount p item)) in *.
    pose proof (removeFromPlayer_le inv item toDeliver) as Hle.
    set (removed := (removeFromPlayer inv item toDeliver).1) in *.
    set (p1 := credited p item removed).
    set (s1 := (ensureProgress s mid).2) in *.
    assert (progressOf
              (if allDelivered m p1
               then (unlockMilestone
                       (setProgress (setProgress s1 mid p1) mid
                          (mkProgress (milestoneId p1) (delivered p1) true)) mid).2
               else setProgress s1 mid p1) mid
            = mkProgress (milestoneId p1) (delivered p1) (allDelivered m p1)) as ->.
    { destruct (allDelivered m p1) eqn:Hall.
      - by rewrite progressOf_unlock, progressOf_setProgress.
      - rewrite progressOf_setProgress.
        pose proof (credited_isComplete p item removed) as Hic. fold p1 in Hic.
        destruct p1 as [i d c]; simpl in *. congruence. }
    change (deliveredCount (mkProgress (milestoneId p1) (delivered p1)
                              (allDelivered m p1)))
      with (deliveredCount p1).
    pose proof (credited_count p item removed item) as Hitem.
    rewrite decide_True in Hitem by done. fold p1 in Hitem.
    split; [| split; [| split; [| split]]].
    + intros Ha Hinv Htally.
      destruct (removeFromPlayer_spec inv item toDeliver Hyes Hinv) as [Hr Hcount].
      fold removed in Hr, Hcount.
      split; [lia|]. split; [exact Hcount|].
      rewrite Hitem. destruct (Z.ltb_spec 0 removed); lia.
    + intros other Hne. split; [by apply removeFromPlayer_other|].
      unfold p1. rewrite credited_count. by rewrite decide_False.
    + intros Htally. rewrite Hitem. destruct (Z.ltb_spec 0 removed); lia.
    + intros _. simpl. rewrite <- allDelivered_Forall.
      change (allDelivered m (mkProgress (milestoneId p1) (delivered p1)
                                (allDelivered m p1)))
        with (allDelivered m p1).
      destruct (allDelivered m p1) eqn:Hall.
      * split; [done|]. intros _. split; [done|].
        apply (unlock_member _ mid m).
        unfold findMilestone in *; simpl. by rewrite Hms1.
      * split; [by intros [? _] | done].
    + intros Hno. lia.
Qed.

Lemma deliverToMilestone_spec_witness :
  (deliverToMilestone startSystem "hub_1" "iron_plate" 4 pocket).1.1 = 3 ∧
  getPlayerCount (deliverToMilestone startSystem "hub_1" "iron_plate" 4 pocket).2
                 "iron_plate" = 0 ∧
  isComplete (progressOf
                (deliverToMilestone startSystem "hub_1" "iron_plate" 9 fullPocket).1.2
                "hub_1") = true ∧
  "hub_1" ∈ unlockedMilestones
              (deliverToMilestone startSystem "hub_1" "iron_plate" 9 fullPocket).1.2.
Proof.
  destruct (deliverToMilestone_spec startSystem "hub_1" "iron_plate" 4 pocket)
    as [_ Hpartial].
  destruct (Hpartial plateMilestone (mkIngredient "iron_plate" 5)
              eq_refl eq_refl eq_refl) as (Hamount & _).
  destruct (Hamount ltac:(lia) ltac:(by vm_compute) ltac:(by vm_compute))
    as (Hremoved & Hleft & _).
  destruct (deliverToMilestone_spec startSystem "hub_1" "iron_plate" 9 fullPocket)
    as [_ Hfull].
  destruct (Hfull plateMilestone (mkIngredient "iron_plate" 5)
              eq_refl eq_refl eq_refl) as (_ & _ & _ & Hdone & _).
  destruct (Hdone ltac:(by vm_compute)) as [_ Hmark].
  destruct Hmark as [Hcomplete Hunlocked].
  { repeat constructor. by vm_compute. }
  split; [exact Hremoved|]. split; [| split].
  - rewrite Hleft, Hremoved. reflexivity.
  - exact Hcomplete.
  - exact Hunlocked.
Defined.

(** C9 as stated fails for a milestone that costs nothing: every cost
    item's tally has reached its requirement (there is none), yet a
    delivery call returns at the lookup of the item in the cost list and
    the milestone is not marked complete. *)
Lemma free_milestone_counterexample :
  ¬ (∀ (s : ProgressionSystem) (mid item : string) (a : Z)
       (inv : InventorySystem) (m : MilestoneDefinition),
       findMilestone s mid = Some m →
       let s' := (deliverToMilestone s mid item a inv).1.2 in
       isComplete (progressOf s' mid) = true ↔
       Forall (fun c => amount c <= deliveredCount (progressOf s' mid) (itemId c))
              (cost m)).
Proof.
  intros H.
  destruct (H startSystem "hub_0" "iron_plate" 1 pocket freeMilestone eq_refl)
    as [_ Hmark].
  specialize (Hmark ltac:(constructor)).
  vm_compute in Hmark. discriminate Hmark.
Qed.

End ProgressionProofs.

(** * More of the grid *)

Module GridExtra.

Import Grid GridProofs.

(** ** Chunk keys *)

Lemma pretty_N_char_commaFree (d : N) : pretty_N_char d ≠ ","%char.
Proof. unfold pretty_N_char. by repeat case_match. Qed.

Lemma pretty_N_go_commaFree (x : N) (s : string) :
  commaFree s → commaFree (pretty_N_go x s).
Proof.
  revert s. induction (N.lt_wf_0 x) as [x _ IH]; intros s Hs.
  destruct (decide (x = 0%N)) as [-> | Hx]; [by rewrite pretty_N_go_0|].
  rewrite pretty_N_go_step by lia.
  apply IH.
  - apply N.div_lt; lia.
  - simpl. split; [apply pretty_N_char_commaFree | done].
Qed.

Lemma pretty_N_commaFree (x : N) : commaFree (pretty x).
Proof.
  unfold pretty, pretty_N. case_decide; [by simpl|].
  by apply pretty_N_go_commaFree.
Qed.

Lemma pretty_Z_commaFree (x : Z) : commaFree (pretty x).
Proof.
  unfold pretty, pretty_Z. destruct x as [| p | p].
  - by simpl.
  - apply pretty_N_commaFree.
  - simpl. split; [done | apply pretty_N_commaFree].
Qed.

Lemma comma_split (s1 t1 s2 t2 : string) :
  commaFree s1 → commaFree s2 →
  s1 +:+ "," +:+ t1 = s2 +:+ "," +:+ t2 → s1 = s2 ∧ t1 = t2.
Proof.
  revert s2. induction s1 as [| c s1 IH]; intros s2 H1 H2 Heq.
  - destruct s2 as [| c2 s2]; simpl in *.
    + by injection Heq.
    + injection Heq as <- _. by destruct H2.
  - destruct s2 as [| c2 s2]; simpl in *.
    + injection Heq as -> _. by destruct H1.
    + injection Heq as <- Heq. destruct H1 as [_ H1], H2 as [_ H2].
      destruct (IH s2 H1 H2 Heq) as [-> ->]. done.
Qed.

Lemma chunkKey_inj a b c d : chunkKey a b = chunkKey c d → a = c ∧ b = d.
Proof.
  unfold chunkKey. intros H.
  apply comma_split in H as [Ha Hb]; try apply pretty_Z_commaFree.
  split; by apply (inj pretty).
Qed.

Lemma slotOf_inj p q : slotOf p = slotOf q → p = q.
Proof.
  unfold slotOf, keyOf. rewrite !positionToLocal_spec. simpl.
  intros [= Hkey Hy Hidx].
  apply chunkKey_inj in Hkey as [Hcx Hcz].
  unfold positionToChunk in Hcx, Hcz; simpl in Hcx, Hcz.
  rewrite !floor_div_spec in Hcx, Hcz.
  unfold localIndex, CHUNK_SIZE in *.
  pose proof (Z.mod_pos_bound (pos_x p) 32 ltac:(lia)).
  pose proof (Z.mod_pos_bound (pos_x q) 32 ltac:(lia)).
  pose proof (Z.mod_pos_bound (pos_z p) 32 ltac:(lia)).
  pose proof (Z.mod_pos_bound (pos_z q) 32 ltac:(lia)).
  pose proof (Z.div_mod (pos_x p) 32 ltac:(lia)).
  pose proof (Z.div_mod (pos_x q) 32 ltac:(lia)).
  pose proof (Z.div_mod (pos_z p) 32 ltac:(lia)).
  pose proof (Z.div_mod (pos_z q) 32 ltac:(lia)).
  apply Z2Nat.inj in Hidx; [| lia | lia].
  destruct p as [px py pz], q as [qx qy qz]; simpl in *.
  f_equal; lia.
Qed.

(** ** Writing and clearing, cell by cell *)

Lemma getCellAt_writeCell_same cell g p : getCellAt (writeCell cell g p) p = cell.
Proof. rewrite getCellAt_writeCell. by rewrite decide_True. Qed.

Lemma getCellAt_writeCell_other cell g p q :
  p ≠ q → getCellAt (writeCell cell g p) q = getCellAt g q.
Proof.
  intros Hne. rewrite getCellAt_writeCell. rewrite decide_False; [done|].
  intros H. by apply slotOf_inj in H.
Qed.

Lemma getCellAt_clearCell g p q :
  getCellAt (clearCell g p) q =
  if decide (slotOf p = slotOf q) then None else getCellAt g q.
Proof.
  unfold clearCell.
  destruct (positionToLocal p) as [lx lz] eqn:Hl.
  destruct (chunks g !! chunkKey (cx (positionToChunk p)) (cz (positionToChunk p)))
    as [chunk|] eqn:Hc.
  - pose proof (getCellAt_writeCell None g p q) as Hw.
    unfold writeCell, getChunk in Hw. rewrite Hl, Hc in Hw. exact Hw.
  - case_decide as Hs; [| done].
    rewrite getCellAt_alt. injection Hs as Hk _ _. rewrite <- Hk.
    unfold keyOf. by rewrite Hc.
Qed.

Lemma getCellAt_clearCell_same g p : getCellAt (clearCell g p) p = None.
Proof. rewrite getCellAt_clearCell. by rewrite decide_True. Qed.

Lemma getCellAt_clearCell_other g p q :
  p ≠ q → getCellAt (clearCell g p) q = getCellAt g q.
Proof.
  intros Hne. rewrite getCellAt_clearCell. rewrite decide_False; [done|].
  intros H. by apply slotOf_inj in H.
Qed.

Lemma foldl_writeCell_outside cell g l q :
  q ∉ l → getCellAt (foldl (writeCell cell) g l) q = getCellAt g q.
Proof.
  revert g. induction l as [| p l IH]; intros g Hout; simpl; [done|].
  apply not_elem_of_cons in Hout as [Hne Hout].
  rewrite IH by done. by apply getCellAt_writeCell_other.
Qed.

Lemma foldl_clearCell_inside g l q :
  q ∈ l → getCellAt (foldl clearCell g l) q = None.
Proof.
  revert g. induction l as [| p l IH] using rev_ind; intros g Hin.
  - by apply elem_of_nil in Hin.
  - rewrite foldl_app; simpl. rewrite getCellAt_clearCell.
    case_decide as Hs; [done|].
    apply IH. apply elem_of_app in Hin as [Hin | Hin]; [done|].
    apply list_elem_of_singleton in Hin. congruence.
Qed.

Lemma foldl_clearCell_outside g l q :
  q ∉ l → getCellAt (foldl clearCell g l) q = getCellAt g q.
Proof.
  revert g. induction l as [| p l IH]; intros g Hout; simpl; [done|].
  apply not_elem_of_cons in Hout as [Hne Hout].
  rewrite IH by done. by apply getCellAt_clearCell_other.
Qed.

Lemma elem_of_footprint pos sizeX sizeZ q :
  q ∈ footprint pos sizeX sizeZ ↔
  ∃ dx dz, (dx < sizeX)%nat ∧ (dz < sizeZ)%nat ∧ q = offset pos dx dz.
Proof.
  split.
  - unfold footprint. rewrite list_elem_of_bind.
    intros (dx & Hq & Hdx). apply list_elem_of_fmap in Hq as (dz & -> & Hdz).
    apply elem_of_seq in Hdx, Hdz. exists dx, dz. repeat split; lia.
  - intros (dx & dz & Hx & Hz & ->). by apply offset_in_footprint.
Qed.

Lemma canPlace_true g pos sizeX sizeZ :
  canPlace g pos sizeX sizeZ = true ↔
  ∀ q, q ∈ footprint pos sizeX sizeZ → getCellAt g q = None.
Proof.
  split.
  - intros Hcan q Hq. apply elem_of_footprint in Hq as (dx & dz & Hx & Hz & ->).
    unfold canPlace in Hcan. rewrite forallb_forall in Hcan.
    specialize (Hcan dx). rewrite in_seq in Hcan. specialize (Hcan ltac:(lia)).
    rewrite forallb_forall in Hcan.
    specialize (Hcan dz). rewrite in_seq in Hcan. specialize (Hcan ltac:(lia)).
    rewrite isOccupied_getCellAt in Hcan.
    by destruct (getCellAt g (offset pos dx dz)).
  - intros Hfree. unfold canPlace. apply forallb_forall. intros dx Hdx.
    apply forallb_forall. intros dz Hdz. apply in_seq in Hdx, Hdz.
    rewrite isOccupied_getCellAt, (Hfree (offset pos dx dz)); [done|].
    apply offset_in_footprint; lia.
Qed.


(** X1: a cell has one address.  The key text of a chunk determines its
    two coordinates, and the chunk coordinate, the local coordinate and
    the floor of a position determine the position: two different
    positions never share a stored cell. *)
Theorem cell_address_unique :
  (∀ a b c d, chunkKey a b = chunkKey c d → a = c ∧ b = d) ∧
  (∀ p q, positionToChunk p = positionToChunk q →
          positionToLocal p = positionToLocal q →
          pos_y p = pos_y q → p = q).
Proof.
  split; [apply chunkKey_inj|].
  intros p q Hc Hl Hy. apply slotOf_inj. unfold slotOf, keyOf.
  by rewrite Hc, Hl, Hy.
Qed.

Lemma cell_address_unique_witness :
  mkPos (-1) 0 31 = mkPos (-1) 0 31.
Proof.
  destruct cell_address_unique as [_ H].
  apply H; reflexivity.
Defined.

(** X2: [placeEntity] never overwrites: whether it succeeds or not, a cell
    that was occupied keeps its content, and every cell outside the
    footprint reads as before. *)
Theorem placeEntity_preserves (g : GridManager) (pos : GridPosition)
  (sizeX sizeZ : nat) (eid : nat) (bt : string) (rot : Rotation)
  (ok : bool) (g' : GridManager) :
  placeEntity g pos sizeX sizeZ eid bt rot = (ok, g') →
  (∀ q c, getCellAt g q = Some c → getCellAt g' q = Some c) ∧
  (∀ q, (∀ dx dz, (dx < sizeX)%nat → (dz < sizeZ)%nat → q ≠ offset pos dx dz) →
        getCellAt g' q = getCellAt g q).
Proof.
  unfold placeEntity. destruct (canPlace g pos sizeX sizeZ) eqn:Hcan; simpl.
  - intros [= <- <-]. split.
    + intros q c Hq. rewrite foldl_writeCell_outside; [done|].
      intros Hin. rewrite (proj1 (canPlace_true _ _ _ _) Hcan q Hin) in Hq. done.
    + intros q Hout. apply foldl_writeCell_outside.
      intros Hin. apply elem_of_footprint in Hin as (dx & dz & Hx & Hz & ->).
      by apply (Hout dx dz).
  - intros [= <- <-]. done.
Qed.

Lemma placeEntity_preserves_witness :
  entityId <$> getCellAt
    (placeEntity smelterGrid (mkPos 1 0 32) 3 1 8 "constructor" North).2
    (mkPos (-1) 0 31) = Some 7%nat.
Proof.
  destruct (placeEntity_preserves smelterGrid (mkPos 1 0 32) 3 1 8 "constructor" North
              _ _ (surjective_pairing _)) as [Hkeep _].
  rewrite (Hkeep (mkPos (-1) 0 31) (mkCell 7 "smelter" East)); [done|].
  by vm_compute.
Defined.

(** X3: [removeEntity] clears exactly the footprint: afterwards every
    covered cell reads empty, every other cell reads as before, and
    [canPlace] on the footprint succeeds. *)
Theorem removeEntity_spec (g : GridManager) (pos : GridPosition)
  (sizeX sizeZ : nat) :
  (∀ dx dz, (dx < sizeX)%nat → (dz < sizeZ)%nat →
     getCellAt (removeEntity g pos sizeX sizeZ) (offset pos dx dz) = None) ∧
  (∀ q, (∀ dx dz, (dx < sizeX)%nat → (dz < sizeZ)%nat → q ≠ offset pos dx dz) →
     getCellAt (removeEntity g pos sizeX sizeZ) q = getCellAt g q) ∧
  canPlace (removeEntity g pos sizeX sizeZ) pos sizeX sizeZ = true.
Proof.
  unfold removeEntity. split; [| split].
  - intros dx dz Hx Hz. apply foldl_clearCell_inside.
    by apply offset_in_footprint.
  - intros q Hout. apply foldl_clearCell_outside.
    intros Hin. apply elem_of_footprint in Hin as (dx & dz & Hx & Hz & ->).
    by apply (Hout dx dz).
  - apply canPlace_true. intros q Hq. by apply foldl_clearCell_inside.
Qed.

Lemma removeEntity_spec_witness :
  getCellAt (removeEntity smelterGrid (mkPos (-1) 0 31) 1 2) (mkPos (-1) 0 32) = None ∧
  getCellAt (removeEntity smelterGrid (mkPos (-1) 0 31) 1 2) (mkPos 0 0 32)
  = getCellAt smelterGrid (mkPos 0 0 32).
Proof.
  destruct (removeEntity_spec smelterGrid (mkPos (-1) 0 31) 1 2) as (Hin & Hout & _).
  split.
  - exact (Hin 0%nat 1%nat ltac:(lia) ltac:(lia)).
  - apply Hout. intros dx dz Hx Hz. unfold offset; simpl. intros [= H1 H2]. lia.
Defined.

(** X4: placing and then removing a building gives back a grid that reads
    the same at every position. *)
Theorem place_then_remove (g : GridManager) (pos : GridPosition)
  (sizeX sizeZ : nat) (eid : nat) (bt : string) (rot : Rotation)
  (g' : GridManager) :
  placeEntity g pos sizeX sizeZ eid bt rot = (true, g') →
  ∀ q, getCellAt (removeEntity g' pos sizeX sizeZ) q = getCellAt g q.
Proof.
  unfold placeEntity. destruct (canPlace g pos sizeX sizeZ) eqn:Hcan; simpl; [| done].
  intros [= <-] q. unfold removeEntity.
  destruct (decide (Exists (fun p => slotOf p = slotOf q) (footprint pos sizeX sizeZ)))
    as [Hin | Hout].
  - apply Exists_exists in Hin as (p & Hp & Hs). apply slotOf_inj in Hs as ->.
    rewrite foldl_clearCell_inside by done.
    symmetry. by apply (proj1 (canPlace_true _ _ _ _) Hcan).
  - assert (q ∉ footprint pos sizeX sizeZ) as Hq.
    { intros Hq. apply Hout. apply Exists_exists. by exists q. }
    rewrite foldl_clearCell_outside by done.
    by apply foldl_writeCell_outside.
Qed.

Lemma place_then_remove_witness :
  getCellAt (removeEntity smelterGrid (mkPos (-1) 0 31) 2 2) (mkPos 0 0 32) = None.
Proof.
  exact (place_then_remove emptyGrid (mkPos (-1) 0 31) 2 2 7 "smelter" East
           smelterGrid ltac:(by vm_compute) (mkPos 0 0 32)).
Defined.

(** X5: buildings do not overlap: after a successful placement, any
    placement whose footprint shares a cell with it fails and leaves the
    grid as it is. *)
Theorem overlapping_placement_fails (g : GridManager)
  (posA : GridPosition) (sxA szA : nat) (eidA : nat) (btA : string) (rotA : Rotation)
  (posB : GridPosition) (sxB szB : nat) (eidB : nat) (btB : string) (rotB : Rotation)
  (g' : GridManager) :
  placeEntity g posA sxA szA eidA btA rotA = (true, g') →
  (∃ dx dz dx' dz', (dx < sxA)%nat ∧ (dz < szA)%nat ∧
                    (dx' < sxB)%nat ∧ (dz' < szB)%nat ∧
                    offset posA dx dz = offset posB dx' dz') →
  placeEntity g' posB sxB szB eidB btB rotB = (false, g').
Proof.
  intros HA (dx & dz & dx' & dz' & Hx & Hz & Hx' & Hz' & Hshare).
  unfold placeEntity in HA.
  destruct (canPlace g posA sxA szA); simpl in HA; [| done].
  injection HA as <-. unfold placeEntity at 1.
  rewrite (canPlace_false _ posB sxB szB dx' dz' Hx' Hz'); [done|].
  rewrite isOccupied_getCellAt, <- Hshare.
  rewrite (foldl_writeCell_covers (mkCell eidA btA rotA)); [done|].
  by apply offset_in_footprint.
Qed.

Lemma overlapping_placement_fails_witness :
  placeEntity smelterGrid (mkPos 0 0 30) 1 3 9 "pole" North = (false, smelterGrid).
Proof.
  apply (overlapping_placement_fails emptyGrid (mkPos (-1) 0 31) 2 2 7 "smelter" East
           (mkPos 0 0 30) 1 3 9 "pole" North smelterGrid).
  - by vm_compute.
  - exists 1%nat, 0%nat, 0%nat, 1%nat. repeat split; lia.
Defined.


(** ** Chunks *)

Lemma isEmpty_floors c :
  isEmpty c = true ↔
  ∀ y fl cell, cells c !! y = Some fl → cell ∈ fl → cell = None.
Proof.
  unfold isEmpty. rewrite forallb_forall. split.
  - intros Hall y fl cell Hfl Hcell.
    assert (In fl (map_to_list (cells c)).*2) as Hin.
    { apply list_elem_of_In, list_elem_of_fmap. exists (y, fl).
      split; [done|]. by apply elem_of_map_to_list. }
    specialize (Hall fl Hin). apply negb_true_iff in Hall.
    destruct cell as [x|]; [| done]. exfalso.
    assert (existsb (fun cell => bool_decide (cell ≠ None)) fl = true) as Hex.
    { apply existsb_exists. exists (Some x). split; [by apply list_elem_of_In|].
      by apply bool_decide_eq_true. }
    congruence.
  - intros Hnone fl Hin.
    apply list_elem_of_In, list_elem_of_fmap in Hin as ([y fl'] & -> & Hin).
    apply elem_of_map_to_list in Hin. simpl.
    apply negb_true_iff, not_true_is_false. intros Hex.
    apply existsb_exists in Hex as (cell & Hcell & Hsome).
    apply bool_decide_eq_true in Hsome. apply Hsome.
    apply (Hnone y fl'); [done | by apply list_elem_of_In].
Qed.

(** X6: [Chunk.isEmpty] answers true exactly when [getCell] finds nothing
    at any array index of any floor; a new chunk is empty, and a chunk that
    has just been given a cell is not. *)
Theorem isEmpty_spec :
  (∀ c, isEmpty c = true ↔
        ∀ lx lz y, 0 <= lz * CHUNK_SIZE + lx → getCell c lx lz y = None) ∧
  (∀ cx cz, isEmpty (newChunk cx cz) = true) ∧
  (∀ c lx lz y cell, 0 <= lz * CHUNK_SIZE + lx →
                     isEmpty (setCell c lx lz y (Some cell)) = false).
Proof.
  assert (∀ c, isEmpty c = true ↔
               ∀ lx lz y, 0 <= lz * CHUNK_SIZE + lx → getCell c lx lz y = None)
    as Hiff.
  { intros c. rewrite isEmpty_floors. split.
    - intros Hnone lx lz y _. unfold getCell, array_get.
      destruct (cells c !! y) as [fl|] eqn:Hfl; [| done].
      destruct (fl !! localIndex lx lz) as [cell|] eqn:Hcell; [| done]. simpl.
      apply (Hnone y fl); [done|]. by apply list_elem_of_lookup_2 in Hcell.
    - intros Hnone y fl cell Hfl Hcell.
      apply list_elem_of_lookup in Hcell as [i Hi].
      specialize (Hnone (Z.of_nat i) 0 y ltac:(lia)).
      unfold getCell, array_get in Hnone. rewrite Hfl in Hnone.
      replace (localIndex (Z.of_nat i) 0) with i in Hnone
        by (unfold localIndex; lia).
      by rewrite Hi in Hnone. }
  split; [exact Hiff|]. split.
  - intros cx cz. apply Hiff. intros lx lz y _. unfold getCell, newChunk; simpl.
    by rewrite lookup_empty.
  - intros c lx lz y cell Hidx. apply not_true_is_false. intros Hempty.
    pose proof (proj1 (Hiff _) Hempty lx lz y Hidx) as Hread.
    rewrite getCell_setCell in Hread. by rewrite !decide_True in Hread.
Qed.

Lemma isEmpty_spec_witness :
  isEmpty (setCell (newChunk 0 0) 31 31 2 (Some (mkCell 7 "smelter" East))) = false.
Proof.
  apply (proj2 (proj2 isEmpty_spec)). vm_compute. discriminate.
Defined.

(** X7: [getActiveLevels] lists, in ascending order and without
    repetition, exactly the floors the chunk has an array for; a floor
    stays listed after its last cell has been cleared. *)
Theorem getActiveLevels_spec (c : Chunk) :
  Sorted Z.le (getActiveLevels c) ∧
  NoDup (getActiveLevels c) ∧
  (∀ y, y ∈ getActiveLevels c ↔ is_Some (cells c !! y)) ∧
  (∀ lx lz y, y ∈ getActiveLevels (setCell c lx lz y None)).
Proof.
  assert (∀ c' y, y ∈ getActiveLevels c' ↔ is_Some (cells c' !! y)) as Hmem.
  { intros c' y. unfold getActiveLevels. rewrite merge_sort_Permutation.
    rewrite list_elem_of_fmap. split.
    - intros ([y' fl] & -> & Hin). apply elem_of_map_to_list in Hin. by exists fl.
    - intros [fl Hfl]. exists (y, fl). split; [done|]. by apply elem_of_map_to_list. }
  split; [| split; [| split]].
  - apply Sorted_merge_sort. apply _.
  - unfold getActiveLevels. rewrite merge_sort_Permutation.
    apply NoDup_fst_map_to_list.
  - apply Hmem.
  - intros lx lz y. apply Hmem. unfold setCell; simpl.
    rewrite lookup_insert_eq. by eexists.
Qed.

(** ** Fetching a square of chunks *)

Lemma getCellAt_getChunk g a b q :
  getCellAt (getChunk g a b).2 q = getCellAt g q.
Proof.
  unfold getChunk. destruct (chunks g !! chunkKey a b) as [c|] eqn:Hc; [done|].
  simpl. rewrite !getCellAt_alt; simpl.
  destruct (decide (chunkKey a b = keyOf q)) as [Hk | Hk].
  - rewrite <- Hk, lookup_insert_eq, Hc. unfold getCell, newChunk; simpl.
    by rewrite lookup_empty.
  - by rewrite lookup_insert_ne.
Qed.

Lemma chunks_getChunk g a b k :
  is_Some (chunks g !! k) ∨ k = chunkKey a b →
  is_Some (chunks (getChunk g a b).2 !! k).
Proof.
  unfold getChunk. destruct (chunks g !! chunkKey a b) as [c|] eqn:Hc; simpl.
  - intros [H | ->]; [done | by eexists].
  - intros [H | ->].
    + destruct (decide (chunkKey a b = k)) as [<- | Hne].
      * rewrite lookup_insert_eq. by eexists.
      * by rewrite lookup_insert_ne.
    + rewrite lookup_insert_eq. by eexists.
Qed.

Lemma fetch_fold (g : GridManager) (acc : list Chunk) (l : list (Z * Z)) :
  let r := foldl (fun acc co =>
                    let '(chunk, g') := getChunk acc.2 co.1 co.2 in
                    (acc.1 ++ [chunk], g'))
                 (acc, g) l in
  length r.1 = (length acc + length l)%nat ∧
  (∀ q, getCellAt r.2 q = getCellAt g q) ∧
  (∀ k, is_Some (chunks g !! k) ∨ (∃ co, co ∈ l ∧ k = chunkKey co.1 co.2) →
        is_Some (chunks r.2 !! k)).
Proof.
  cbv zeta. revert g acc. induction l as [| co l IH]; intros g acc; simpl.
  - split; [lia|]. split; [done|]. intros k [H | (co & Hco & _)]; [done|].
    by apply elem_of_nil in Hco.
  - destruct (getChunk g co.1 co.2) as [chunk g1] eqn:Hget.
    destruct (IH g1 (acc ++ [chunk])) as (Hlen & Hread & Hkeys).
    assert (g1 = (getChunk g co.1 co.2).2) as Hg1 by by rewrite Hget.
    split; [| split].
    + rewrite Hlen, length_app; simpl. lia.
    + intros q. rewrite Hread, Hg1. apply getCellAt_getChunk.
    + intros k Hk. apply Hkeys.
      destruct Hk as [Hk | (co' & Hco' & ->)].
      * left. rewrite Hg1. apply chunks_getChunk. by left.
      * apply elem_of_cons in Hco' as [-> | Hco'].
        -- left. rewrite Hg1. apply chunks_getChunk. by right.
        -- right. by exists co'.
Qed.

Lemma length_rangeCoords cx cz range :
  0 <= range →
  length (rangeCoords cx cz range) = Z.to_nat ((2 * range + 1) * (2 * range + 1)).
Proof.
  intros Hr. unfold rangeCoords.
  assert (∀ l : list Z,
            length (l ≫= fun dx => (fun dz => (cx + dx, cz + dz))
                                      <$> seqZ (- range) (2 * range + 1))
            = (length l * Z.to_nat (2 * range + 1))%nat) as Hbind.
  { induction l as [| x l IH]; [done|]. rewrite bind_cons, length_app, IH.
    rewrite length_fmap, length_seqZ. simpl. lia. }
  rewrite Hbind, length_seqZ. rewrite <- Z2Nat.inj_mul by lia. done.
Qed.

(** X8: [getChunksInRange] with a range r >= 0 returns (2r + 1)^2 chunks,
    leaves every chunk of the square in the map, and does not change what
    any position reads; with a negative range it returns nothing and
    leaves the grid as it is. *)
Theorem getChunksInRange_spec (g : GridManager) (centerCx centerCz range : Z) :
  (0 <= range →
     length (getChunksInRange g centerCx centerCz range).1
       = Z.to_nat ((2 * range + 1) * (2 * range + 1)) ∧
     ∀ dx dz, - range <= dx <= range → - range <= dz <= range →
       is_Some (chunks (getChunksInRange g centerCx centerCz range).2
                  !! chunkKey (centerCx + dx) (centerCz + dz))) ∧
  (∀ q, getCellAt (getChunksInRange g centerCx centerCz range).2 q = getCellAt g q) ∧
  (range < 0 → getChunksInRange g centerCx centerCz range = ([], g)).
Proof.
  unfold getChunksInRange.
  destruct (fetch_fold g [] (rangeCoords centerCx centerCz range))
    as (Hlen & Hread & Hkeys). cbv zeta in *.
  split; [| split].
  - intros Hr. split.
    + rewrite Hlen. simpl. by apply length_rangeCoords.
    + intros dx dz Hdx Hdz. apply Hkeys. right.
      exists (centerCx + dx, centerCz + dz). split; [| done].
      unfold rangeCoords. apply list_elem_of_bind. exists dx. split.
      * apply list_elem_of_fmap. exists dz. split; [done|].
        apply elem_of_seqZ. lia.
      * apply elem_of_seqZ. lia.
  - exact Hread.
  - intros Hneg. unfold rangeCoords.
    assert (seqZ (- range) (2 * range + 1) = []) as ->; [| done].
    unfold seqZ. replace (Z.to_nat (2 * range + 1)) with 0%nat by lia. done.
Qed.

Lemma getChunksInRange_spec_witness :
  length (getChunksInRange smelterGrid 0 0 1).1 = 9%nat ∧
  getChunksInRange smelterGrid 0 0 (-2) = ([], smelterGrid).
Proof.
  destruct (getChunksInRange_spec smelterGrid 0 0 1) as (Hpos & _ & _).
  destruct (getChunksInRange_spec smelterGrid 0 0 (-2)) as (_ & _ & Hneg).
  split.
  - exact (proj1 (Hpos ltac:(lia))).
  - apply Hneg. lia.
Defined.

End GridExtra.

(** * More of the power grid *)

Module PowerExtra.

Import Power PowerProofs.
Local Open Scope Q_scope.

(** ** Looking a network up after an in-place change *)

Lemma lookupNet_withNet k k' f nets :
  (∀ n, id (f n) = id n) →
  lookupNet (withNet k f nets) k' =
  if Nat.eqb k k' then f <$> lookupNet nets k' else lookupNet nets k'.
Proof.
  intros Hid. induction nets as [| n rest IH]; simpl.
  - by destruct (Nat.eqb k k').
  - destruct (Nat.eqb (id n) k) eqn:Hnk; simpl.
    + rewrite Hid. apply Nat.eqb_eq in Hnk. rewrite Hnk.
      destruct (Nat.eqb k k') eqn:Hkk; [done|].
      done.
    + destruct (Nat.eqb (id n) k') eqn:Hnk'.
      * destruct (Nat.eqb k k') eqn:Hkk; [| done].
        apply Nat.eqb_eq in Hkk. subst k'. congruence.
      * apply IH.
Qed.

(** A tally loop seen from one network: the steps of the entities that
    name it are applied in query order, the others are skipped. *)
Lemma lookupNet_foldl (netOf : nat → nat) (f : nat → PowerNetwork → PowerNetwork)
      (l : list nat) (nets : list PowerNetwork) (k : nat) :
  (∀ e n, id (f e n) = id n) →
  lookupNet (foldl (fun nets eid => withNet (netOf eid) (f eid) nets) nets l) k =
  (fun n => foldl (fun n eid => f eid n) n (members netOf k l)) <$> lookupNet nets k.
Proof.
  intros Hid. revert nets. induction l as [| e l IH]; intros nets; simpl.
  - by destruct (lookupNet nets k).
  - rewrite IH, lookupNet_withNet by apply Hid.
    unfold members. rewrite filter_cons.
    destruct (Nat.eqb (netOf e) k) eqn:Hek.
    + apply Nat.eqb_eq in Hek. rewrite decide_True by done.
      by destruct (lookupNet nets k).
    + apply Nat.eqb_neq in Hek. by rewrite decide_False.
Qed.

Lemma lookupNet_map_resetStats nets k :
  lookupNet (map resetStats nets) k = resetStats <$> lookupNet nets k.
Proof.
  induction nets as [| n rest IH]; simpl; [done|].
  by destruct (Nat.eqb (id n) k).
Qed.

(** Folding steps that add [val e] to a measure [m]. *)
Lemma foldl_adds (m : PowerNetwork → Q) (f : nat → PowerNetwork → PowerNetwork)
      (val : nat → Q) (l : list nat) (n : PowerNetwork) :
  (∀ e n, m (f e n) == m n + val e) →
  m (foldl (fun n eid => f eid n) n l) == m n + sumOf val l.
Proof.
  intros Hstep. revert n. induction l as [| e l IH]; intros n; simpl.
  - unfold sumOf; simpl. ring.
  - rewrite IH, Hstep. unfold sumOf; simpl. ring.
Qed.

(** Folding steps that leave a field [m] alone. *)
Lemma foldl_keeps {A} (m : PowerNetwork → A) (f : nat → PowerNetwork → PowerNetwork)
      (l : list nat) (n : PowerNetwork) :
  (∀ e n, m (f e n) = m n) →
  m (foldl (fun n eid => f eid n) n l) = m n.
Proof.
  intros Hstep. revert n. induction l as [| e l IH]; intros n; simpl; [done|].
  by rewrite IH, Hstep.
Qed.

Lemma foldl_counts (l : list nat) (n : PowerNetwork) :
  alienExtractorCount (foldl (fun n (_ : nat) => addExtractor n) n l)
  = (alienExtractorCount n + length l)%nat ∧
  totalProduction (foldl (fun n (_ : nat) => addExtractor n) n l)
  == totalProduction n + Qnat (length l) * ALIEN_ENERGY_BASE_MW.
Proof.
  revert n. induction l as [| e l IH]; intros n; simpl.
  - split; [lia|]. unfold Qnat; simpl. ring.
  - destruct (IH (addExtractor n)) as [Hc Hp]. split.
    + rewrite Hc. simpl. lia.
    + rewrite Hp. simpl. unfold Qnat.
      rewrite !Nat2Z.inj_succ, <- !Z.add_1_r, !inject_Z_plus. ring.
Qed.

(** The network under id [k] when the last loop of [update] starts. *)
Lemma lookupNet_tally w nets k :
  lookupNet (tally w nets) k =
  (fun n =>
     foldl (fun n eid => addStorage (PowerStorage_capacity w eid)
                                    (PowerStorage_stored w eid) n)
       (foldl (fun n eid => addConsumption (PowerConsumer_currentPowerMW w eid) n)
          (foldl (fun n (_ : nat) => addExtractor n)
             (foldl (fun n eid => addProduction (PowerGenerator_currentPowerMW w eid) n)
                (resetStats n)
                (members (PowerGenerator_networkId w) k (generatorQuery w)))
             (members (AlienExtractor_networkId w) k (alienQuery w)))
          (members (PowerConsumer_networkId w) k (consumerQuery w)))
       (members (PowerStorage_networkId w) k (storageQuery w)))
  <$> lookupNet nets k.
Proof.
  unfold tally, tallyStorage, tallyConsumers, tallyAliens, tallyGenerators.
  rewrite (lookupNet_foldl (PowerStorage_networkId w)
             (fun eid => addStorage (PowerStorage_capacity w eid)
                                    (PowerStorage_stored w eid))) by done.
  rewrite (lookupNet_foldl (PowerConsumer_networkId w)
             (fun eid => addConsumption (PowerConsumer_currentPowerMW w eid))) by done.
  rewrite (lookupNet_foldl (AlienExtractor_networkId w)
             (fun _ => addExtractor)) by done.
  rewrite (lookupNet_foldl (PowerGenerator_networkId w)
             (fun eid => addProduction (PowerGenerator_currentPowerMW w eid))) by done.
  rewrite lookupNet_map_resetStats.
  by destruct (lookupNet nets k).
Qed.

(** The statistics of that network, field by field. *)
Lemma tally_fields w nets k net :
  lookupNet nets k = Some net →
  ∃ net', lookupNet (tally w nets) k = Some net' ∧
    id net' = id net ∧
    isBlackedOut net' = isBlackedOut net ∧
    effectiveProduction net' = effectiveProduction net ∧
    entities net' = entities net ∧
    alienExtractorCount net'
      = length (members (AlienExtractor_networkId w) k (alienQuery w)) ∧
    totalProduction net' ==
      sumOf (PowerGenerator_currentPowerMW w)
            (members (PowerGenerator_networkId w) k (generatorQuery w))
      + Qnat (alienExtractorCount net') * ALIEN_ENERGY_BASE_MW ∧
    totalConsumption net' ==
      sumOf (PowerConsumer_currentPowerMW w)
            (members (PowerConsumer_networkId w) k (consumerQuery w)) ∧
    totalStorage net' ==
      sumOf (PowerStorage_capacity w)
            (members (PowerStorage_networkId w) k (storageQuery w)) ∧
    storedEnergy net' ==
      storedEnergy net
      + sumOf (PowerStorage_stored w)
              (members (PowerStorage_networkId w) k (storageQuery w)).
Proof.
  intros Hnet. rewrite lookupNet_tally, Hnet. simpl. eexists. split; [done|].
  set (gens := members (PowerGenerator_networkId w) k (generatorQuery w)).
  set (als := members (AlienExtractor_networkId w) k (alienQuery w)).
  set (cons := members (PowerConsumer_networkId w) k (consumerQuery w)).
  set (stos := members (PowerStorage_networkId w) k (storageQuery w)).
  set (n1 := foldl (fun n eid => addProduction (PowerGenerator_currentPowerMW w eid) n)
                   (resetStats net) gens).
  set (n2 := foldl (fun n (_ : nat) => addExtractor n) n1 als).
  set (n3 := foldl (fun n eid => addConsumption (PowerConsumer_currentPowerMW w eid) n)
                   n2 cons).
  assert (∀ {A} (m : PowerNetwork → A),
            (∀ v n, m (addProduction v n) = m n) →
            (∀ n, m (addExtractor n) = m n) →
            (∀ v n, m (addConsumption v n) = m n) →
            (∀ c s n, m (addStorage c s n) = m n) →
            m (foldl (fun n eid => addStorage (PowerStorage_capacity w eid)
                                              (PowerStorage_stored w eid) n) n3 stos)
            = m (resetStats net)) as Hkeep.
  { intros A m H1 H2 H3 H4.
    rewrite (foldl_keeps m (fun eid => addStorage (PowerStorage_capacity w eid)
                                                  (PowerStorage_stored w eid)))
      by (intros; apply H4).
    unfold n3.
    rewrite (foldl_keeps m (fun eid => addConsumption (PowerConsumer_currentPowerMW w eid)))
      by (intros; apply H3).
    unfold n2. rewrite (foldl_keeps m (fun _ => addExtractor)) by (intros; apply H2).
    unfold n1.
    by rewrite (foldl_keeps m (fun eid => addProduction (PowerGenerator_currentPowerMW w eid)))
      by (intros; apply H1). }
  assert (alienExtractorCount n3 = length als) as Hcount.
  { unfold n3.
    rewrite (foldl_keeps alienExtractorCount
               (fun eid => addConsumption (PowerConsumer_currentPowerMW w eid))) by done.
    unfold n2. rewrite (proj1 (foldl_counts als n1)). unfold n1.
    by rewrite (foldl_keeps alienExtractorCount
                  (fun eid => addProduction (PowerGenerator_currentPowerMW w eid))). }
  split; [by rewrite (Hkeep _ id)|].
  split; [by rewrite (Hkeep _ isBlackedOut)|].
  split; [by rewrite (Hkeep _ effectiveProduction)|].
  split; [by rewrite (Hkeep _ entities)|].
  assert (alienExtractorCount
            (foldl (fun n eid => addStorage (PowerStorage_capacity w eid)
                                            (PowerStorage_stored w eid) n) n3 stos)
          = length als) as Hcount'.
  { by rewrite (foldl_keeps alienExtractorCount
                  (fun eid => addStorage (PowerStorage_capacity w eid)
                                         (PowerStorage_stored w eid))). }
  split; [exact Hcount'|].
  split; [| split; [| split]].
  - rewrite Hcount'.
    rewrite (foldl_keeps totalProduction
               (fun eid => addStorage (PowerStorage_capacity w eid)
                                      (PowerStorage_stored w eid))) by done.
    unfold n3.
    rewrite (foldl_keeps totalProduction
               (fun eid => addConsumption (PowerConsumer_currentPowerMW w eid))) by done.
    unfold n2. rewrite (proj2 (foldl_counts als n1)). unfold n1.
    rewrite (foldl_adds totalProduction
               (fun eid => addProduction (PowerGenerator_currentPowerMW w eid))
               (PowerGenerator_currentPowerMW w)) by (intros; simpl; ring).
    simpl. ring.
  - rewrite (foldl_keeps totalConsumption
               (fun eid => addStorage (PowerStorage_capacity w eid)
                                      (PowerStorage_stored w eid))) by done.
    unfold n3.
    rewrite (foldl_adds totalConsumption
               (fun eid => addConsumption (PowerConsumer_currentPowerMW w eid))
               (PowerConsumer_currentPowerMW w)) by (intros; simpl; ring).
    unfold n2. rewrite (foldl_keeps totalConsumption (fun _ => addExtractor)) by done.
    unfold n1.
    rewrite (foldl_keeps totalConsumption
               (fun eid => addProduction (PowerGenerator_currentPowerMW w eid))) by done.
    simpl. ring.
  - rewrite (foldl_adds totalStorage
               (fun eid => addStorage (PowerStorage_capacity w eid)
                                      (PowerStorage_stored w eid))
               (PowerStorage_capacity w)) by (intros; simpl; ring).
    unfold n3.
    rewrite (foldl_keeps totalStorage
               (fun eid => addConsumption (PowerConsumer_currentPowerMW w eid))) by done.
    unfold n2. rewrite (foldl_keeps totalStorage (fun _ => addExtractor)) by done.
    unfold n1.
    rewrite (foldl_keeps totalStorage
               (fun eid => addProduction (PowerGenerator_currentPowerMW w eid))) by done.
    simpl. ring.
  - rewrite (foldl_adds storedEnergy
               (fun eid => addStorage (PowerStorage_capacity w eid)
                                      (PowerStorage_stored w eid))
               (PowerStorage_stored w)) by (intros; simpl; ring).
    unfold n3.
    rewrite (foldl_keeps storedEnergy
               (fun eid => addConsumption (PowerConsumer_currentPowerMW w eid))) by done.
    unfold n2. rewrite (foldl_keeps storedEnergy (fun _ => addExtractor)) by done.
    unfold n1.
    rewrite (foldl_keeps storedEnergy
               (fun eid => addProduction (PowerGenerator_currentPowerMW w eid))) by done.
    simpl. ring.
Qed.

Lemma tally_unknown w nets k :
  lookupNet nets k = None → lookupNet (tally w nets) k = None.
Proof. intros H. by rewrite lookupNet_tally, H. Qed.


(** ** What [update] leaves under an id *)

Lemma lookupNet_map_settle dt nets k :
  lookupNet (map (settle dt) nets) k = settle dt <$> lookupNet nets k.
Proof.
  induction nets as [| n rest IH]; simpl; [done|].
  rewrite (proj1 (settle_fields dt n)). by destruct (Nat.eqb (id n) k).
Qed.

Lemma getNetwork_update w dt s k :
  getNetwork (update w dt s).1 k = settle dt <$> lookupNet (tally w (networks s)) k.
Proof. unfold getNetwork. by rewrite update_networks, lookupNet_map_settle. Qed.

(** X9: after [update], the statistics of a network are sums over the
    entities that carry its id: production is the generators' output plus
    500 MW per alien extractor, consumption the consumers' draw, storage
    the accumulators' capacity.  Entities naming an unknown id add to no
    network, and [update] neither creates nor removes a network. *)
Theorem update_totals (w : World) (dt : Q) (s : PowerGridSystem) (k : nat) :
  (getNetwork s k = None → getNetwork (update w dt s).1 k = None) ∧
  (∀ net, getNetwork s k = Some net →
     ∃ net', getNetwork (update w dt s).1 k = Some net' ∧
       id net' = id net ∧ entities net' = entities net ∧
       alienExtractorCount net'
         = length (members (AlienExtractor_networkId w) k (alienQuery w)) ∧
       totalProduction net' ==
         sumOf (PowerGenerator_currentPowerMW w)
               (members (PowerGenerator_networkId w) k (generatorQuery w))
         + Qnat (alienExtractorCount net') * ALIEN_ENERGY_BASE_MW ∧
       totalConsumption net' ==
         sumOf (PowerConsumer_currentPowerMW w)
               (members (PowerConsumer_networkId w) k (consumerQuery w)) ∧
       totalStorage net' ==
         sumOf (PowerStorage_capacity w)
               (members (PowerStorage_networkId w) k (storageQuery w))).
Proof.
  split.
  - intros Hnone. rewrite getNetwork_update.
    by rewrite (tally_unknown w _ k Hnone).
  - intros net Hnet.
    destruct (tally_fields w _ k net Hnet)
      as (n' & Hn' & Hid & _ & _ & Hent & Hcount & Hprod & Hcons & Hsto & _).
    exists (settle dt n'). rewrite getNetwork_update, Hn'. split; [done|].
    destruct (settle_fields dt n') as (-> & -> & -> & -> & ->).
    split; [done|]. split.
    { rewrite <- Hent. unfold settle; cbv zeta.
      destruct (Qlt_bool _ 0); [destruct (Qle_bool _ _)|]; done. }
    done.
Qed.

Lemma update_totals_witness :
  getNetwork (update chargeWorld 1 oneNetwork).1 9 = None.
Proof.
  apply (proj1 (update_totals chargeWorld 1 oneNetwork 9)). reflexivity.
Defined.

(** ** Network ids *)

Lemma lookupNet_app nets n k :
  lookupNet (nets ++ [n]) k =
  match lookupNet nets k with
  | Some x => Some x
  | None => if Nat.eqb (id n) k then Some n else None
  end.
Proof.
  induction nets as [| m rest IH]; simpl; [done|].
  by destruct (Nat.eqb (id m) k).
Qed.

Lemma lookupNet_None nets k :
  Forall (fun n => id n ≠ k) nets → lookupNet nets k = None.
Proof.
  induction 1 as [| n rest Hn _ IH]; simpl; [done|].
  apply Nat.eqb_neq in Hn. by rewrite Hn.
Qed.

Lemma map_id_withNet k f nets :
  (∀ n, id (f n) = id n) → map id (withNet k f nets) = map id nets.
Proof.
  intros Hid. induction nets as [| n rest IH]; simpl; [done|].
  destruct (Nat.eqb (id n) k); simpl; [by rewrite Hid | by rewrite IH].
Qed.

Lemma map_id_foldl (netOf : nat → nat) (f : nat → PowerNetwork → PowerNetwork) l nets :
  (∀ e n, id (f e n) = id n) →
  map id (foldl (fun nets eid => withNet (netOf eid) (f eid) nets) nets l)
  = map id nets.
Proof.
  intros Hid. revert nets. induction l as [| e l IH]; intros nets; simpl; [done|].
  rewrite IH. by apply map_id_withNet.
Qed.

Lemma map_id_tally w nets : map id (tally w nets) = map id nets.
Proof.
  unfold tally, tallyStorage, tallyConsumers, tallyAliens, tallyGenerators.
  rewrite (map_id_foldl (PowerStorage_networkId w)
             (fun eid => addStorage (PowerStorage_capacity w eid)
                                    (PowerStorage_stored w eid))) by done.
  rewrite (map_id_foldl (PowerConsumer_networkId w)
             (fun eid => addConsumption (PowerConsumer_currentPowerMW w eid))) by done.
  rewrite (map_id_foldl (AlienExtractor_networkId w) (fun _ => addExtractor)) by done.
  rewrite (map_id_foldl (PowerGenerator_networkId w)
             (fun eid => addProduction (PowerGenerator_currentPowerMW w eid))) by done.
  rewrite map_map. by apply map_ext.
Qed.

Lemma map_id_update w dt s :
  map id (networks (update w dt s).1) = map id (networks s).
Proof.
  rewrite update_networks, map_map.
  rewrite <- (map_id_tally w (networks s)).
  apply map_ext. intros n. apply (proj1 (settle_fields dt n)).
Qed.

Lemma nextNetworkId_update w dt s :
  nextNetworkId (update w dt s).1 = nextNetworkId s.
Proof. unfold update. by destruct (settleAll dt w _). Qed.

(** X10: [createNetwork] hands out an id that was not in use, stores an
    empty network under it and leaves every other id as it was; the ids
    stay distinct and below the counter, also across [update]. *)
Theorem createNetwork_fresh :
  freshIds newSystem ∧
  (∀ s, freshIds s →
     let k := (createNetwork s).1 in
     let s' := (createNetwork s).2 in
     freshIds s' ∧
     getNetwork s k = None ∧
     getNetwork s' k = Some (mkNet k 0 0 0 0 0 0 false ∅) ∧
     (∀ j, j ≠ k → getNetwork s' j = getNetwork s j)) ∧
  (∀ s w dt, freshIds s → freshIds (update w dt s).1).
Proof.
  split; [| split].
  - split; simpl; constructor.
  - intros s [Hnd Hlt]. cbv zeta. unfold createNetwork, getNetwork; simpl.
    assert (lookupNet (networks s) (nextNetworkId s) = None) as Hnone.
    { apply lookupNet_None. eapply Forall_impl; [exact Hlt|]. simpl. lia. }
    split; [| split; [| split]].
    + split; simpl.
      * rewrite map_app. simpl. apply NoDup_app. split; [done|]. split.
        -- intros x Hx Hx'. apply list_elem_of_singleton in Hx'. subst x.
           apply list_elem_of_fmap in Hx as (n & Heq & Hn).
           rewrite Forall_forall in Hlt. specialize (Hlt n Hn). simpl in Hlt. lia.
        -- apply NoDup_singleton.
      * apply Forall_app. split.
        -- eapply Forall_impl; [exact Hlt|]. simpl. lia.
        -- constructor; [simpl; lia | constructor].
    + exact Hnone.
    + rewrite lookupNet_app, Hnone. simpl. by rewrite Nat.eqb_refl.
    + intros j Hj. rewrite lookupNet_app. simpl.
      destruct (lookupNet (networks s) j); [done|].
      apply not_eq_sym, Nat.eqb_neq in Hj. by rewrite Hj.
  - intros s w dt [Hnd Hlt]. split.
    + by rewrite map_id_update.
    + rewrite nextNetworkId_update.
      apply Forall_forall. intros n Hn.
      assert (id n ∈ map id (networks s)) as Hin.
      { rewrite <- (map_id_update w dt s). apply list_elem_of_fmap. by exists n. }
      apply list_elem_of_fmap in Hin as (m & -> & Hm).
      rewrite Forall_forall in Hlt. by apply Hlt.
Qed.

Lemma createNetwork_fresh_witness :
  freshIds (createNetwork oneNetwork).2 ∧ getNetwork oneNetwork 2 = None.
Proof.
  assert (freshIds oneNetwork) as Hone.
  { apply (proj1 (proj1 (proj2 createNetwork_fresh) newSystem
                   (proj1 createNetwork_fresh))). }
  destruct (proj1 (proj2 createNetwork_fresh) oneNetwork Hone) as (H1 & H2 & _).
  exact (conj H1 H2).
Defined.


(** ** Spreading the charge over the accumulators *)

Lemma sumOf_scale (f g : nat → Q) (c : Q) (l : list nat) :
  (∀ e, e ∈ l → f e == c * g e) → sumOf f l == c * sumOf g l.
Proof.
  induction l as [| e l IH]; intros Hl; unfold sumOf; simpl; [ring|].
  rewrite (Hl e) by apply list_elem_of_here.
  fold (sumOf f l). fold (sumOf g l). rewrite IH; [ring|].
  intros e' He'. apply Hl. by apply list_elem_of_further.
Qed.

Lemma sumOf_nonneg (f : nat → Q) (l : list nat) :
  (∀ e, 0 <= f e) → 0 <= sumOf f l.
Proof.
  intros Hf. induction l as [| e l IH]; unfold sumOf; simpl; [done|].
  fold (sumOf f l). specialize (Hf e). lra.
Qed.

(** The loop of [updateStorageEntities] over a part [l] of the query. *)
Lemma spread_foldl (w : World) (net : PowerNetwork) (l : list nat) :
  let w' :=
    foldl (fun w eid =>
             if Nat.eqb (PowerStorage_networkId w eid) (id net) then
               let ratio := PowerStorage_capacity w eid / totalStorage net in
               setStored w eid (storedEnergy net * ratio)
             else w) w l in
  storageQuery w' = storageQuery w ∧
  PowerStorage_networkId w' = PowerStorage_networkId w ∧
  PowerStorage_capacity w' = PowerStorage_capacity w ∧
  ∀ e, PowerStorage_stored w' e =
       if decide (e ∈ l ∧ PowerStorage_networkId w e = id net)
       then storedEnergy net * (PowerStorage_capacity w e / totalStorage net)
       else PowerStorage_stored w e.
Proof.
  cbv zeta. induction l as [| x l IH] using rev_ind.
  - simpl. repeat split; done.
  - rewrite foldl_app. simpl.
    destruct IH as (Hq & Hn & Hc & Hs).
    set (w1 := foldl _ w l) in *.
    rewrite Hn, Hc.
    destruct (Nat.eqb (PowerStorage_networkId w x) (id net)) eqn:Hx.
    + apply Nat.eqb_eq in Hx. simpl. repeat split; try done.
      intros e. unfold upd. destruct (Nat.eqb e x) eqn:Hex.
      * apply Nat.eqb_eq in Hex. subst e. rewrite decide_True; [done|].
        split; [| done]. apply elem_of_app. right. apply list_elem_of_here.
      * apply Nat.eqb_neq in Hex. rewrite Hs.
        destruct (decide (e ∈ l ∧ _)) as [[Hin Hk] | Hno].
        -- rewrite decide_True; [done|]. split; [| done].
           apply elem_of_app. by left.
        -- rewrite decide_False; [done|]. intros [Hin Hk]. apply Hno.
           split; [| done]. apply elem_of_app in Hin as [Hin | Hin]; [done|].
           apply list_elem_of_singleton in Hin. done.
    + apply Nat.eqb_neq in Hx. repeat split; try done.
      intros e. rewrite Hs.
      destruct (decide (e ∈ l ∧ _)) as [[Hin Hk] | Hno].
      * rewrite decide_True; [done|]. split; [| done]. apply elem_of_app. by left.
      * rewrite decide_False; [done|]. intros [Hin Hk]. apply Hno.
        split; [| done]. apply elem_of_app in Hin as [Hin | Hin]; [done|].
        apply list_elem_of_singleton in Hin. by subst e.
Qed.

Lemma updateStorageEntities_spec (w : World) (net : PowerNetwork) :
  let w' := updateStorageEntities w net in
  storageQuery w' = storageQuery w ∧
  PowerStorage_networkId w' = PowerStorage_networkId w ∧
  PowerStorage_capacity w' = PowerStorage_capacity w ∧
  ∀ e, PowerStorage_stored w' e =
       if Qeq_bool (totalStorage net) 0 then PowerStorage_stored w e
       else if decide (e ∈ storageQuery w ∧ PowerStorage_networkId w e = id net)
       then storedEnergy net * (PowerStorage_capacity w e / totalStorage net)
       else PowerStorage_stored w e.
Proof.
  cbv zeta. unfold updateStorageEntities.
  destruct (Qeq_bool (totalStorage net) 0); [done|].
  apply spread_foldl.
Qed.

(** The world the last loop of [update] leaves. *)
Lemma settleAll_world (dt : Q) (nets : list PowerNetwork) (w : World) :
  let w' := (settleAll dt w nets).2 in
  storageQuery w' = storageQuery w ∧
  PowerStorage_networkId w' = PowerStorage_networkId w ∧
  PowerStorage_capacity w' = PowerStorage_capacity w ∧
  (∀ e, PowerStorage_networkId w e ∉ map id nets →
        PowerStorage_stored w' e = PowerStorage_stored w e) ∧
  (NoDup (map id nets) →
   ∀ n e, n ∈ nets → e ∈ storageQuery w → PowerStorage_networkId w e = id n →
          Qeq_bool (totalStorage n) 0 = false →
          PowerStorage_stored w' e =
          storedEnergy (settle dt n) * (PowerStorage_capacity w e / totalStorage n)).
Proof.
  cbv zeta. revert w. induction nets as [| net rest IH]; intros w; simpl.
  - repeat split; try done. intros _ n e Hn. by apply elem_of_nil in Hn.
  - destruct (updateStorageEntities_spec w (settle dt net)) as (Hq1 & Hn1 & Hc1 & Hs1).
    set (w1 := updateStorageEntities w (settle dt net)) in *.
    destruct (IH w1) as (Hq & Hn & Hc & Hother & Hmine).
    destruct (settleAll dt w1 rest) as [rest' w''] eqn:Hrest. simpl in *.
    destruct (settle_fields dt net) as (Hid & _ & _ & Hts & _).
    rewrite Hid, Hts in Hs1.
    split; [congruence|]. split; [congruence|]. split; [congruence|]. split.
    + intros e He. rewrite Hother.
      * rewrite Hs1. destruct (Qeq_bool (totalStorage net) 0); [done|].
        rewrite decide_False; [done|]. intros [_ Hk]. apply He.
        rewrite Hk. apply list_elem_of_here.
      * rewrite Hn1. intros Hin. apply He. by apply list_elem_of_further.
    + intros Hnd n e Hin He Hk Hz.
      apply NoDup_cons in Hnd as [Hfresh Hnd].
      apply elem_of_cons in Hin as [-> | Hin].
      * rewrite Hother.
        -- rewrite Hs1, Hz. rewrite decide_True; done.
        -- rewrite Hn1, Hk. done.
      * rewrite (Hmine Hnd n e Hin); [by rewrite Hc1 | by rewrite Hq1
                                     | by rewrite Hn1 | done].
Qed.

Lemma update_world w dt s :
  (update w dt s).2 = (settleAll dt w (tally w (networks s))).2.
Proof. unfold update. by destruct (settleAll dt w _). Qed.

Lemma lookupNet_NoDup nets n :
  NoDup (map id nets) → n ∈ nets → lookupNet nets (id n) = Some n.
Proof.
  induction nets as [| m rest IH]; intros Hnd Hin; [by apply elem_of_nil in Hin|].
  simpl in *. apply NoDup_cons in Hnd as [Hfresh Hnd].
  apply elem_of_cons in Hin as [-> | Hin].
  - by rewrite Nat.eqb_refl.
  - destruct (Nat.eqb (id m) (id n)) eqn:Hmn; [| by apply IH].
    apply Nat.eqb_eq in Hmn. exfalso. apply Hfresh. rewrite Hmn.
    apply list_elem_of_fmap. by exists n.
Qed.

Lemma lookupNet_None_inv nets k :
  lookupNet nets k = None → k ∉ map id nets.
Proof.
  induction nets as [| m rest IH]; simpl; intros Hnone Hin.
  - by apply elem_of_nil in Hin.
  - destruct (Nat.eqb (id m) k) eqn:Hmk; [done|].
    apply Nat.eqb_neq in Hmk.
    apply elem_of_cons in Hin as [Heq | Hin]; [congruence | by apply IH].
Qed.

(** X11: after [update], every accumulator of a network with storage holds
    the network's charge times its share of the capacity, so that the
    accumulators of the network together hold exactly the network's charge;
    an accumulator that names an unknown network keeps its charge. *)
Theorem update_spreads_charge (w : World) (dt : Q) (s : PowerGridSystem)
    (net' : PowerNetwork) :
  NoDup (map id (networks s)) →
  net' ∈ networks (update w dt s).1 →
  ¬ totalStorage net' == 0 →
  let w' := (update w dt s).2 in
  let mine := members (PowerStorage_networkId w) (id net') (storageQuery w) in
  (∀ e, e ∈ mine →
        PowerStorage_stored w' e ==
        storedEnergy net' * (PowerStorage_capacity w e / totalStorage net')) ∧
  sumOf (PowerStorage_stored w') mine == storedEnergy net' ∧
  (∀ e, getNetwork s (PowerStorage_networkId w e) = None →
        PowerStorage_stored w' e = PowerStorage_stored w e).
Proof.
  intros Hnd Hin Hts. cbv zeta.
  rewrite update_networks in Hin.
  apply list_elem_of_fmap in Hin as (n & -> & Hn).
  destruct (settle_fields dt n) as (Hid & _ & _ & Htot & _).
  rewrite Hid, Htot in *.
  assert (NoDup (map id (tally w (networks s)))) as Hnd'
    by by rewrite map_id_tally.
  destruct (settleAll_world dt (tally w (networks s)) w)
    as (_ & _ & _ & Hother & Hmine).
  rewrite update_world.
  assert (Qeq_bool (totalStorage n) 0 = false) as Hz.
  { apply not_true_is_false. intros Heq. by apply Qeq_bool_iff in Heq. }
  assert (∀ e, e ∈ members (PowerStorage_networkId w) (id n) (storageQuery w) →
               PowerStorage_stored (settleAll dt w (tally w (networks s))).2 e
               = storedEnergy (settle dt n)
                 * (PowerStorage_capacity w e / totalStorage n)) as Hshare.
  { intros e He. apply list_elem_of_filter in He as [Hk He].
    by apply (Hmine Hnd' n e). }
  split; [| split].
  - intros e He. by rewrite (Hshare e He).
  - pose proof (lookupNet_NoDup _ n Hnd' Hn) as Hlook.
    destruct (lookupNet (networks s) (id n)) as [n0|] eqn:Hn0.
    2:{ by rewrite (tally_unknown w _ _ Hn0) in Hlook. }
    destruct (tally_fields w _ _ n0 Hn0)
      as (n1 & Hn1 & _ & _ & _ & _ & _ & _ & _ & Hcap & _).
    rewrite Hlook in Hn1. injection Hn1 as <-.
    rewrite (sumOf_scale _ (PowerStorage_capacity w)
               (storedEnergy (settle dt n) / totalStorage n)).
    + rewrite <- Hcap. field. exact Hts.
    + intros e He. rewrite (Hshare e He). unfold Qdiv. ring.
  - intros e Hnone. apply Hother. rewrite map_id_tally.
    by apply lookupNet_None_inv.
Qed.

Lemma update_spreads_charge_witness :
  PowerStorage_stored (update chargeWorld 3600 oneNetwork).2 2 == 65 ∧
  PowerStorage_stored (update chargeWorld 3600 oneNetwork).2 3 == 195 ∧
  PowerStorage_stored (update chargeWorld 3600 oneNetwork).2 4 = 50.
Proof.
  assert (NoDup (map id (networks oneNetwork))) as Hnd
    by (vm_compute; apply NoDup_singleton).
  assert (settle 3600 (mkNet 1 200 0 400 60 0 0 false ∅)
          ∈ networks (update chargeWorld 3600 oneNetwork).1) as Hin.
  { rewrite update_networks. apply list_elem_of_fmap.
    exists (mkNet 1 200 0 400 60 0 0 false ∅). split; [done|].
    vm_compute. apply list_elem_of_here. }
  assert (¬ totalStorage (settle 3600 (mkNet 1 200 0 400 60 0 0 false ∅)) == 0)
    as Hts by (vm_compute; discriminate).
  destruct (update_spreads_charge chargeWorld 3600 oneNetwork _ Hnd Hin Hts)
    as (Hshare & _ & Hother).
  split; [| split].
  - rewrite (Hshare 2%nat) by (vm_compute; apply list_elem_of_here).
    by vm_compute.
  - rewrite (Hshare 3%nat)
      by (vm_compute; apply list_elem_of_further, list_elem_of_here).
    by vm_compute.
  - rewrite (Hother 4%nat) by reflexivity. reflexivity.
Defined.


(** ** Figures for the interface *)

(** X12: [getNetworkStats] answers null exactly for an unknown id.  For a
    known one the blackout flag is the one [isEntityBlackedOut] gives, the
    alien bonus is 30 percent per extractor, and the storage percentage is
    0 without storage and between 0 and 100 while the charge is within the
    capacity.  Right after [update], a network shown as blacked out has a
    negative surplus and an empty storage. *)
Theorem getNetworkStats_spec (s : PowerGridSystem) (k : nat) :
  (getNetworkStats s k = None ↔ getNetwork s k = None) ∧
  (∀ st, getNetworkStats s k = Some st →
     ∃ net, getNetwork s k = Some net ∧
       stats_isBlackedOut st = isEntityBlackedOut s k ∧
       stats_surplus st == stats_production st - stats_consumption st ∧
       stats_alienBonus st == 30 * Qnat (alienExtractorCount net) ∧
       (totalStorage net <= 0 → stats_storagePercent st == 0) ∧
       (0 <= storedEnergy net <= totalStorage net →
        0 <= stats_storagePercent st <= 100)) ∧
  (∀ w dt st, getNetworkStats (update w dt s).1 k = Some st →
     stats_isBlackedOut st = true →
     stats_surplus st < 0 ∧ stats_storagePercent st == 0).
Proof.
  split; [| split].
  - unfold getNetworkStats. destruct (getNetwork s k); split; done.
  - intros st Hst. unfold getNetworkStats, isEntityBlackedOut in *.
    destruct (getNetwork s k) as [net|]; [| done].
    injection Hst as <-. exists net. split; [done|]. simpl.
    split; [done|]. split; [ring|]. split.
    { unfold ALIEN_ENERGY_BONUS. field. }
    split.
    + intros Hle. destruct (Qlt_bool 0 (totalStorage net)) eqn:Hlt; [| done].
      apply Qlt_bool_iff in Hlt. lra.
    + intros [Hlo Hhi].
      destruct (Qlt_bool 0 (totalStorage net)) eqn:Hlt; [| lra].
      apply Qlt_bool_iff in Hlt.
      assert (0 <= storedEnergy net / totalStorage net <= 1) as [Hr0 Hr1].
      { split.
        - apply Qle_shift_div_l; [done | lra].
        - apply Qle_shift_div_r; [done | lra]. }
      lra.
  - intros w dt st Hst Hblack. unfold getNetworkStats in Hst.
    rewrite getNetwork_update in Hst.
    destruct (lookupNet (tally w (networks s)) k) as [net|]; [| done].
    simpl in Hst. injection Hst as <-. simpl in *.
    destruct (settle_fields dt net) as (_ & _ & Hc & Hts & _).
    destruct (settle_cases dt net) as [Hsurplus Hdeficit]. cbv zeta in *.
    destruct (Qlt_le_dec (effectiveProduction (settle dt net)
                          - totalConsumption (settle dt net)) 0) as [Hneg | Hpos].
    + split; [done|].
      destruct (Hdeficit Hneg) as [Henough Hshort].
      destruct (Qlt_le_dec (storedEnergy net)
                  (Qabs (effectiveProduction (settle dt net)
                         - totalConsumption (settle dt net)) * (dt / 3600)))
        as [Hlt | Hle].
      * destruct (Hshort Hlt) as [_ Hzero].
        destruct (Qlt_bool 0 (totalStorage (settle dt net))); [| done].
        rewrite Hzero. unfold Qdiv. ring.
      * destruct (Henough Hle) as [Hno _]. congruence.
    + destruct (Hsurplus Hpos) as [Hno _]. congruence.
Qed.

Lemma getNetworkStats_spec_witness :
  getNetworkStats oneNetwork 7 = None ∧
  (∃ st, getNetworkStats (update blackoutWorld 60 oneNetwork).1 1 = Some st ∧
         stats_isBlackedOut st = true ∧
         stats_surplus st < 0 ∧ stats_storagePercent st == 0) ∧
  (∃ st, getNetworkStats (update bonusWorld 1 oneNetwork).1 1 = Some st ∧
         stats_isBlackedOut st = false ∧
         stats_surplus st == stats_production st - stats_consumption st ∧
         stats_alienBonus st == 60) ∧
  (∃ st, getNetworkStats (update chargeWorld 3600 oneNetwork).1 1 = Some st ∧
         stats_storagePercent st == 65 ∧
         0 <= stats_storagePercent st <= 100).
Proof.
  split; [| split; [| split]].
  - apply (proj1 (getNetworkStats_spec oneNetwork 7)). reflexivity.
  - destruct (getNetworkStats (update blackoutWorld 60 oneNetwork).1 1)
      as [st|] eqn:Hst; [| vm_compute in Hst; discriminate Hst].
    assert (stats_isBlackedOut st = true) as Hdark.
    { vm_compute in Hst. by injection Hst as <-. }
    destruct (proj2 (proj2 (getNetworkStats_spec oneNetwork 1))
                blackoutWorld 60 st Hst Hdark) as [Hneg Hzero].
    exists st. done.
  - set (s := (update bonusWorld 1 oneNetwork).1).
    destruct (getNetworkStats s 1) as [st|] eqn:Hst;
      [| vm_compute in Hst; discriminate Hst].
    destruct (proj1 (proj2 (getNetworkStats_spec s 1)) st Hst)
      as (net & Hnet & Hflag & Hsur & Hbonus & _).
    exists st. split; [done|].
    split; [rewrite Hflag; by vm_compute|]. split; [exact Hsur|].
    rewrite Hbonus. vm_compute in Hnet. injection Hnet as <-. by vm_compute.
  - set (s := (update chargeWorld 3600 oneNetwork).1).
    destruct (getNetworkStats s 1) as [st|] eqn:Hst;
      [| vm_compute in Hst; discriminate Hst].
    destruct (proj1 (proj2 (getNetworkStats_spec s 1)) st Hst)
      as (net & Hnet & _ & _ & _ & _ & Hrange).
    exists st. split; [done|]. split.
    + vm_compute in Hst. injection Hst as <-. by vm_compute.
    + apply Hrange. vm_compute in Hnet. injection Hnet as <-.
      split; by vm_compute.
Defined.

(** ** Signs *)

(** X13: when no component value is negative, the time step is not
    negative and the network's charge was not negative, [update] leaves
    the network with non-negative production, consumption, capacity and
    charge, and an effective production that is at least the total
    production. *)
Theorem update_nonnegative (w : World) (dt : Q) (s : PowerGridSystem)
    (k : nat) (net : PowerNetwork) :
  (∀ e, 0 <= PowerGenerator_currentPowerMW w e) →
  (∀ e, 0 <= PowerConsumer_currentPowerMW w e) →
  (∀ e, 0 <= PowerStorage_capacity w e) →
  (∀ e, 0 <= PowerStorage_stored w e) →
  0 <= dt →
  getNetwork s k = Some net →
  0 <= storedEnergy net →
  ∃ net', getNetwork (update w dt s).1 k = Some net' ∧
    0 <= totalProduction net' ∧ 0 <= totalConsumption net' ∧
    0 <= totalStorage net' ∧ 0 <= storedEnergy net' ∧
    totalProduction net' <= effectiveProduction net'.
Proof.
  intros Hgen Hcon Hcap Hsto Hdt Hnet Hcharge.
  destruct (tally_fields w _ k net Hnet)
    as (n & Hn & _ & _ & _ & _ & Hcount & Hprod & Hcons & Htot & Hstored).
  exists (settle dt n). rewrite getNetwork_update, Hn. split; [done|].
  pose proof (sumOf_nonneg (PowerGenerator_currentPowerMW w)
                (members (PowerGenerator_networkId w) k (generatorQuery w)) Hgen) as Hg.
  pose proof (sumOf_nonneg (PowerConsumer_currentPowerMW w)
                (members (PowerConsumer_networkId w) k (consumerQuery w)) Hcon) as Hc.
  pose proof (sumOf_nonneg (PowerStorage_capacity w)
                (members (PowerStorage_networkId w) k (storageQuery w)) Hcap) as Hp.
  pose proof (sumOf_nonneg (PowerStorage_stored w)
                (members (PowerStorage_networkId w) k (storageQuery w)) Hsto) as Hs.
  assert (0 <= Qnat (alienExtractorCount n)) as Hn0.
  { unfold Qnat. change 0 with (inject_Z 0). rewrite <- Zle_Qle. lia. }
  assert (0 <= Qnat (alienExtractorCount n) * ALIEN_ENERGY_BASE_MW) as Hflat.
  { apply Qmult_le_0_compat; [done | by vm_compute]. }
  assert (0 <= dt / 3600) as Hstep.
  { unfold Qdiv. apply Qmult_le_0_compat; [done | by vm_compute]. }
  assert (0 <= storedEnergy n) as Hsn by lra.
  assert (0 <= totalStorage n) as Htn by lra.
  set (base := totalProduction n - Qnat (alienExtractorCount n) * ALIEN_ENERGY_BASE_MW).
  assert (0 <= base) as Hbase by (unfold base; lra).
  assert (0 <= base * ALIEN_ENERGY_BONUS * Qnat (alienExtractorCount n)) as Hbonus.
  { apply Qmult_le_0_compat; [| done].
    apply Qmult_le_0_compat; [done | by vm_compute]. }
  destruct (settle_fields dt n) as (_ & -> & -> & -> & _).
  split; [lra|]. split; [lra|]. split; [lra|].
  unfold settle; cbv zeta. fold base.
  set (eff := totalProduction n + _) in *.
  destruct (Qlt_bool (eff - totalConsumption n) 0) eqn:Hsur.
  - destruct (Qle_bool _ (storedEnergy n)) eqn:Hd;
      cbn [storedEnergy effectiveProduction totalProduction].
    + apply Qle_bool_iff in Hd. split; [lra | unfold eff; lra].
    + split; [lra | unfold eff; lra].
  - apply Qlt_bool_false in Hsur.
    cbn [storedEnergy effectiveProduction totalProduction].
    split; [| unfold eff; lra].
    apply Q.min_glb; [| done].
    assert (0 <= (eff - totalConsumption n) * (dt / 3600))
      by (apply Qmult_le_0_compat; [lra | done]).
    lra.
Qed.

Lemma update_nonnegative_witness :
  ∃ net', getNetwork (update chargeWorld 3600 oneNetwork).1 1 = Some net' ∧
          0 <= storedEnergy net'.
Proof.
  destruct (update_nonnegative chargeWorld 3600 oneNetwork 1
              (mkNet 1 0 0 0 0 0 0 false ∅))
    as (net' & Hnet' & _ & _ & _ & Hs & _).
  - intros e. by vm_compute.
  - intros e. by vm_compute.
  - intros e. simpl. destruct (Nat.eqb e 2); by vm_compute.
  - intros e. simpl. destruct (Nat.eqb e 2); by vm_compute.
  - by vm_compute.
  - reflexivity.
  - by vm_compute.
  - exists net'. exact (conj Hnet' Hs).
Defined.

End PowerExtra.

(** * More of production *)

Module ProductionExtra.

Import Production ProductionProofs.
Local Open Scope Q_scope.

Section WithPow.

Variable pow : Q → Q → Q.

(** ** Clock speed and power draw *)

Lemma speed_range (shards : nat) :
  let speed := Qmin (1 + Qnat shards * POWER_SHARD_bonusPerSlot)
                    POWER_SHARD_maxMultiplier in
  1 <= speed ∧ speed <= 5 # 2 ∧ ((3 <= shards)%nat → speed == 5 # 2).
Proof.
  cbv zeta. unfold POWER_SHARD_bonusPerSlot, POWER_SHARD_maxMultiplier.
  assert (0 <= Qnat shards) as H0.
  { unfold Qnat. change 0 with (inject_Z 0). rewrite <- Zle_Qle. lia. }
  split; [| split].
  - apply Q.min_glb; lra.
  - apply Q.le_min_r.
  - intros H3. apply Q.min_r.
    assert (3 <= Qnat shards).
    { unfold Qnat. change 3 with (inject_Z 3). rewrite <- Zle_Qle. lia. }
    lra.
Qed.

(** X14: whenever the producer's recipe is known, [processProducer] sets
    the speed multiplier to min(1 + 0.5 * shards, 2.5), a value between 1
    and 2.5 that is 2.5 from three shards on, and sets the power draw of a
    machine with a positive base power to base * speed^1.6, whether or not
    the machine runs in this tick. *)
Theorem processProducer_speed_and_power (dt : Q) (st : State) (eid : nat)
    (r : RuntimeRecipe) :
  recipes st !! Producer_recipeId st eid = Some r →
  let st' := processProducer pow dt st eid in
  let speed := Qmin (1 + Qnat (Producer_powerShards st eid) * POWER_SHARD_bonusPerSlot)
                    POWER_SHARD_maxMultiplier in
  Producer_speedMultiplier st' eid = speed ∧
  1 <= speed ∧ speed <= 5 # 2 ∧
  ((3 <= Producer_powerShards st eid)%nat → speed == 5 # 2) ∧
  (0 < PowerConsumer_basePowerMW st eid →
   PowerConsumer_currentPowerMW st' eid
   = PowerConsumer_basePowerMW st eid * pow speed (16 # 10)) ∧
  (PowerConsumer_basePowerMW st eid <= 0 →
   PowerConsumer_currentPowerMW st' eid = PowerConsumer_currentPowerMW st eid).
Proof.
  intros Hr. cbv zeta.
  destruct (speed_range (Producer_powerShards st eid)) as (H1 & H2 & H3).
  cbv zeta in *.
  split; [| split; [done | split; [done | split; [done | split]]]].
  - crunch.
  - intros Hpos. apply PowerProofs.Qlt_bool_iff in Hpos. crunch.
  - intros Hle. apply PowerProofs.Qlt_bool_false in Hle. crunch.
Qed.

(** ** Progress *)

Lemma processProducer_recipes dt st eid :
  recipes (processProducer pow dt st eid) = recipes st ∧
  Producer_recipeId (processProducer pow dt st eid) = Producer_recipeId st.
Proof.
  destruct (processProducer_frame pow dt st eid (S eid)) as (H1 & H2 & _); [lia|].
  done.
Qed.

Lemma putBuffer_progress st eid b :
  Producer_progress (putBuffer st eid b) = Producer_progress st.
Proof. unfold putBuffer. by destruct (buffers st !! eid). Qed.

Lemma processProducer_progress_range dt st eid :
  (∀ r, recipes st !! Producer_recipeId st eid = Some r → 0 < duration r) →
  0 <= dt →
  0 <= Producer_progress st eid ∧ Producer_progress st eid < 1 →
  0 <= Producer_progress (processProducer pow dt st eid) eid ∧
  Producer_progress (processProducer pow dt st eid) eid < 1.
Proof.
  intros Hdur Hdt [Hlo Hhi].
  destruct (recipes st !! Producer_recipeId st eid) as [r|] eqn:Hr.
  2:{ unfold processProducer. rewrite Hr. done. }
  specialize (Hdur r eq_refl).
  destruct (speed_range (Producer_powerShards st eid)) as (H1 & _ & _).
  cbv zeta in H1.
  assert (0 <= dt / duration r) as Hq.
  { apply Qle_shift_div_l; [done | lra]. }
  set (speed := Qmin _ _) in H1.
  assert (0 <= dt / duration r * speed) as Hdelta.
  { apply Qmult_le_0_compat; [done | lra]. }
  unfold processProducer. rewrite Hr. fold speed.
  set (buffer := getBuffer st eid).
  set (st2 := setSpeed st eid speed).
  set (st3 := if Qlt_bool 0 (PowerConsumer_basePowerMW st2 eid) then _ else st2).
  assert (Producer_progress st3 = Producer_progress st) as Hp3.
  { unfold st3. by destruct (Qlt_bool 0 _). }
  destruct (negb (canOutput buffer r)); [simpl; by rewrite Hp3|].
  destruct (Qeq_bool (Producer_progress st3 eid) 0) eqn:Hzero.
  - destruct (negb (hasIngredients buffer r)); [simpl; by rewrite Hp3|].
    cbn [Producer_progress setActive setProgress].
    rewrite upd_same, putBuffer_progress, Hp3.
    destruct (Qle_bool 1 _) eqn:Hdone; rewrite ?putBuffer_progress;
      cbn [Producer_progress setActive setProgress]; rewrite upd_same.
    + lra.
    + apply PowerProofs.Qle_bool_false in Hdone. split; [lra | done].
  - cbn [Producer_progress setActive setProgress].
    rewrite upd_same, Hp3.
    destruct (Qle_bool 1 _) eqn:Hdone; rewrite ?putBuffer_progress;
      cbn [Producer_progress setActive setProgress]; rewrite upd_same.
    + lra.
    + apply PowerProofs.Qle_bool_false in Hdone. split; [lra | done].
Qed.

(** X15: if every registered recipe has a positive duration and the time
    step is not negative, a tick of [update] keeps the progress of every
    producer in the range from 0 (included) to 1 (excluded): a cycle that
    reaches 1 starts again from 0, the excess is dropped. *)
Theorem update_progress_range (dt : Q) (powerGrid : Power.PowerGridSystem)
    (st : State) :
  (∀ i r, recipes st !! i = Some r → 0 < duration r) →
  0 <= dt →
  (∀ e, 0 <= Producer_progress st e ∧ Producer_progress st e < 1) →
  ∀ e, 0 <= Producer_progress (update pow dt powerGrid st) e ∧
       Producer_progress (update pow dt powerGrid st) e < 1.
Proof.
  intros Hdur Hdt Hrange. unfold update.
  generalize (activeProducerQuery st) as l. intros l.
  assert (∀ l st', recipes st' = recipes st →
                   (∀ e, 0 <= Producer_progress st' e ∧ Producer_progress st' e < 1) →
                   ∀ e, 0 <= Producer_progress (foldl (updateProducer pow powerGrid dt) st' l) e ∧
                        Producer_progress (foldl (updateProducer pow powerGrid dt) st' l) e < 1)
    as Hfold.
  { clear l. induction l as [| x l IH]; intros st' Hrec Hr'; simpl; [done|].
    apply IH.
    - unfold updateProducer. destruct (_ && _); [by simpl|].
      by rewrite (proj1 (processProducer_recipes dt st' x)).
    - intros e. unfold updateProducer. destruct (_ && _); [by simpl|].
      destruct (decide (e = x)) as [-> | Hne].
      + apply processProducer_progress_range; [| done | done].
        intros r Hr. apply (Hdur (Producer_recipeId st' x)). by rewrite <- Hrec.
      + destruct (processProducer_frame pow dt st' x e Hne) as (_ & _ & -> & _).
        done. }
  by apply Hfold.
Qed.

(** ** Products *)

Lemma produceOutputs_count b r item :
  slotCount (outputSlots (produceOutputs b r)) item =
  (slotCount (outputSlots b) item + provided r item)%Z.
Proof.
  unfold produceOutputs, provided. generalize (products r) as l.
  intros l. revert b. induction l as [| prod l IH]; intros b; simpl; [lia|].
  rewrite IH; simpl. unfold slotCount at 1.
  destruct (String.eqb_spec (itemId prod) item) as [-> | Hne].
  - rewrite lookup_insert_eq; simpl. lia.
  - rewrite lookup_insert_ne by done. fold (slotCount (outputSlots b) item). lia.
Qed.

Lemma provided_absent (l : list Ingredient) item :
  item ∉ map itemId l →
  foldr (fun prod acc => if String.eqb (itemId prod) item
                         then (amount prod + acc)%Z else acc) 0%Z l = 0%Z.
Proof.
  induction l as [| p l IH]; simpl; intros Hnot; [done|].
  destruct (String.eqb_spec (itemId p) item) as [Heq | Hne].
  - exfalso. apply Hnot. rewrite Heq. apply list_elem_of_here.
  - apply IH. intros Hin. apply Hnot. by apply list_elem_of_further.
Qed.

(** With distinct product items, what [canOutput] checks is what
    [produceOutputs] adds. *)
Lemma canOutput_room b r item :
  canOutput b r = true →
  NoDup (map itemId (products r)) →
  provided r item = 0%Z ∨
  (slotCount (outputSlots b) item + provided r item <= MAX_OUTPUT_BUFFER)%Z.
Proof.
  unfold canOutput, provided. generalize (products r) as l.
  induction l as [| p l IH]; simpl; intros Hcan Hnd; [by left|].
  apply andb_prop in Hcan as [Hp Hcan].
  apply NoDup_cons in Hnd as [Hfresh Hnd].
  destruct (String.eqb_spec (itemId p) item) as [Heq | Hne].
  - right. subst item. rewrite (provided_absent l (itemId p) Hfresh).
    apply negb_true_iff, Z.ltb_ge in Hp. lia.
  - by apply IH.
Qed.

Lemma outputCount_ext st st' eid item :
  buffers st' !! eid = buffers st !! eid →
  outputCount st' eid item = outputCount st eid item.
Proof. intros H. unfold outputCount, getBuffer. by rewrite H. Qed.

(** A step of a machine without a stored buffer stores none. *)
Lemma processProducer_buffers_None dt st eid :
  buffers st !! eid = None →
  buffers (processProducer pow dt st eid) = buffers st.
Proof. intros Hb. crunch. Qed.

(** X16: a call of [processProducer] either leaves the output slots of the
    machine as they were, or it completes a cycle of a machine that has a
    stored buffer: then the machine is active, its progress is back at 0
    and every output slot has grown by what the recipe yields of that
    item.  If the product items of the recipe are distinct and no output
    slot held more than 100, none does afterwards.  For a machine without
    a stored buffer the products of a completed cycle are lost: the step
    stores no buffer and every output slot reads 0 afterwards. *)
Theorem processProducer_outputs (dt : Q) (st : State) (eid : nat) :
  let st' := processProducer pow dt st eid in
  ((∀ item, outputCount st' eid item = outputCount st eid item) ∨
   (∃ r, recipes st !! Producer_recipeId st eid = Some r ∧
         is_Some (buffers st !! eid) ∧
         canOutput (getBuffer st eid) r = true ∧
         Producer_isActive st' eid = 1%nat ∧
         Producer_progress st' eid = 0 ∧
         ∀ item, outputCount st' eid item
                 = (outputCount st eid item + provided r item)%Z)) ∧
  (∀ r, recipes st !! Producer_recipeId st eid = Some r →
        NoDup (map itemId (products r)) →
        (∀ item, (outputCount st eid item <= MAX_OUTPUT_BUFFER)%Z) →
        ∀ item, (outputCount st' eid item <= MAX_OUTPUT_BUFFER)%Z) ∧
  (buffers st !! eid = None →
   buffers st' = buffers st ∧ ∀ item, outputCount st' eid item = 0%Z).
Proof.
  cbv zeta.
  assert ((∀ item, outputCount (processProducer pow dt st eid) eid item
                   = outputCount st eid item) ∨
          (∃ r, recipes st !! Producer_recipeId st eid = Some r ∧
                is_Some (buffers st !! eid) ∧
                canOutput (getBuffer st eid) r = true ∧
                Producer_isActive (processProducer pow dt st eid) eid = 1%nat ∧
                Producer_progress (processProducer pow dt st eid) eid = 0 ∧
                ∀ item, outputCount (processProducer pow dt st eid) eid item
                        = (outputCount st eid item + provided r item)%Z)) as Hcases.
  { destruct (buffers st !! eid) as [b|] eqn:Hb.
    2:{ left. intros item. apply outputCount_ext.
        by rewrite processProducer_buffers_None. }
    destruct (recipes st !! Producer_recipeId st eid) as [r|] eqn:Hr.
    2:{ left. intros item. unfold processProducer. by rewrite Hr. }
    assert (getBuffer st eid = b) as Hgb by (unfold getBuffer; by rewrite Hb).
    unfold processProducer. rewrite Hr, Hgb.
    set (speed := Qmin _ _).
    set (st2 := setSpeed st eid speed).
    set (st3 := if Qlt_bool 0 (PowerConsumer_basePowerMW st2 eid) then _ else st2).
    assert (buffers st3 = buffers st) as Hb3.
    { unfold st3. by destruct (Qlt_bool 0 _). }
    destruct (canOutput b r) eqn:Hcan; simpl.
    2:{ left. intros item. apply outputCount_ext. simpl. by rewrite Hb3. }
    assert (∀ b' stx,
              (∀ item, slotCount (outputSlots b') item
                       = slotCount (outputSlots b) item) →
              buffers stx !! eid = Some b' →
              let sty := setProgress (setActive stx eid 1) eid
                           (Producer_progress (setActive stx eid 1) eid
                            + dt / duration r * speed) in
              let stz := if Qle_bool 1 (Producer_progress sty eid)
                         then putBuffer (setProgress sty eid 0) eid (produceOutputs b' r)
                         else sty in
              (∀ item, outputCount stz eid item = outputCount st eid item) ∨
              (Producer_isActive stz eid = 1%nat ∧ Producer_progress stz eid = 0 ∧
               ∀ item, outputCount stz eid item
                       = (outputCount st eid item + provided r item)%Z)) as Hrun.
    { intros b' stx Hout Hpk. cbv zeta.
      assert (∀ item, outputCount st eid item = slotCount (outputSlots b) item)
        as Hold.
      { intros item. unfold outputCount. by rewrite Hgb. }
      destruct (Qle_bool 1 _).
      - right. unfold putBuffer. simpl. rewrite Hpk. simpl. rewrite !upd_same.
        split; [done|]. split; [done|].
        intros item. rewrite Hold. unfold outputCount, getBuffer; simpl.
        rewrite lookup_insert_eq; simpl.
        by rewrite produceOutputs_count, Hout.
      - left. intros item. rewrite Hold. unfold outputCount, getBuffer; simpl.
        rewrite Hpk. simpl. apply Hout. }
    destruct (Qeq_bool (Producer_progress st3 eid) 0).
    - destruct (hasIngredients b r); simpl.
      + assert (putBuffer st3 eid (consumeIngredients b r)
                = setBuffer st3 eid (consumeIngredients b r)) as ->.
        { unfold putBuffer. by rewrite Hb3, Hb. }
        destruct (Hrun (consumeIngredients b r)
                       (setBuffer st3 eid (consumeIngredients b r)))
          as [Hsame | (Ha & Hp & Hout)].
        * intros item. by rewrite consumeIngredients_outputs.
        * simpl. by rewrite lookup_insert_eq.
        * by left.
        * right. exists r. split; [done|]. split; [by eexists|]. done.
      + left. intros item. apply outputCount_ext. simpl. by rewrite Hb3.
    - destruct (Hrun b st3) as [Hsame | (Ha & Hp & Hout)];
        [done | by rewrite Hb3 | by left |].
      right. exists r. split; [done|]. split; [by eexists|]. done. }
  split; [exact Hcases|]. split.
  - intros r Hr Hnd Hcap item.
    destruct Hcases as [Hsame | (r' & Hr' & _ & Hcan & _ & _ & Hout)].
    + rewrite Hsame. apply Hcap.
    + rewrite Hr in Hr'. injection Hr' as <-. rewrite Hout.
      destruct (canOutput_room _ r item Hcan Hnd) as [Hzero | Hroom].
      * rewrite Hzero, Z.add_0_r. apply Hcap.
      * exact Hroom.
  - intros Hb. pose proof (processProducer_buffers_None dt st eid Hb) as Hsame.
    split; [exact Hsame|]. intros item.
    unfold outputCount, getBuffer. by rewrite Hsame, Hb.
Qed.

(** ** One producer does not disturb another *)

Lemma processProducer_static dt st x :
  PowerConsumer_basePowerMW (processProducer pow dt st x) = PowerConsumer_basePowerMW st ∧
  PowerConsumer_networkId (processProducer pow dt st x) = PowerConsumer_networkId st ∧
  Producer_powerShards (processProducer pow dt st x) = Producer_powerShards st ∧
  activeProducerQuery (processProducer pow dt st x) = activeProducerQuery st.
Proof. repeat split; crunch. Qed.

Lemma processProducer_others dt st x e :
  e ≠ x →
  Producer_isActive (processProducer pow dt st x) e = Producer_isActive st e ∧
  PowerConsumer_currentPowerMW (processProducer pow dt st x) e
    = PowerConsumer_currentPowerMW st e ∧
  Producer_speedMultiplier (processProducer pow dt st x) e
    = Producer_speedMultiplier st e.
Proof. intros Hne. repeat split; crunch. Qed.

Lemma updateProducer_static powerGrid dt st x :
  PowerConsumer_basePowerMW (updateProducer pow powerGrid dt st x)
    = PowerConsumer_basePowerMW st ∧
  PowerConsumer_networkId (updateProducer pow powerGrid dt st x)
    = PowerConsumer_networkId st.
Proof.
  unfold updateProducer. destruct (_ && _); [done|].
  destruct (processProducer_static dt st x) as (H1 & H2 & _). done.
Qed.

Lemma updateProducer_others powerGrid dt st x e :
  e ≠ x →
  Producer_isActive (updateProducer pow powerGrid dt st x) e = Producer_isActive st e ∧
  PowerConsumer_currentPowerMW (updateProducer pow powerGrid dt st x) e
    = PowerConsumer_currentPowerMW st e ∧
  Producer_speedMultiplier (updateProducer pow powerGrid dt st x) e
    = Producer_speedMultiplier st e ∧
  Producer_progress (updateProducer pow powerGrid dt st x) e = Producer_progress st e ∧
  buffers (updateProducer pow powerGrid dt st x) !! e = buffers st !! e.
Proof.
  intros Hne. unfold updateProducer. destruct (_ && _).
  - simpl. by rewrite !upd_other.
  - destruct (processProducer_others dt st x e Hne) as (H1 & H2 & H3).
    destruct (processProducer_frame pow dt st x e Hne) as (_ & _ & H4 & H5).
    done.
Qed.

(** X17: a tick of [update] changes nothing of an entity that is not in
    the producer query.  A producer in the query that needs power and whose
    network is blacked out ends the tick inactive and with a power draw of
    0, while its progress and its buffer are as they were. *)
Theorem update_blackout (dt : Q) (powerGrid : Power.PowerGridSystem)
    (st : State) (e : nat) :
  let st' := update pow dt powerGrid st in
  (e ∉ activeProducerQuery st →
   Producer_isActive st' e = Producer_isActive st e ∧
   PowerConsumer_currentPowerMW st' e = PowerConsumer_currentPowerMW st e ∧
   Producer_speedMultiplier st' e = Producer_speedMultiplier st e ∧
   Producer_progress st' e = Producer_progress st e ∧
   buffers st' !! e = buffers st !! e) ∧
  (e ∈ activeProducerQuery st →
   0 < PowerConsumer_basePowerMW st e →
   Power.isEntityBlackedOut powerGrid (PowerConsumer_networkId st e) = true →
   Producer_isActive st' e = 0%nat ∧
   PowerConsumer_currentPowerMW st' e = 0 ∧
   Producer_progress st' e = Producer_progress st e ∧
   buffers st' !! e = buffers st !! e).
Proof.
  cbv zeta. unfold update. generalize (activeProducerQuery st) as l. intros l.
  split.
  - revert st. induction l as [| x l IH]; intros st Hnot; simpl; [done|].
    assert (e ≠ x) as Hne.
    { intros ->. apply Hnot. apply list_elem_of_here. }
    destruct (updateProducer_others powerGrid dt st x e Hne)
      as (H1 & H2 & H3 & H4 & H5).
    rewrite <- H1, <- H2, <- H3, <- H4, <- H5. apply IH.
    intros Hin. apply Hnot. by apply list_elem_of_further.
  - intros Hin Hbase Hdark.
    assert (∀ l st',
              PowerConsumer_basePowerMW st' = PowerConsumer_basePowerMW st →
              PowerConsumer_networkId st' = PowerConsumer_networkId st →
              Producer_progress st' e = Producer_progress st e →
              buffers st' !! e = buffers st !! e →
              (Producer_isActive st' e = 0%nat ∧
               PowerConsumer_currentPowerMW st' e = 0) ∨ e ∈ l →
              let st'' := foldl (updateProducer pow powerGrid dt) st' l in
              Producer_isActive st'' e = 0%nat ∧
              PowerConsumer_currentPowerMW st'' e = 0 ∧
              Producer_progress st'' e = Producer_progress st e ∧
              buffers st'' !! e = buffers st !! e) as Hfold.
    { clear l Hin. induction l as [| x l IH]; intros st' Hb Hn Hp Hbuf Hq; simpl.
      - destruct Hq as [[Ha Hc] | Hin]; [done | by apply elem_of_nil in Hin].
      - destruct (updateProducer_static powerGrid dt st' x) as [Hb' Hn'].
        destruct (decide (e = x)) as [<- | Hne].
        + assert (updateProducer pow powerGrid dt st' e
                  = setCurrentPower (setActive st' e 0) e 0) as Hstep.
          { unfold updateProducer. rewrite Hb, Hn, Hdark.
            apply PowerProofs.Qlt_bool_iff in Hbase. by rewrite Hbase. }
          apply IH; [congruence | congruence | | |].
          * by rewrite Hstep.
          * by rewrite Hstep.
          * left. rewrite Hstep. simpl. by rewrite !upd_same.
        + destruct (updateProducer_others powerGrid dt st' x e Hne)
            as (H1 & H2 & _ & H4 & H5).
          apply IH; [congruence | congruence | congruence | congruence |].
          destruct Hq as [[Ha Hc] | Hin'].
          * left. by rewrite H1, H2.
          * right. apply elem_of_cons in Hin' as [Heq | Hin']; [done | done]. }
    apply Hfold; try done. by right.
Qed.

End WithPow.

Lemma update_blackout_witness :
  Producer_isActive (update linearPow 1 darkGrid pair) 4 = 0%nat ∧
  PowerConsumer_currentPowerMW (update linearPow 1 darkGrid pair) 4 = 0 ∧
  Producer_progress (update linearPow 1 darkGrid pair) 4 = 1 # 4.
Proof.
  destruct (proj2 (update_blackout linearPow 1 darkGrid pair 4))
    as (Ha & Hc & Hp & _).
  - unfold pair; simpl. apply list_elem_of_here.
  - by vm_compute.
  - reflexivity.
  - exact (conj Ha (conj Hc Hp)).
Defined.

Lemma processProducer_outputs_witness :
  Producer_isActive (processProducer linearPow 2 (registerRecipe idle 0 pump) 4) 4
    = 1%nat ∧
  Producer_progress (processProducer linearPow 2 (registerRecipe idle 0 pump) 4) 4
    == 0 ∧
  buffers (processProducer linearPow 2 (registerRecipe idle 0 pump) 4) = ∅ ∧
  outputCount (processProducer linearPow 2 (registerRecipe idle 0 pump) 4) 4 "water"
    = 0%Z.
Proof.
  destruct (processProducer_outputs linearPow 2 (registerRecipe idle 0 pump) 4)
    as (_ & _ & Hlost).
  destruct (Hlost eq_refl) as [Hb Hout].
  split; [by vm_compute|]. split; [by vm_compute|].
  split; [by rewrite Hb | apply Hout].
Defined.

Lemma update_progress_range_witness :
  Producer_progress (update linearPow (3 # 2) Power.oneNetwork pair) 4 == 0 ∧
  Producer_progress (update linearPow (3 # 2) Power.oneNetwork pair) 5 < 1.
Proof.
  assert (∀ e, 0 <= Producer_progress (update linearPow (3 # 2) Power.oneNetwork pair) e ∧
               Producer_progress (update linearPow (3 # 2) Power.oneNetwork pair) e < 1)
    as Hall.
  { apply update_progress_range.
    - intros i r Hr. unfold pair in Hr. cbn [recipes] in Hr.
      apply lookup_singleton_Some in Hr as [_ <-]. by vm_compute.
    - by vm_compute.
    - intros e. split; by vm_compute. }
  split; [by vm_compute | apply Hall].
Defined.

Lemma processProducer_speed_and_power_witness :
  Producer_speedMultiplier (processProducer linearPow 1 pair 4) 4 == 5 # 2 ∧
  PowerConsumer_currentPowerMW (processProducer linearPow 1 pair 4) 4 == 10.
Proof.
  destruct (processProducer_speed_and_power linearPow 1 pair 4
              (mkRecipe "ingot" 2 [mkIng "iron_ore" 5] [mkIng "iron_ingot" 1])
              eq_refl) as (Hs & _ & _ & _ & Hp & _).
  split.
  - rewrite Hs. by vm_compute.
  - rewrite Hp by (by vm_compute). by vm_compute.
Defined.

(** ** Conveyors *)

Lemma slotCount_insert (slots : gmap string Z) item v item' :
  slotCount (<[item := v]> slots) item' =
  if decide (item = item') then v else slotCount slots item'.
Proof.
  unfold slotCount. destruct (decide (item = item')) as [-> | Hne].
  - by rewrite lookup_insert_eq.
  - by rewrite lookup_insert_ne.
Qed.

(** X18: [addToInput] reports min(n, 100 - current) items as accepted and
    [takeFromOutput] hands out min(n, current), where current is what the
    machine shows of the item.  For a machine that has a stored buffer a
    positive number moves the slot by exactly that much, an input slot
    within 100 stays within 100, an output slot never goes below 0, and no
    other slot is touched.  For a machine without a stored buffer both
    calls leave the system as it was: [addToInput] reports min(n, 100)
    although nothing is kept, [takeFromOutput] hands out nothing.  Neither
    call stores a buffer for an entity that had none, and after
    [removeEntity] the machine holds nothing. *)
Theorem conveyor_interface (st : State) (eid : nat) (item : string) (n : Z) :
  let put := addToInput st eid item n in
  let got := takeFromOutput st eid item n in
  (put.1 = Z.min n (100 - inputCount st eid item) ∧
   got.1 = Z.min n (outputCount st eid item))%Z ∧
  (is_Some (buffers st !! eid) →
   (inputCount put.2 eid item = inputCount st eid item + Z.max 0 put.1 ∧
    (inputCount st eid item <= 100 → inputCount put.2 eid item <= 100) ∧
    (∀ item', item' ≠ item → inputCount put.2 eid item' = inputCount st eid item') ∧
    (∀ item', outputCount put.2 eid item' = outputCount st eid item') ∧
    outputCount got.2 eid item = outputCount st eid item - Z.max 0 got.1 ∧
    (0 <= outputCount st eid item → 0 <= outputCount got.2 eid item) ∧
    (∀ item', item' ≠ item → outputCount got.2 eid item' = outputCount st eid item') ∧
    (∀ item', inputCount got.2 eid item' = inputCount st eid item'))%Z) ∧
  (buffers st !! eid = None →
   put = (Z.min n 100, st) ∧ got = (Z.min n 0, st)) ∧
  (∀ e, (buffers st !! e = None → buffers put.2 !! e = None) ∧
        (buffers st !! e = None → buffers got.2 !! e = None)) ∧
  (∀ item', inputCount (removeEntity st eid) eid item' = 0 ∧
            outputCount (removeEntity st eid) eid item' = 0)%Z.
Proof.
  cbv zeta. split; [| split; [| split; [| split]]].
  - unfold addToInput, takeFromOutput, inputCount, outputCount.
    split; by destruct (_ <? _)%Z.
  - intros [b Hb].
    unfold inputCount, outputCount, addToInput, takeFromOutput, putBuffer.
    unfold getBuffer. rewrite Hb. simpl.
    destruct (0 <? Z.min n (100 - slotCount (inputSlots b) item))%Z eqn:Hput;
      destruct (0 <? Z.min n (slotCount (outputSlots b) item))%Z eqn:Hgot; simpl;
      rewrite ?lookup_insert_eq, ?Hb; simpl;
      rewrite ?slotCount_insert, ?decide_True by done;
      try apply Z.ltb_lt in Hput; try apply Z.ltb_ge in Hput;
      try apply Z.ltb_lt in Hgot; try apply Z.ltb_ge in Hgot;
      (split_and!; try lia; try done;
       intros item' Hne; rewrite slotCount_insert; by rewrite decide_False).
  - intros Hb. split; [by apply addToInput_None|].
    unfold takeFromOutput. rewrite getBuffer_None by done.
    rewrite !putBuffer_None by done. simpl. unfold slotCount.
    rewrite lookup_empty. simpl. by destruct (_ <? _)%Z.
  - intros e. unfold addToInput, takeFromOutput, putBuffer.
    split; intros He.
    + destruct (_ <? _)%Z; simpl; [| done].
      destruct (buffers st !! eid) eqn:Hb; [| done].
      simpl. rewrite lookup_insert_ne; [done | congruence].
    + destruct (_ <? _)%Z; simpl; [| done].
      destruct (buffers st !! eid) eqn:Hb; [| done].
      simpl. rewrite lookup_insert_ne; [done | congruence].
  - intros item'. unfold inputCount, outputCount, getBuffer, removeEntity. simpl.
    by rewrite lookup_delete_eq.
Qed.

Lemma conveyor_interface_witness :
  addToInput idle 4 "iron_ore" 500 = (100%Z, idle) ∧
  takeFromOutput idle 4 "iron_ingot" 500 = (0%Z, idle) ∧
  inputCount (addToInput idle 4 "iron_ore" 500).2 4 "iron_ore" = 0%Z.
Proof.
  destruct (conveyor_interface idle 4 "iron_ore" 500) as (_ & _ & Hnone & _).
  destruct (conveyor_interface idle 4 "iron_ingot" 500) as (_ & _ & Hnone' & _).
  destruct (Hnone eq_refl) as [Hput _].
  destruct (Hnone' eq_refl) as [_ Hgot].
  split; [exact Hput|]. split; [exact Hgot|].
  rewrite Hput. reflexivity.
Defined.

End ProductionExtra.

(** * More of the command history *)

Module HistoryExtra.

Import History HistoryProofs.

Section WithHost.

Context {Host : Type}.

Implicit Types (h : CommandHistory Host) (c : Command Host) (env : Env Host).

(** ** The size of the history *)

Lemma pushed_bound (u : list (Command Host)) c :
  (length u ≤ maxHistory)%nat → (length (pushed u c) ≤ maxHistory)%nat.
Proof.
  intros Hu. unfold pushed, shift.
  destruct (maxHistory <? length (u ++ [c]))%nat eqn:Hlt.
  - destruct u as [| c0 u]; simpl in *; [lia|].
    rewrite length_app. simpl. lia.
  - by apply Nat.ltb_ge in Hlt.
Qed.

Lemma pop_length {A} (l : list A) x l' :
  pop l = Some (x, l') → length l = S (length l').
Proof.
  destruct l as [| y l _] using rev_ind; [done|].
  rewrite pop_snoc. intros [= <- <-]. rewrite length_app. simpl. lia.
Qed.

Lemma call_bound (k : Call Host) h env :
  (length (undoStack h) + length (redoStack h) ≤ maxHistory)%nat →
  (length (undoStack (call k h env).1) + length (redoStack (call k h env).1)
   ≤ maxHistory)%nat.
Proof.
  intros Hb. destruct k as [c | | |]; simpl.
  - unfold execute. destruct (cmd_execute c env) as [[] env']; simpl; [| done].
    fold (pushed (undoStack h) c). rewrite Nat.add_0_r.
    apply pushed_bound. lia.
  - unfold undo. destruct (pop (undoStack h)) as [[c u] |] eqn:Hpop; simpl; [| done].
    apply pop_length in Hpop. rewrite length_app. simpl. lia.
  - unfold redo. destruct (pop (redoStack h)) as [[c r] |] eqn:Hpop; simpl; [| done].
    apply pop_length in Hpop.
    destruct (cmd_execute c env) as [[] env']; simpl.
    + rewrite length_app. simpl. lia.
    + lia.
  - lia.
Qed.

(** X19: whatever calls of [execute], [undo], [redo] and [clear] are made
    on a new history, the two stacks together never hold more than 100
    commands.  When the undo stack is full, a successful [execute] drops
    its oldest entry, and after any successful [execute] there is nothing
    to redo: [redo] returns false and changes nothing. *)
Theorem history_bounded :
  (∀ (ks : list (Call Host)) env,
     (length (undoStack (script ks emptyHistory env).1)
      + length (redoStack (script ks emptyHistory env).1) ≤ maxHistory)%nat) ∧
  (∀ h c env env',
     length (undoStack h) = maxHistory →
     cmd_execute c env = (true, env') →
     undoStack (execute h c env).1.2 = tail (undoStack h) ++ [c]) ∧
  (∀ h c env env' env'',
     cmd_execute c env = (true, env') →
     redo (execute h c env).1.2 env''
     = (false, (execute h c env).1.2, env'')).
Proof.
  split; [| split].
  - intros ks env. unfold script.
    assert (∀ ks (st : CommandHistory Host * Env Host),
              (length (undoStack st.1) + length (redoStack st.1) ≤ maxHistory)%nat →
              (length (undoStack (foldl (fun st k => call k st.1 st.2) st ks).1)
               + length (redoStack (foldl (fun st k => call k st.1 st.2) st ks).1)
               ≤ maxHistory)%nat) as Hfold.
    { clear. induction ks as [| k ks IH]; intros st Hb; simpl; [done|].
      apply IH. by apply call_bound. }
    apply Hfold. simpl. unfold maxHistory. lia.
  - intros h c env env' Hfull Hok.
    rewrite (execute_success h c env env' Hok). simpl.
    unfold pushed, shift. rewrite length_app, Hfull. simpl.
    destruct (undoStack h) as [| c0 u]; [done|]. done.
  - intros h c env env' env'' Hok.
    rewrite (execute_success h c env env' Hok). simpl.
    by apply redo_empty.
Qed.

(** ** Placing a building *)

(** X20: undoing a [PlaceBuildingCommand] a second time does nothing, and
    undoing it after a failed [execute] does nothing either; after a
    successful [execute] the undo callback receives exactly the entity the
    execute callback returned.  The command never touches the result of
    another command object. *)
Theorem PlaceBuildingCommand_undo (self : nat) (timestamp : Z)
    (onExecute : Host → option nat * Host) (onUndo : nat → Host → Host) env :
  let c := PlaceBuildingCommand self timestamp onExecute onUndo in
  cmd_undo c (cmd_undo c env) = cmd_undo c env ∧
  (∀ env', cmd_execute c env = (false, env') → cmd_undo c env' = env') ∧
  (∀ env', cmd_execute c env = (true, env') →
     ∃ e w, onExecute (host env) = (Some e, w) ∧
             host env' = w ∧
             host (cmd_undo c env') = onUndo e w ∧
             resultEntityId (cmd_undo c env') !! self = None) ∧
  (∀ other, other ≠ self →
     resultEntityId (cmd_execute c env).2 !! other = resultEntityId env !! other ∧
     resultEntityId (cmd_undo c env) !! other = resultEntityId env !! other).
Proof.
  cbv zeta. simpl. split; [| split; [| split]].
  - destruct (resultEntityId env !! self) as [e|] eqn:He; simpl.
    + by rewrite lookup_delete_eq.
    + by rewrite He.
  - intros env'. destruct (onExecute (host env)) as [[e|] w]; [done|].
    intros [= <-]. simpl. by rewrite lookup_delete_eq.
  - intros env'. destruct (onExecute (host env)) as [[e|] w]; [| done].
    intros [= <-]. exists e, w. simpl. rewrite lookup_insert_eq. simpl.
    by rewrite lookup_delete_eq.
  - intros other Hne. split.
    + destruct (onExecute (host env)) as [[e|] w]; simpl.
      * by rewrite lookup_insert_ne.
      * by rewrite lookup_delete_ne.
    + destruct (resultEntityId env !! self) as [e|]; simpl; [| done].
      by rewrite lookup_delete_ne.
Qed.

End WithHost.

Lemma history_bounded_witness :
  redo afterB.1.2 afterB.2 = (false, afterB.1.2, afterB.2).
Proof.
  apply (proj2 (proj2 history_bounded) afterA.1.2 cmdB afterA.2
           (cmd_execute cmdB afterA.2).2 afterB.2).
  reflexivity.
Defined.

Lemma PlaceBuildingCommand_undo_witness :
  cmd_undo cmdB (cmd_execute cmdB poorB.2).2 = (cmd_execute cmdB poorB.2).2.
Proof.
  apply (proj1 (proj2 (PlaceBuildingCommand_undo 2 2000 payAndPlace removeOnly
                         poorB.2))).
  vm_compute. reflexivity.
Defined.

End HistoryExtra.

(** * More of the save manager *)

Module SaveExtra.

Import Save SaveProofs.

(** ** The checksum as a polynomial hash *)

Lemma toInt32_range x : - 2 ^ 31 <= toInt32 x < 2 ^ 31.
Proof.
  unfold toInt32. pose proof (Z.mod_pos_bound (x + 2 ^ 31) (2 ^ 32)). lia.
Qed.

Lemma toInt32_small x : - 2 ^ 31 <= x < 2 ^ 31 → toInt32 x = x.
Proof. intros Hx. unfold toInt32. rewrite Z.mod_small; lia. Qed.

Lemma toInt32_congr a b : a mod 2 ^ 32 = b mod 2 ^ 32 → toInt32 a = toInt32 b.
Proof.
  intros Hab. unfold toInt32. f_equal.
  rewrite <- (Zplus_mod_idemp_l a), <- (Zplus_mod_idemp_l b). by rewrite Hab.
Qed.

Lemma toInt32_mod x : toInt32 x mod 2 ^ 32 = x mod 2 ^ 32.
Proof.
  unfold toInt32.
  rewrite <- Zminus_mod_idemp_l, Z.mod_mod by lia.
  rewrite Zminus_mod_idemp_l. f_equal. lia.
Qed.

Lemma hashStep_poly h c :
  hashStep h c = toInt32 (31 * h + Z.of_nat (nat_of_ascii c)).
Proof.
  unfold hashStep. apply toInt32_congr.
  rewrite <- Zplus_mod_idemp_l, <- Zminus_mod_idemp_l, toInt32_mod.
  rewrite Zminus_mod_idemp_l, Zplus_mod_idemp_l.
  rewrite Z.shiftl_mul_pow2 by lia. f_equal. lia.
Qed.

Lemma fold_hash_poly (l : list ascii) (a b : Z) :
  a mod 2 ^ 32 = b mod 2 ^ 32 →
  fold_left hashStep l a mod 2 ^ 32
  = fold_left (fun h c => 31 * h + Z.of_nat (nat_of_ascii c)) l b mod 2 ^ 32.
Proof.
  revert a b. induction l as [| c l IH]; intros a b Hab; simpl; [done|].
  apply IH. rewrite hashStep_poly, toInt32_mod.
  rewrite <- Zplus_mod_idemp_l, <- Zmult_mod_idemp_r, Hab.
  by rewrite Zmult_mod_idemp_r, Zplus_mod_idemp_l.
Qed.

Lemma fold_hash_range (l : list ascii) :
  - 2 ^ 31 <= fold_left hashStep l 0 < 2 ^ 31.
Proof.
  destruct l as [| c l _] using rev_ind; [simpl; lia|].
  rewrite fold_left_app. simpl. rewrite hashStep_poly. apply toInt32_range.
Qed.

(** X21: [computeChecksum] is the base-16 text of the polynomial hash with
    multiplier 31 of the character codes, wrapped to a signed 32-bit
    integer; the wrap of the intermediate shift loses nothing.  Two texts
    whose polynomial hashes agree modulo 2^32 therefore get the same
    checksum. *)
Theorem computeChecksum_polynomial :
  (∀ data, computeChecksum data = toString16 (toInt32 (polynomialHash data))) ∧
  (∀ data1 data2,
     polynomialHash data1 mod 2 ^ 32 = polynomialHash data2 mod 2 ^ 32 →
     computeChecksum data1 = computeChecksum data2).
Proof.
  assert (∀ data, fold_left hashStep (list_ascii_of_string data) 0
                  = toInt32 (polynomialHash data)) as Hhash.
  { intros data. rewrite <- (toInt32_small _ (fold_hash_range _)).
    apply toInt32_congr. by apply fold_hash_poly. }
  split.
  - intros data. unfold computeChecksum. by rewrite Hhash.
  - intros data1 data2 Heq. unfold computeChecksum.
    rewrite !Hhash. f_equal. by apply toInt32_congr.
Qed.

Lemma computeChecksum_polynomial_witness :
  computeChecksum "Aa" = computeChecksum "BB".
Proof.
  apply (proj2 computeChecksum_polynomial). reflexivity.
Defined.

Section WithJSON.

Variable stringify : SaveData → string.
Variable parse : string → option SaveData.
Variable stringifyMeta : Z → Z → Z → string.
Variable parseMetaLastSlot : string → option Z.

Local Abbreviation save := (save stringify stringifyMeta).
Local Abbreviation saveMany := (saveMany stringify stringifyMeta).
Local Abbreviation load := (load stringify parse parseMetaLastSlot).
Local Abbreviation validate := (validate stringify parse).

(** ** Saving, then loading *)

(** X22: if the serialiser reads back the record [save] wrote, and the
    metadata it wrote, then the next [load] returns exactly that record
    and leaves the slot pointer where [save] put it, whatever the other
    slots hold.  The record is the one passed in, with the version set to
    the current one, the time stamp set to the clock and the checksum
    filled in. *)
Theorem save_load_round_trip (now : Z) (d : SaveData) (m : SaveManager)
    (st : Storage) :
  let saved := (save now d m st).1.1 in
  let m' := (save now d m st).1.2 in
  let st' := (save now d m st).2 in
  parse (stringify saved) = Some saved →
  stringify saved ≠ "" →
  parseMetaLastSlot (stringifyMeta (currentSlot m) now MAX_SAVE_SLOTS)
    = Some (currentSlot m) →
  stringifyMeta (currentSlot m) now MAX_SAVE_SLOTS ≠ "" →
  0 <= currentSlot m < MAX_SAVE_SLOTS →
  load m' st' = (Some saved, m') ∧
  version saved = SAVE_VERSION ∧ timestamp saved = now ∧
  checksum saved = computeChecksum (stringify (setChecksum "" saved)) ∧
  setChecksum "" saved = setChecksum "" (stamp SAVE_VERSION now d).
Proof.
  cbv zeta. intros Hrt Hne Hmrt Hmne Hm.
  split; [| done].
  assert (Save.startSlot parseMetaLastSlot (save now d m st).2 = currentSlot m)
    as Hstart.
  { unfold Save.startSlot, Save.save, truthy; simpl. rewrite Hmrt.
    by destruct (String.eqb_spec (stringifyMeta (currentSlot m) now MAX_SAVE_SLOTS) ""). }
  assert (slotAt (currentSlot m) 0 = currentSlot m) as Hslot.
  { rewrite slotAt_mod by (unfold MAX_SAVE_SLOTS in *; lia).
    rewrite Z.sub_0_r. apply Z.mod_small. lia. }
  assert (validate (save now d m st).2 (slotAt (currentSlot m) 0)
          = Some (save now d m st).1.1) as Hvalid.
  { apply validate_Some. exists (stringify (save now d m st).1.1).
    rewrite Hslot.
    split; [| split; [exact Hne | split; [exact Hrt | reflexivity]]].
    unfold Save.save; simpl. by rewrite lookup_insert_eq. }
  unfold Save.load. rewrite Hstart.
  change (seqZ 0 MAX_SAVE_SLOTS) with (0 :: seqZ 1 4).
  cbn [Save.loadLoop]. rewrite Hvalid, Hslot. reflexivity.
Qed.

(** ** Rotation *)

Lemma save_pointer now d m st :
  0 <= currentSlot m < MAX_SAVE_SLOTS →
  currentSlot (save now d m st).1.2 = (currentSlot m + 1) mod MAX_SAVE_SLOTS.
Proof.
  intros Hm. unfold Save.save, MAX_SAVE_SLOTS in *; simpl.
  apply Z.rem_mod_nonneg; lia.
Qed.

Lemma save_slots now d m st k :
  slotStore (save now d m st).2 !! k =
  if decide (currentSlot m = k)
  then Some (stringify (save now d m st).1.1)
  else slotStore st !! k.
Proof.
  unfold Save.save; simpl. destruct (decide (currentSlot m = k)) as [-> | Hne].
  - by rewrite lookup_insert_eq.
  - by rewrite lookup_insert_ne.
Qed.

Lemma saveMany_spec (ds : list (Z * SaveData)) (m : SaveManager) (st : Storage) :
  0 <= currentSlot m < MAX_SAVE_SLOTS →
  currentSlot (saveMany ds m st).1
    = (currentSlot m + Z.of_nat (length ds)) mod MAX_SAVE_SLOTS ∧
  (∀ k, (∀ i, 0 <= i < Z.of_nat (length ds) →
              k ≠ (currentSlot m + i) mod MAX_SAVE_SLOTS) →
        slotStore (saveMany ds m st).2 !! k = slotStore st !! k) ∧
  (∀ k, is_Some (slotStore st !! k) ∨
        (∃ i, 0 <= i < Z.of_nat (length ds) ∧
              k = (currentSlot m + i) mod MAX_SAVE_SLOTS) →
        is_Some (slotStore (saveMany ds m st).2 !! k)).
Proof.
  revert m st. induction ds as [| [now d] ds IH]; intros m st Hm.
  - simpl. split; [| split].
    + rewrite Z.add_0_r. symmetry. apply Z.mod_small. done.
    + done.
    + intros k [H | (i & Hi & _)]; [done | lia].
  - cbn [Save.saveMany].
    pose proof (save_pointer now d m st Hm) as Hptr.
    pose proof (save_slot_in_range stringify stringifyMeta now d m st Hm) as Hin.
    pose proof (save_slots now d m st) as Hslots.
    destruct (save now d m st) as [[saved m1] st1]. simpl in Hptr, Hin, Hslots.
    destruct (IH m1 st1 Hin) as (Hp & Hkeep & Hsome).
    assert (∀ i, (currentSlot m1 + i) mod MAX_SAVE_SLOTS
                 = (currentSlot m + (i + 1)) mod MAX_SAVE_SLOTS) as Hshift.
    { intros i. rewrite Hptr, Zplus_mod_idemp_l. f_equal. lia. }
    split; [| split].
    + rewrite Hp, Hshift. f_equal. simpl length. lia.
    + intros k Hk. rewrite Hkeep.
      * rewrite Hslots. rewrite decide_False; [done|].
        intros Heq. apply (Hk 0); [simpl length; lia|].
        rewrite Z.add_0_r, Z.mod_small by done. done.
      * intros i Hi. rewrite Hshift. apply Hk. simpl length. lia.
    + intros k Hk. apply Hsome.
      destruct Hk as [Hk | (i & Hi & ->)].
      * left. rewrite Hslots. destruct (decide (currentSlot m = k)); [by eexists | done].
      * destruct (decide (i = 0)) as [-> | Hi0].
        -- left. rewrite Hslots, Z.add_0_r, Z.mod_small by done.
           rewrite decide_True by done. by eexists.
        -- right. exists (i - 1). split; [simpl length in Hi; lia|].
           rewrite Hshift. f_equal. lia.
Qed.

(** X23: [save] rotates through the five slots: after n saves the slot
    pointer stands at (start + n) mod 5, a slot that is not among the n
    slots from the start on is left as it was, and from five saves on every
    slot holds a record, the sixth save having replaced the first. *)
Theorem save_rotation (ds : list (Z * SaveData)) (m : SaveManager) (st : Storage) :
  0 <= currentSlot m < MAX_SAVE_SLOTS →
  currentSlot (saveMany ds m st).1
    = (currentSlot m + Z.of_nat (length ds)) mod MAX_SAVE_SLOTS ∧
  (∀ k, (∀ i, 0 <= i < Z.of_nat (length ds) →
              k ≠ (currentSlot m + i) mod MAX_SAVE_SLOTS) →
        slotStore (saveMany ds m st).2 !! k = slotStore st !! k) ∧
  ((5 <= length ds)%nat →
   ∀ k, 0 <= k < MAX_SAVE_SLOTS → is_Some (slotStore (saveMany ds m st).2 !! k)).
Proof.
  intros Hm. destruct (saveMany_spec ds m st Hm) as (Hp & Hkeep & Hsome).
  split; [exact Hp|]. split; [exact Hkeep|].
  intros Hlen k Hk. apply Hsome. right.
  exists ((k - currentSlot m) mod MAX_SAVE_SLOTS).
  pose proof (Z.mod_pos_bound (k - currentSlot m) MAX_SAVE_SLOTS) as Hb.
  unfold MAX_SAVE_SLOTS in *. split; [lia|].
  rewrite Zplus_mod_idemp_r. replace (currentSlot m + (k - currentSlot m)) with k by lia.
  symmetry. apply Z.mod_small. lia.
Qed.

(** ** Deleting *)

Lemma lookup_foldl_delete_None (l : list Z) (s : gmap Z string) k :
  s !! k = None → foldl (fun s i => delete i s) s l !! k = None.
Proof.
  revert s. induction l as [| x l IH]; intros s Hs; simpl; [done|].
  apply IH. apply lookup_delete_None. by right.
Qed.

Lemma lookup_foldl_delete (l : list Z) (s : gmap Z string) k :
  k ∈ l → foldl (fun s i => delete i s) s l !! k = None.
Proof.
  revert s. induction l as [| x l IH]; intros s Hin; simpl.
  - by apply elem_of_nil in Hin.
  - destruct (decide (k = x)) as [-> | Hne].
    + apply lookup_foldl_delete_None. by rewrite lookup_delete_eq.
    + apply IH. apply elem_of_cons in Hin as [Heq | Hin]; done.
Qed.

(** X24: after [deleteAll], [load] finds no save, whatever the slots held
    before, and the slot pointer is back at 0, so that the next save goes
    to slot 0. *)
Theorem deleteAll_then_load (m : SaveManager) (st : Storage) :
  let m' := (deleteAll m st).1 in
  let st' := (deleteAll m st).2 in
  load m' st' = (None, mkManager 0) ∧
  (∀ k, 0 <= k < MAX_SAVE_SLOTS → slotStore st' !! k = None) ∧
  metaStore st' = None ∧
  ∀ now d, slotStore (save now d m' st').2 !! 0
           = Some (stringify (save now d m' st').1.1).
Proof.
  cbv zeta.
  assert (∀ k, 0 <= k < MAX_SAVE_SLOTS → slotStore (deleteAll m st).2 !! k = None)
    as Hgone.
  { intros k Hk.
    change (slotStore (deleteAll m st).2)
      with (foldl (fun s i => delete i s) (slotStore st) (seqZ 0 MAX_SAVE_SLOTS)).
    apply lookup_foldl_delete.
    apply elem_of_seqZ. lia. }
  split; [| split; [exact Hgone | split; [done|]]].
  - unfold Save.load.
    change (Save.startSlot parseMetaLastSlot (deleteAll m st).2) with 0.
    change (deleteAll m st).1 with (mkManager 0).
    apply loadLoop_none. intros i Hi.
    apply elem_of_seqZ in Hi.
    assert (0 <= slotAt 0 i < MAX_SAVE_SLOTS) as Hslot.
    { rewrite slotAt_mod by (unfold MAX_SAVE_SLOTS in *; lia).
      apply Z.mod_pos_bound. unfold MAX_SAVE_SLOTS. lia. }
    unfold Save.validate. by rewrite (Hgone _ Hslot).
  - intros now d. unfold Save.save; simpl. by rewrite lookup_insert_eq.
Qed.

End WithJSON.

Lemma save_load_round_trip_witness :
  load toyStringify toyParse toyParseMeta
       (save toyStringify toyStringifyMeta 1 blank (mkManager 0) emptyStorage).1.2
       (save toyStringify toyStringifyMeta 1 blank (mkManager 0) emptyStorage).2
  = (Some (toyRecord 1), mkManager 1).
Proof.
  apply (proj1 (save_load_round_trip toyStringify toyParse toyStringifyMeta
                  toyParseMeta 1 blank (mkManager 0) emptyStorage
                  ltac:(vm_compute; reflexivity)
                  ltac:(vm_compute; discriminate)
                  ltac:(vm_compute; reflexivity)
                  ltac:(vm_compute; discriminate)
                  ltac:(vm_compute; split; [discriminate | reflexivity]))).
Defined.

Lemma save_rotation_witness :
  currentSlot (saveMany toyStringify toyStringifyMeta
                 [(1, blank); (2, blank); (3, blank); (4, blank); (5, blank); (6, blank)]
                 (mkManager 3) emptyStorage).1 = 4.
Proof.
  apply (proj1 (save_rotation toyStringify toyStringifyMeta
                  [(1, blank); (2, blank); (3, blank); (4, blank); (5, blank); (6, blank)]
                  (mkManager 3) emptyStorage
                  ltac:(vm_compute; split; [discriminate | reflexivity]))).
Defined.

Lemma deleteAll_then_load_witness :
  load toyStringify toyParse toyParseMeta
       (deleteAll (fst twoSaves) (snd twoSaves)).1
       (deleteAll (fst twoSaves) (snd twoSaves)).2
  = (None, mkManager 0).
Proof.
  apply (proj1 (deleteAll_then_load toyStringify toyParse toyStringifyMeta
                  toyParseMeta (fst twoSaves) (snd twoSaves))).
Defined.

End SaveExtra.

(** * More of progression and the inventory *)

Module ProgressionExtra.

Import Progression ProgressionProofs.

(** ** Unlocking *)

Lemma findMilestone_id s mid m : findMilestone s mid = Some m → id m = mid.
Proof.
  unfold findMilestone. intros Hfind.
  apply find_some in Hfind as [_ Heq]. by apply String.eqb_eq in Heq.
Qed.

Lemma unlockMilestone_grows s mid :
  milestones (unlockMilestone s mid).2 = milestones s ∧
  milestoneProgress (unlockMilestone s mid).2 = milestoneProgress s ∧
  unlockedMilestones s ⊆ unlockedMilestones (unlockMilestone s mid).2 ∧
  unlockedRecipeSet s ⊆ unlockedRecipeSet (unlockMilestone s mid).2 ∧
  unlockedBuildingSet s ⊆ unlockedBuildingSet (unlockMilestone s mid).2.
Proof.
  unfold unlockMilestone. destruct (decide (mid ∈ unlockedMilestones s)); [done|].
  destruct (findMilestone s mid); simpl; [| done].
  repeat split; set_solver.
Qed.

(** X25: [unlockMilestone] succeeds exactly for a known milestone that is
    not unlocked yet; it then unlocks the milestone with all its recipes
    and buildings and takes it off the list of available milestones.  A
    failed call changes nothing, a second call always fails, and nothing
    that was unlocked is ever locked again. *)
Theorem unlockMilestone_spec (s : ProgressionSystem) (mid : string) :
  let ok := (unlockMilestone s mid).1 in
  let s' := (unlockMilestone s mid).2 in
  (ok = true ↔ (mid ∉ unlockedMilestones s) ∧ is_Some (findMilestone s mid)) ∧
  (ok = false → s' = s) ∧
  (∀ m, ok = true → findMilestone s mid = Some m →
        isMilestoneUnlocked s' mid = true ∧
        (∀ r, r ∈ unlockedRecipes m → isRecipeUnlocked s' r = true) ∧
        (∀ b, b ∈ unlockedBuildings m → isBuildingUnlocked s' b = true) ∧
        m ∉ getAvailableMilestones s' (tier m)) ∧
  (unlockedMilestones s ⊆ unlockedMilestones s' ∧
   unlockedRecipeSet s ⊆ unlockedRecipeSet s' ∧
   unlockedBuildingSet s ⊆ unlockedBuildingSet s') ∧
  unlockMilestone s' mid = (false, s').
Proof.
  cbv zeta.
  split; [| split; [| split; [| split; [apply unlockMilestone_grows|]]]].
  - unfold unlockMilestone.
    destruct (decide (mid ∈ unlockedMilestones s)) as [Hin | Hnot]; simpl.
    + split; [done | by intros [? _]].
    + destruct (findMilestone s mid) as [m|]; simpl.
      * split; [by intros _; split | done].
      * split; [done | by intros [_ [? ?]]].
  - unfold unlockMilestone.
    destruct (decide (mid ∈ unlockedMilestones s)); [done|].
    by destruct (findMilestone s mid).
  - intros m Hok Hfind. unfold unlockMilestone in *. rewrite Hfind in *.
    destruct (decide (mid ∈ unlockedMilestones s)); [done|]. simpl.
    unfold isMilestoneUnlocked, isRecipeUnlocked, isBuildingUnlocked; simpl.
    split; [apply bool_decide_eq_true; set_solver|].
    split; [intros r Hr; apply bool_decide_eq_true; set_solver|].
    split; [intros b Hb; apply bool_decide_eq_true; set_solver|].
    unfold getAvailableMilestones; simpl. intros Hin.
    apply list_elem_of_filter in Hin as [[_ Hnot] _].
    apply Hnot. rewrite (findMilestone_id s mid m Hfind). set_solver.
  - unfold unlockMilestone.
    destruct (decide (mid ∈ unlockedMilestones s)) as [Hin | Hnot]; simpl.
    + by rewrite decide_True.
    + destruct (findMilestone s mid) as [m|] eqn:Hfind; simpl.
      * rewrite decide_True; [done | set_solver].
      * by rewrite decide_False, Hfind.
Qed.

Lemma unlockMilestone_spec_witness :
  isRecipeUnlocked (unlockMilestone startSystem "hub_1").2 "recipe_rod" = true ∧
  isBuildingUnlocked (unlockMilestone startSystem "hub_1").2 "constructor" = true.
Proof.
  destruct (proj1 (proj2 (proj2 (unlockMilestone_spec startSystem "hub_1")))
              plateMilestone eq_refl eq_refl) as (_ & Hr & Hb & _).
  split.
  - apply Hr. simpl. apply list_elem_of_here.
  - apply Hb. simpl. apply list_elem_of_here.
Defined.

(** ** The player inventory *)

(** X26: [addToPlayer] raises the count of the item by the amount and
    touches no other item.  [removeFromPlayer] with a positive amount and
    a non-negative count takes min(count, amount), lowers the count by
    that much and drops the entry when nothing is left; with nothing to
    take it changes nothing.  Removing what was just added gives the old
    count back, and [playerHas] tells when a removal will be complete. *)
Theorem inventory_spec (inv : InventorySystem) (item : string) (n : Z) :
  (getPlayerCount (addToPlayer inv item n) item = getPlayerCount inv item + n ∧
   ∀ other, other ≠ item →
            getPlayerCount (addToPlayer inv item n) other = getPlayerCount inv other) ∧
  (Z.min (getPlayerCount inv item) n <= 0 →
   removeFromPlayer inv item n = (Z.min (getPlayerCount inv item) n, inv)) ∧
  (0 < n → 0 <= getPlayerCount inv item →
   let removed := (removeFromPlayer inv item n).1 in
   let inv' := (removeFromPlayer inv item n).2 in
   removed = Z.min (getPlayerCount inv item) n ∧ 0 <= removed <= n ∧
   getPlayerCount inv' item = getPlayerCount inv item - removed ∧
   (0 < getPlayerCount inv item <= n → playerInventory inv' !! item = None) ∧
   (playerHas inv item n = true → removed = n)) ∧
  (0 < n → 0 <= getPlayerCount inv item →
   (removeFromPlayer (addToPlayer inv item n) item n).1 = n ∧
   getPlayerCount (removeFromPlayer (addToPlayer inv item n) item n).2 item
   = getPlayerCount inv item).
Proof.
  assert (getPlayerCount (addToPlayer inv item n) item = getPlayerCount inv item + n)
    as Hadd.
  { unfold addToPlayer, getPlayerCount at 1; simpl. by rewrite lookup_insert_eq. }
  split; [| split; [| split]].
  - split; [exact Hadd|]. intros other Hne.
    unfold addToPlayer, getPlayerCount at 1; simpl.
    by rewrite lookup_insert_ne.
  - intros Hle. unfold removeFromPlayer.
    destruct (0 <? Z.min (getPlayerCount inv item) n) eqn:Hpos; [| done].
    apply Z.ltb_lt in Hpos. lia.
  - intros Hn Hc. cbv zeta.
    destruct (removeFromPlayer_spec inv item n Hn Hc) as [Hr Hcount].
    split; [exact Hr|]. split; [lia|]. split; [exact Hcount|]. split.
    + intros Hall. unfold removeFromPlayer.
      destruct (0 <? Z.min (getPlayerCount inv item) n) eqn:Hpos; simpl.
      * rewrite Z.min_l by lia. rewrite Z.sub_diag. simpl.
        by rewrite lookup_delete_eq.
      * apply Z.ltb_ge in Hpos. lia.
    + intros Hhas. unfold playerHas in Hhas. apply Z.leb_le in Hhas. lia.
  - intros Hn Hc.
    assert (0 <= getPlayerCount (addToPlayer inv item n) item) as Hc' by lia.
    destruct (removeFromPlayer_spec (addToPlayer inv item n) item n Hn Hc')
      as [Hr Hcount].
    rewrite Hcount, Hr, Hadd. lia.
Qed.

Lemma inventory_spec_witness :
  (removeFromPlayer pocket "iron_plate" 5).1 = 3 ∧
  playerInventory (removeFromPlayer pocket "iron_plate" 5).2 !! "iron_plate" = None.
Proof.
  destruct (proj1 (proj2 (proj2 (inventory_spec pocket "iron_plate" 5)))
              ltac:(lia) ltac:(vm_compute; discriminate))
    as (Hr & _ & _ & Hgone & _).
  split.
  - rewrite Hr. reflexivity.
  - apply Hgone. vm_compute. split; [reflexivity | discriminate].
Defined.

(** ** Deliveries never take anything back *)

Lemma ensureProgress_fields s mid :
  milestones (ensureProgress s mid).2 = milestones s ∧
  unlockedMilestones (ensureProgress s mid).2 = unlockedMilestones s ∧
  unlockedRecipeSet (ensureProgress s mid).2 = unlockedRecipeSet s ∧
  unlockedBuildingSet (ensureProgress s mid).2 = unlockedBuildingSet s ∧
  ∀ other, other ≠ mid →
    milestoneProgress (ensureProgress s mid).2 !! other = milestoneProgress s !! other.
Proof.
  unfold ensureProgress. destruct (milestoneProgress s !! mid); simpl; [done|].
  repeat split. intros other Hne. by rewrite lookup_insert_ne.
Qed.

(** The system a call of [deliverToMilestone] leaves, by the way the call
    ends. *)
Lemma deliverToMilestone_shape s mid item a inv :
  let s' := (deliverToMilestone s mid item a inv).1.2 in
  let s1 := (ensureProgress s mid).2 in
  s' = s ∨ s' = s1 ∨
  (∃ p1, isComplete p1 = isComplete (progressOf s mid) ∧
         s' = setProgress s1 mid p1) ∨
  (∃ m p1, findMilestone s mid = Some m ∧
           isComplete (progressOf s mid) = false ∧
           s' = (unlockMilestone
                   (setProgress (setProgress s1 mid p1) mid
                      (mkProgress (milestoneId p1) (delivered p1) true)) mid).2).
Proof.
  cbv zeta. unfold deliverToMilestone.
  destruct (findMilestone s mid) as [m|] eqn:Hfind; [| by left].
  rewrite ensureProgress_fst.
  destruct (isComplete (progressOf s mid)) eqn:Hc; [by right; left|].
  destruct (findRequirement m item) as [req|]; [| by right; left].
  destruct (Z.min a _ <=? 0); [by right; left|].
  set (p1 := if 0 <? _ then _ else progressOf s mid).
  assert (isComplete p1 = false) as Hp1.
  { unfold p1. by destruct (0 <? _). }
  destruct (allDelivered m p1); simpl.
  - right; right; right. by exists m, p1.
  - right; right; left. by exists p1.
Qed.

(** X27: a call of [deliverToMilestone] never removes a milestone, a
    recipe or a building from the unlocked sets, never reopens a complete
    milestone and never touches the progress of another milestone.  When
    it completes a milestone that was not unlocked before, all recipes and
    buildings of that milestone are unlocked afterwards. *)
Theorem deliverToMilestone_monotone (s : ProgressionSystem) (mid item : string)
    (a : Z) (inv : InventorySystem) :
  let s' := (deliverToMilestone s mid item a inv).1.2 in
  milestones s' = milestones s ∧
  unlockedMilestones s ⊆ unlockedMilestones s' ∧
  unlockedRecipeSet s ⊆ unlockedRecipeSet s' ∧
  unlockedBuildingSet s ⊆ unlockedBuildingSet s' ∧
  (isComplete (progressOf s mid) = true → isComplete (progressOf s' mid) = true) ∧
  (∀ other, other ≠ mid →
     milestoneProgress s' !! other = milestoneProgress s !! other) ∧
  (∀ m, findMilestone s mid = Some m →
        isComplete (progressOf s mid) = false →
        isComplete (progressOf s' mid) = true →
        mid ∉ unlockedMilestones s →
        (∀ r, r ∈ unlockedRecipes m → isRecipeUnlocked s' r = true) ∧
        (∀ b, b ∈ unlockedBuildings m → isBuildingUnlocked s' b = true)).
Proof.
  cbv zeta.
  destruct (ensureProgress_fields s mid) as (Hm1 & Hu1 & Hr1 & Hb1 & Ho1).
  destruct (ensureProgress_snd s mid) as (Hp1 & _ & _).
  destruct (deliverToMilestone_shape s mid item a inv)
    as [-> | [-> | [(p1 & Hc & ->) | (m & p1 & Hfind & Hc & ->)]]].
  - split_and!; try done. intros m _ Hc Hc'. congruence.
  - rewrite Hm1, Hu1, Hr1, Hb1, Hp1. split_and!; try done.
    intros m _ Hc Hc'. congruence.
  - simpl. rewrite Hm1, Hu1, Hr1, Hb1, progressOf_setProgress, Hc.
    split_and!; try done.
    + intros other Hne. rewrite lookup_insert_ne by done. by apply Ho1.
    + intros m _ Hc1 Hc'. congruence.
  - set (s2 := setProgress (setProgress (ensureProgress s mid).2 mid p1) mid
                 (mkProgress (milestoneId p1) (delivered p1) true)).
    destruct (unlockMilestone_grows s2 mid) as (Hm2 & Hp2 & Hu2 & Hr2 & Hb2).
    assert (findMilestone s2 mid = Some m) as Hfind2.
    { unfold findMilestone, s2. simpl. rewrite Hm1. exact Hfind. }
    rewrite Hm2. simpl. rewrite Hm1.
    split; [done|]. split; [by rewrite <- Hu1|]. split; [by rewrite <- Hr1|].
    split; [by rewrite <- Hb1|]. split; [congruence|]. split.
    + intros other Hne. rewrite Hp2. simpl.
      rewrite !lookup_insert_ne by done. by apply Ho1.
    + intros m' Hm' _ _ Hnot. rewrite Hfind in Hm'. injection Hm' as <-.
      unfold isRecipeUnlocked, isBuildingUnlocked, unlockMilestone.
      rewrite Hfind2. rewrite decide_False by (simpl; by rewrite Hu1). simpl.
      split; intros x Hx; apply bool_decide_eq_true; clear -Hx; set_solver.
Qed.

Lemma deliverToMilestone_monotone_witness :
  isRecipeUnlocked (deliverToMilestone startSystem "hub_1" "iron_plate" 9 fullPocket).1.2
                   "recipe_rod" = true.
Proof.
  destruct (deliverToMilestone_monotone startSystem "hub_1" "iron_plate" 9 fullPocket)
    as (_ & _ & _ & _ & _ & _ & Hdone).
  apply (proj1 (Hdone plateMilestone eq_refl eq_refl
                  ltac:(vm_compute; reflexivity) ltac:(set_solver))).
  simpl. apply list_elem_of_here.
Defined.

(** ** The space elevator *)

Lemma phaseDelivered_Forall ph :
  phaseDelivered ph = true ↔
  Forall (fun c => amount c <= phaseCount ph (itemId c)) (requirements ph).
Proof.
  unfold phaseDelivered. rewrite forallb_forall, Forall_forall. split.
  - intros H c Hc. apply Z.leb_le, H. by apply list_elem_of_In.
  - intros H c Hc. apply Z.leb_le, H. by apply list_elem_of_In.
Qed.

(** X28: [deliverToSpaceElevator] works on the current phase only and
    moves the phase index by at most one.  Once the last phase is done it
    accepts nothing.  For a requested amount a >= 0, a non-negative
    inventory count and a tally within the requirement it removes exactly
    min(a, still needed, present) from the inventory and adds it to the
    tally of the item, which stays within the requirement; and a call that
    has something to deliver completes the phase and advances to the next
    one exactly when every requirement of the phase is met. *)
Theorem deliverToSpaceElevator_spec (e : SpaceElevator) (item : string) (n : Z)
    (inv : InventorySystem) :
  let removed := (deliverToSpaceElevator e item n inv).1.1 in
  let e' := (deliverToSpaceElevator e item n inv).1.2 in
  let inv' := (deliverToSpaceElevator e item n inv).2 in
  (length (spaceElevatorPhases e') = length (spaceElevatorPhases e) ∧
   (currentPhase e' = currentPhase e ∨ currentPhase e' = S (currentPhase e)) ∧
   ∀ i, i ≠ currentPhase e →
        spaceElevatorPhases e' !! i = spaceElevatorPhases e !! i) ∧
  (spaceElevatorPhases e !! currentPhase e = None →
   removed = 0 ∧ e' = e ∧ inv' = inv) ∧
  (∀ ph req,
     spaceElevatorPhases e !! currentPhase e = Some ph →
     phase_isComplete ph = false →
     find (fun r => String.eqb (itemId r) item) (requirements ph) = Some req →
     0 <= n → 0 <= getPlayerCount inv item → phaseCount ph item <= amount req →
     removed = Z.min n (Z.min (amount req - phaseCount ph item)
                              (getPlayerCount inv item)) ∧
     getPlayerCount inv' item = getPlayerCount inv item - removed ∧
     ∃ ph', spaceElevatorPhases e' !! currentPhase e = Some ph' ∧
            requirements ph' = requirements ph ∧
            phaseCount ph' item = phaseCount ph item + removed ∧
            (∀ other, other ≠ item → phaseCount ph' other = phaseCount ph other) ∧
            phaseCount ph' item <= amount req ∧
            (0 < Z.min n (amount req - phaseCount ph item) →
             (currentPhase e' = S (currentPhase e) ∧ phase_isComplete ph' = true) ↔
             Forall (fun c => amount c <= phaseCount ph' (itemId c))
                    (requirements ph))).
Proof.
  cbv zeta. split; [| split].
  - unfold deliverToSpaceElevator.
    destruct (spaceElevatorPhases e !! currentPhase e) as [ph|]; [| by auto].
    destruct (phase_isComplete ph); [by auto|].
    destruct (find _ (requirements ph)) as [req|]; [| by auto].
    destruct (Z.min n _ <=? 0); [by auto|].
    set (ph1 := if 0 <? _ then _ else ph).
    destruct (phaseDelivered ph1); simpl; rewrite length_insert.
    + split; [done|]. split; [by right|].
      intros i Hi. by rewrite list_lookup_insert_ne.
    + split; [done|]. split; [by left|].
      intros i Hi. by rewrite list_lookup_insert_ne.
  - intros Hnone. unfold deliverToSpaceElevator. by rewrite Hnone.
  - intros ph req Hph Hopen Hreq Hn Hcount Hwithin.
    pose proof (lookup_lt_Some _ _ _ Hph) as Hlt.
    unfold deliverToSpaceElevator. rewrite Hph, Hopen, Hreq.
    destruct (Z.min n (amount req - phaseCount ph item) <=? 0) eqn:Hto.
    + apply Z.leb_le in Hto. simpl.
      assert (Z.min n (Z.min (amount req - phaseCount ph item)
                             (getPlayerCount inv item)) = 0) as -> by lia.
      split; [done|]. split; [lia|]. exists ph. rewrite Hph.
      split; [done|]. split; [done|]. split; [lia|]. split; [done|].
      split; [done|]. lia.
    + apply Z.leb_gt in Hto.
      destruct (removeFromPlayer_spec inv item
                  (Z.min n (amount req - phaseCount ph item)) Hto Hcount)
        as [Hr Hleft].
      set (removed := (removeFromPlayer inv item _).1) in *.
      set (ph1 := if 0 <? removed then _ else ph).
      assert (requirements ph1 = requirements ph) as Hreq1.
      { unfold ph1. by destruct (0 <? removed). }
      assert (phase_isComplete ph1 = false) as Hopen1.
      { unfold ph1. by destruct (0 <? removed). }
      assert (phaseCount ph1 item = phaseCount ph item + removed) as Hc1.
      { unfold ph1. destruct (0 <? removed) eqn:Hpos.
        - unfold phaseCount at 1; simpl. by rewrite lookup_insert_eq.
        - apply Z.ltb_ge in Hpos. lia. }
      assert (∀ other, other ≠ item → phaseCount ph1 other = phaseCount ph other)
        as Ho1.
      { intros other Hne. unfold ph1. destruct (0 <? removed); [| done].
        unfold phaseCount at 1; simpl. by rewrite lookup_insert_ne. }
      destruct (phaseDelivered ph1) eqn:Hall; simpl.
      * split; [lia|]. split; [exact Hleft|].
        eexists. rewrite list_lookup_insert_eq by done.
        split; [done|]. simpl.
        split; [exact Hreq1|].
        split; [exact Hc1|]. split; [exact Ho1|]. split; [change (phaseCount ph1 item <= amount req); lia|].
        intros _. split; [| done].
        intros _. apply phaseDelivered_Forall in Hall. by rewrite Hreq1 in Hall.
      * split; [lia|]. split; [exact Hleft|].
        exists ph1. rewrite list_lookup_insert_eq by done.
        split; [done|]. split; [exact Hreq1|].
        split; [exact Hc1|]. split; [exact Ho1|]. split; [lia|].
        intros _. split.
        -- intros [Hadv _]. lia.
        -- intros Hmet. rewrite <- Hreq1 in Hmet.
           apply phaseDelivered_Forall in Hmet. congruence.
Qed.

Lemma deliverToSpaceElevator_spec_witness :
  (deliverToSpaceElevator newElevator "Desc_SpaceElevatorPart_1_C" 80 platingPocket).1.1
  = 50 ∧
  getPlayerCount
    (deliverToSpaceElevator newElevator "Desc_SpaceElevatorPart_1_C" 80 platingPocket).2
    "Desc_SpaceElevatorPart_1_C" = 10 ∧
  currentPhase
    (deliverToSpaceElevator newElevator "Desc_SpaceElevatorPart_1_C" 80 platingPocket).1.2
  = 1%nat.
Proof.
  destruct (proj2 (proj2 (deliverToSpaceElevator_spec newElevator
                            "Desc_SpaceElevatorPart_1_C" 80 platingPocket))
              (mkPhase 1 [ mkIngredient "Desc_SpaceElevatorPart_1_C" 50 ] ∅ false)
              (mkIngredient "Desc_SpaceElevatorPart_1_C" 50)
              eq_refl eq_refl eq_refl
              ltac:(lia) ltac:(vm_compute; discriminate)
              ltac:(vm_compute; discriminate))
    as (Hr & Hcount & _).
  split; [| split].
  - rewrite Hr. reflexivity.
  - rewrite Hcount, Hr. reflexivity.
  - reflexivity.
Defined.

End ProgressionExtra.

(** * The game loop *)

Module EngineExtra.

Import Engine.
Local Open Scope Q_scope.

Lemma TICK_INTERVAL_pos : 0 < TICK_INTERVAL.
Proof. by vm_compute. Qed.

Lemma Qnat_S (n : nat) : Qnat (S n) == Qnat n + 1.
Proof.
  unfold Qnat. rewrite Nat2Z.inj_succ, <- Z.add_1_r, inject_Z_plus. reflexivity.
Qed.

Lemma Qnat_nonneg (n : nat) : 0 <= Qnat n.
Proof. unfold Qnat. change 0 with (inject_Z 0). rewrite <- Zle_Qle. lia. Qed.

(** The [while] loop with enough rounds: it stops because its condition
    fails, after some number [k] of ticks. *)
Lemma drain_spec (fuel : nat) (e : Engine) :
  tickAccumulator e < Qnat (S fuel) * TICK_INTERVAL →
  tickAccumulator (drain fuel e) < TICK_INTERVAL ∧
  (0 <= tickAccumulator e → 0 <= tickAccumulator (drain fuel e)) ∧
  isRunning (drain fuel e) = isRunning e ∧
  isPaused (drain fuel e) = isPaused e ∧
  lastTickTime (drain fuel e) = lastTickTime e ∧
  ∃ k : nat,
    gameTime (drain fuel e) == gameTime e + Qnat k * (TICK_INTERVAL / 1000) ∧
    tickAccumulator (drain fuel e) == tickAccumulator e - Qnat k * TICK_INTERVAL.
Proof.
  pose proof TICK_INTERVAL_pos as Hpos.
  revert e. induction fuel as [| fuel IH]; intros e Hfuel.
  - simpl. rewrite Qnat_S in Hfuel. change (Qnat 0) with 0 in Hfuel.
    split; [lra|]. split; [done|]. split; [done|]. split; [done|]. split; [done|].
    exists 0%nat. change (Qnat 0) with 0. split; ring.
  - cbn [drain]. destruct (Qle_bool TICK_INTERVAL (tickAccumulator e)) eqn:Hle.
    + apply Qle_bool_iff in Hle.
      set (e1 := mkEngine _ _ _ _ _).
      destruct (IH e1) as (Hlt & Hnn & Hr & Hp & Hl & k & Hg & Ha).
      { unfold e1; simpl. rewrite Qnat_S in Hfuel. lra. }
      split; [exact Hlt|].
      split; [intros _; apply Hnn; unfold e1; simpl; lra|].
      split; [exact Hr|]. split; [exact Hp|]. split; [exact Hl|].
      exists (S k). rewrite Hg, Ha. unfold e1; simpl. rewrite Qnat_S.
      split; ring.
    + apply PowerProofs.Qle_bool_false in Hle.
      split; [exact Hle|]. split; [done|]. split; [done|]. split; [done|].
      split; [done|].
      exists 0%nat. change (Qnat 0) with 0. split; ring.
Qed.

Lemma rounds_enough (acc : Q) :
  acc < Qnat (S (rounds acc)) * TICK_INTERVAL.
Proof.
  pose proof TICK_INTERVAL_pos as Hpos.
  pose proof (Qlt_floor (acc / TICK_INTERVAL)) as Hfl.
  assert (inject_Z (Qfloor (acc / TICK_INTERVAL) + 1) <= Qnat (S (rounds acc)))
    as Hup.
  { unfold Qnat, rounds. rewrite <- Zle_Qle. lia. }
  assert (acc / TICK_INTERVAL < Qnat (S (rounds acc))) as Hq by lra.
  apply (Qmult_lt_compat_r _ _ TICK_INTERVAL) in Hq; [| exact Hpos].
  assert (acc / TICK_INTERVAL * TICK_INTERVAL == acc) as Hback.
  { unfold TICK_INTERVAL, TICK_RATE. field. }
  by rewrite Hback in Hq.
Qed.

(** X29: a frame of a stopped engine changes nothing, and a frame of a
    paused one only records the time, so that paused time is never
    simulated.  Otherwise the frame runs a whole number k of ticks of 1/30
    second and leaves less than one tick interval in the accumulator:
    the loop ends because its condition fails, and the simulated time plus
    what is left over equals what was there plus the time since the last
    frame. *)
Theorem loop_spec (currentTime : Q) (e : Engine) :
  (isRunning e = false → loop currentTime e = e) ∧
  (isRunning e = true → isPaused e = true →
   gameTime (loop currentTime e) = gameTime e ∧
   tickAccumulator (loop currentTime e) = tickAccumulator e ∧
   lastTickTime (loop currentTime e) = currentTime) ∧
  (isRunning e = true → isPaused e = false →
   let e' := loop currentTime e in
   let elapsed := currentTime - lastTickTime e in
   lastTickTime e' = currentTime ∧
   tickAccumulator e' < TICK_INTERVAL ∧
   (0 <= tickAccumulator e + elapsed → 0 <= tickAccumulator e') ∧
   (∃ k : nat,
      gameTime e' == gameTime e + Qnat k / TICK_RATE ∧
      tickAccumulator e' == tickAccumulator e + elapsed - Qnat k * TICK_INTERVAL) ∧
   gameTime e' * 1000 + tickAccumulator e'
   == gameTime e * 1000 + tickAccumulator e + elapsed).
Proof.
  split; [| split].
  - intros Hrun. unfold loop. by rewrite Hrun.
  - intros Hrun Hpause. unfold loop. rewrite Hrun. simpl. by rewrite Hpause.
  - intros Hrun Hpause. cbv zeta.
    set (e1 := mkEngine true false (gameTime e) currentTime
                 (tickAccumulator e + (currentTime - lastTickTime e))).
    assert (loop currentTime e = drain (rounds (tickAccumulator e1)) e1) as ->.
    { unfold loop, e1. rewrite Hrun. cbn [negb isPaused]. by rewrite Hpause. }
    destruct (drain_spec (rounds (tickAccumulator e1)) e1 (rounds_enough _))
      as (Hlt & Hnn & _ & _ & Hl & k & Hg & Ha).
    split; [exact Hl|]. split; [exact Hlt|]. split; [exact Hnn|].
    split.
    + exists k. rewrite Hg, Ha. unfold e1. cbn [gameTime tickAccumulator].
      unfold TICK_INTERVAL, TICK_RATE. split; field.
    + rewrite Hg, Ha. unfold e1. cbn [gameTime tickAccumulator].
      unfold TICK_INTERVAL, TICK_RATE. field.
Qed.

Lemma loop_spec_witness :
  tickAccumulator (loop 1100 midFrame) < TICK_INTERVAL ∧
  gameTime (loop 1100 midFrame) * 1000 + tickAccumulator (loop 1100 midFrame)
  == 2 * 1000 + 10 + 100.
Proof.
  destruct (proj2 (proj2 (loop_spec 1100 midFrame)) eq_refl eq_refl)
    as (_ & Hlt & _ & _ & Hsum).
  split; [exact Hlt|]. rewrite Hsum. by vm_compute.
Defined.

End EngineExtra.

(** * Resource nodes *)

Module ChunkGenExtra.

Import Grid GridProofs ChunkGen.

(** ** Drawing numbers *)

Lemma mulberry32_range (seed : Z) :
  (0 <= (mulberry32 seed).1 < 1)%Q.
Proof.
  unfold mulberry32; cbv zeta. cbn [fst].
  set (x := xor32 _ _).
  assert (0 <= ushr x 0 < 4294967296) as [Hlo Hhi].
  { unfold ushr, toUint32. rewrite Z.shiftr_0_r.
    change 4294967296 with (2 ^ 32). apply Z.mod_pos_bound. lia. }
  split.
  - apply Qle_shift_div_l; [by vm_compute|].
    rewrite Qmult_0_l. change 0%Q with (inject_Z 0). by rewrite <- Zle_Qle.
  - apply Qlt_shift_div_r; [by vm_compute|].
    rewrite Qmult_1_l. change 4294967296%Q with (inject_Z 4294967296).
    by rewrite <- Zlt_Qlt.
Qed.

Lemma Qfloor_range (q : Q) (n : Z) :
  (0 <= q)%Q → (q < inject_Z n)%Q → 0 <= Qfloor q < n.
Proof.
  intros Hlo Hhi.
  pose proof (Qfloor_le q) as Hfl. pose proof (Qlt_floor q) as Hfu.
  split.
  - assert (inject_Z 0 < inject_Z (Qfloor q + 1))%Q as H
      by (apply Qle_lt_trans with q; [exact Hlo | exact Hfu]).
    rewrite <- Zlt_Qlt in H. lia.
  - assert (inject_Z (Qfloor q) < inject_Z n)%Q as H
      by (apply Qle_lt_trans with q; [exact Hfl | exact Hhi]).
    by rewrite <- Zlt_Qlt in H.
Qed.

Lemma draw_below (seed n : Z) :
  0 < n → 0 <= Qfloor ((mulberry32 seed).1 * inject_Z n)%Q < n.
Proof.
  intros Hn. destruct (mulberry32_range seed) as [Hlo Hhi].
  assert (0 < inject_Z n)%Q as HnQ.
  { change 0%Q with (inject_Z 0). by rewrite <- Zlt_Qlt. }
  apply Qfloor_range.
  - by apply Qmult_le_0_compat; [| apply Qlt_le_weak].
  - rewrite <- (Qmult_1_l (inject_Z n)) at 2.
    by apply Qmult_lt_compat_r.
Qed.

(** ** Where the nodes are *)

(** A node of chunk (cx, cz): on the ground floor, inside the chunk, at
    least two cells from its border. *)
Lemma node_inside (cx cz lx lz : Z) :
  2 <= lx <= 29 → 2 <= lz <= 29 →
  let pos := mkPos (cx * CHUNK_SIZE + lx) 0 (cz * CHUNK_SIZE + lz) in
  positionToChunk pos = mkChunkCoord cx cz ∧ positionToLocal pos = (lx, lz).
Proof.
  intros Hx Hz. cbv zeta. split.
  - unfold positionToChunk; simpl. rewrite !floor_div_spec. unfold CHUNK_SIZE.
    f_equal.
    + rewrite Z.add_comm, Z.div_add by lia. rewrite Z.div_small; lia.
    + rewrite Z.add_comm, Z.div_add by lia. rewrite Z.div_small; lia.
  - rewrite positionToLocal_spec; simpl. unfold CHUNK_SIZE. f_equal.
    + rewrite Z.add_comm, Z.mod_add by lia. apply Z.mod_small. lia.
    + rewrite Z.add_comm, Z.mod_add by lia. apply Z.mod_small. lia.
Qed.

Lemma generateNodes_spec (n : nat) (cx cz : Z) (isStartArea : bool) (seed : Z) :
  length (generateNodes n cx cz isStartArea seed) = n ∧
  Forall (fun node =>
            pos_y (position node) = 0 ∧
            positionToChunk (position node) = mkChunkCoord cx cz ∧
            2 <= (positionToLocal (position node)).1 <= 29 ∧
            2 <= (positionToLocal (position node)).2 <= 29)
         (generateNodes n cx cz isStartArea seed).
Proof.
  revert seed. induction n as [| n IH]; intros seed; [by split|].
  cbn [generateNodes].
  pose proof (draw_below seed (CHUNK_SIZE - 4) ltac:(by vm_compute)) as Hx.
  destruct (mulberry32 seed) as [r1 s1]. cbn [fst] in Hx.
  pose proof (draw_below s1 (CHUNK_SIZE - 4) ltac:(by vm_compute)) as Hz.
  destruct (mulberry32 s1) as [r2 s2]. cbn [fst] in Hz.
  destruct (if isStartArea then _ else _) as [rt s3].
  destruct (pickWeightedPurity s3) as [pu s4].
  destruct (IH s4) as [Hlen Hall].
  split; [simpl; by rewrite Hlen|].
  constructor; [| exact Hall].
  cbn [position].
  set (lx := Qfloor (r1 * inject_Z (CHUNK_SIZE - 4))) in *.
  set (lz := Qfloor (r2 * inject_Z (CHUNK_SIZE - 4))) in *.
  unfold CHUNK_SIZE in Hx, Hz.
  destruct (node_inside cx cz (lx + 2) (lz + 2)) as [Hchunk Hlocal]; [lia | lia |].
  rewrite Hchunk, Hlocal. cbn [fst snd pos_y].
  split; [done|]. split; [done|]. lia.
Qed.

(** X30: [generateChunk] answers once per chunk: a chunk that was
    generated before yields no nodes, and a chunk counts as generated as
    soon as it has been asked for, without touching the record of any
    other chunk.  The origin chunk, when first asked for, gets exactly its
    three fixed nodes (iron ore at (5, 0, 5), copper ore at (20, 0, 10) and
    limestone at (15, 0, 22), all of normal purity), any other chunk at
    most two; every node lies on the ground floor of the chunk it was
    generated for, at least two cells away from the chunk border. *)
Theorem generateChunk_spec (g : ChunkGenerator) (cx cz : Z) :
  let nodes := (generateChunk g cx cz).1 in
  let g' := (generateChunk g cx cz).2 in
  (isGenerated g cx cz = true → nodes = [] ∧ g' = g) ∧
  isGenerated g' cx cz = true ∧
  generateChunk g' cx cz = ([], g') ∧
  (∀ cx' cz', (cx', cz') ≠ (cx, cz) →
              isGenerated g' cx' cz' = isGenerated g cx' cz') ∧
  (length nodes <= 3)%nat ∧
  (isGenerated g cx cz = false → (cx, cz) = (0, 0) →
   nodes = [ mkNode (mkPos 5 0 5) IronOre Normal;
             mkNode (mkPos 20 0 10) CopperOre Normal;
             mkNode (mkPos 15 0 22) Limestone Normal ]) ∧
  ((cx, cz) ≠ (0, 0) → (length nodes <= 2)%nat) ∧
  Forall (fun node =>
            pos_y (position node) = 0 ∧
            positionToChunk (position node) = mkChunkCoord cx cz ∧
            2 <= (positionToLocal (position node)).1 <= 29 ∧
            2 <= (positionToLocal (position node)).2 <= 29) nodes.
Proof.
  cbv zeta. unfold generateChunk, isGenerated.
  destruct (decide (chunkKey cx cz ∈ generatedChunks g)) as [Hin | Hnot].
  - cbn [fst snd]. rewrite decide_True by done.
    split; [done|]. split; [by apply bool_decide_eq_true|]. split; [done|].
    split; [done|]. split; [simpl; lia|].
    split; [intros Hgen; by apply bool_decide_eq_false in Hgen|].
    split; [simpl; lia|]. constructor.
  - cbn [worldSeed].
    pose proof (draw_below (chunkSeed cx cz (worldSeed g)) 3 ltac:(lia)) as Hcount.
    destruct (mulberry32 (chunkSeed cx cz (worldSeed g))) as [r0 s0].
    cbn [fst] in Hcount. change (inject_Z 3) with 3%Q in Hcount.
    set (g1 := mkGen (worldSeed g) ({[chunkKey cx cz]} ∪ generatedChunks g)).
    assert (chunkKey cx cz ∈ generatedChunks g1) as Hin1.
    { unfold g1; simpl. apply elem_of_union. left. by apply elem_of_singleton. }
    assert (∀ cx' cz', (cx', cz') ≠ (cx, cz) →
              bool_decide (chunkKey cx' cz' ∈ generatedChunks g1)
              = bool_decide (chunkKey cx' cz' ∈ generatedChunks g)) as Hothers.
    { intros cx' cz' Hne. apply bool_decide_ext. unfold g1; simpl.
      rewrite elem_of_union, elem_of_singleton. split; [| by right].
      intros [Heq | Hold]; [| done].
      apply GridExtra.chunkKey_inj in Heq as [-> ->]. done. }
    destruct ((cx =? 0) && (cz =? 0)) eqn:Horigin; cbn [fst snd].
    + rewrite decide_True by done.
      split; [intros Hgen; by apply bool_decide_eq_true in Hgen|].
      split; [by apply bool_decide_eq_true|]. split; [done|].
      split; [exact Hothers|]. split; [simpl; lia|]. split; [done|]. split.
      * intros Hne. exfalso. apply Hne.
        apply andb_prop in Horigin as [Hx Hz].
        apply Z.eqb_eq in Hx, Hz. by subst.
      * apply andb_prop in Horigin as [Hx Hz].
        apply Z.eqb_eq in Hx, Hz. subst cx cz.
        repeat constructor; by vm_compute.
    + rewrite decide_True by done.
      destruct (generateNodes_spec (Z.to_nat (Qfloor (r0 * 3))) cx cz
                  (cx * cx + cz * cz <? 9) s0) as [Hlen Hall].
      split; [intros Hgen; by apply bool_decide_eq_true in Hgen|].
      split; [by apply bool_decide_eq_true|]. split; [done|].
      split; [exact Hothers|]. rewrite Hlen.
      split; [lia|]. split.
      { intros _ Horig. injection Horig as -> ->. discriminate Horigin. }
      split; [intros _; lia|]. exact Hall.
Qed.

Lemma generateChunk_spec_witness :
  (generateChunk freshGenerator 0 0).1
  = [ mkNode (mkPos 5 0 5) IronOre Normal;
      mkNode (mkPos 20 0 10) CopperOre Normal;
      mkNode (mkPos 15 0 22) Limestone Normal ] ∧
  (length (generateChunk freshGenerator 4 (-7)).1 <= 2)%nat ∧
  generateChunk (generateChunk freshGenerator 4 (-7)).2 4 (-7)
  = ([], (generateChunk freshGenerator 4 (-7)).2).
Proof.
  destruct (generateChunk_spec freshGenerator 0 0)
    as (_ & _ & _ & _ & _ & Horigin & _).
  destruct (generateChunk_spec freshGenerator 4 (-7))
    as (_ & _ & Hagain & _ & _ & _ & Hcount & _).
  split; [apply Horigin; reflexivity|].
  split; [apply Hcount; discriminate | exact Hagain].
Defined.

End ChunkGenExtra.
